(** * vdlisp: a shallow embedding of the evaluator, the value representation
    and the tiered compiler, with the properties of its specification.

    Layout of the development
    - [NanBox]   : the single-word value representation of [src/nanbox.hpp];
    - [Double]   : binary64 numbers as bit patterns, operations by [PrimFloat];
    - [IR]       : the instructions built by [JITIREmitter];
    - [Runtime]  : heap records, [State] and the monad of results;
    - [Alloc]    : allocators, symbols and environments of [src/vdlisp.cpp];
    - [Emit]     : the lowering of a function body and [compileFuncData];
    - [Native]   : the execution of compiled code and its runtime helpers;
    - [World]    : the reader's results and the file system;
    - [Core]     : the builtins of [src/core.cpp] and the printed forms;
    - [Interp]   : [eval], [call], [do_list], the primitives and [require];
    - [Startup]  : [State::State] and [main];
    - the properties: [NumberFacts], [ArithFacts], [LookupFacts], [LetFacts],
      [EqualFacts], [ArgvFacts], the invariants of [Keeps], [CacheFacts],
      [CallFacts], [DeoptFacts] and [BranchFacts].

    Conventions.  A C++ [uint64_t] is a [Z]; a pointer is a [Z] with [0] for
    [nullptr]; [std::unordered_map] is a [gmap].  Reference counts are not
    modelled: records are never freed, so an address stays valid.  A read
    through a pointer that holds no record of the expected class is the
    result [Fault] (undefined behaviour in C++). *)

From Stdlib Require Import ZArith Lia Bool List Ascii String.
From Stdlib Require Import PrimFloat FloatOps SpecFloat.
From stdpp Require Import base option gmap strings list.

Set Warnings "-register-all".
Local Open Scope Z_scope.

(* ===================================================================== *)
(** ** The NaN-boxed value word ([src/nanbox.hpp]) *)
(* ===================================================================== *)

Module NanBox.

(** [enum Type] *)
Inductive Type_ : Set :=
| TNIL | TPAIR | TNUMBER | TSTRING | TSYMBOL
| TFUNC | TMACRO | TPRIM | TCFUNC.

Definition Type_eqb (a b : Type_) : bool :=
  match a, b with
  | TNIL, TNIL | TPAIR, TPAIR | TNUMBER, TNUMBER | TSTRING, TSTRING
  | TSYMBOL, TSYMBOL | TFUNC, TFUNC | TMACRO, TMACRO | TPRIM, TPRIM
  | TCFUNC, TCFUNC => true
  | _, _ => false
  end.

Lemma Type_eqb_spec a b : Type_eqb a b = true <-> a = b.
Proof. destruct a, b; simpl; split; congruence. Qed.

(** A [Value] is its [bits] member. *)
Definition Value : Set := Z.

Definition kNaNMask : Z := 0x7FF0000000000000.
Definition kTagMask : Z := Z.lor kNaNMask 0x000F000000000000.
Definition kPayloadMask : Z := 0x0000FFFFFFFFFFFF.

Definition kTagNil : Z := Z.lor kNaNMask 0x0000000000000000.
Definition kTagPair : Z := Z.lor kNaNMask 0x0001000000000000.
Definition kTagString : Z := Z.lor kNaNMask 0x0002000000000000.
Definition kTagSymbol : Z := Z.lor kNaNMask 0x0003000000000000.
Definition kTagFunc : Z := Z.lor kNaNMask 0x0004000000000000.
Definition kTagMacro : Z := Z.lor kNaNMask 0x0005000000000000.
Definition kTagPrim : Z := Z.lor kNaNMask 0x0006000000000000.
Definition kTagCFunc : Z := Z.lor kNaNMask 0x0007000000000000.

(** The lookup table of [Value::get_type]. *)
Definition kTagMap (idx : Z) : Type_ :=
  match idx with
  | 0 => TNIL | 1 => TPAIR | 2 => TSTRING | 3 => TSYMBOL
  | 4 => TFUNC | 5 => TMACRO | 6 => TPRIM | 7 => TCFUNC
  | _ => TNIL
  end.

Definition get_type (bits : Value) : Type_ :=
  if negb (Z.land bits kNaNMask =? kNaNMask) then TNUMBER
  else kTagMap (Z.land (Z.shiftr bits 48) 0xF).

(** [Value()] and [Value(Type t)] *)
Definition nil : Value := kTagNil.

Definition Value_of_type (t : Type_) : Value :=
  match t with
  | TNIL => kTagNil
  | TNUMBER => 0
  | TPAIR => kTagPair
  | TSTRING => kTagString
  | TSYMBOL => kTagSymbol
  | TFUNC => kTagFunc
  | TMACRO => kTagMacro
  | TPRIM => kTagPrim
  | TCFUNC => kTagCFunc
  end.

(** [explicit operator bool] *)
Definition truthy (v : Value) : bool := negb (Type_eqb (get_type v) TNIL).

(** [operator==] and [identity_key] *)
Definition Value_eqb (a b : Value) : bool := a =? b.
Definition identity_key (v : Value) : Z := v.

(** [get_number]: the word read back as a double (a [memcpy]); doubles
    are carried as their bit patterns, see [Double]. *)
Definition get_number (bits : Value) : Z := bits.

(** [set_number]: the double's bit pattern, replaced by [0] when it lies
    in the reserved region.  (The [release] of the previous payload is
    reference counting.) *)
Definition set_number (value : Z) : Value :=
  let bits := value in
  if Z.land bits kNaNMask =? kNaNMask then 0 else bits.

Definition payload_ptr (bits : Value) : Z := Z.land bits kPayloadMask.

(** [set_payload_raw<Tag>] / [set_fn_raw<Tag>]: the stored word. *)
Definition set_payload_raw (Tag ptr : Z) : Value :=
  Z.lor Tag (Z.land ptr kPayloadMask).

Definition get_payload_raw (bits : Value) : Z := Z.land bits kPayloadMask.

(** [check_nanboxing_environment] of [src/main.cpp], on one address. *)
Definition fits_payload (addr : Z) : bool :=
  Z.land addr (Z.lnot kPayloadMask) =? 0.

(** The fields of a binary64 word. *)
Definition exponent_field (bits : Z) : Z := Z.land (Z.shiftr bits 52) 0x7FF.
Definition mantissa_field (bits : Z) : Z := Z.land bits 0xFFFFFFFFFFFFF.
Definition sign_field (bits : Z) : bool := Z.testbit bits 63.

(** The reserved region: exponent all ones. *)
Definition reserved (bits : Z) : bool := Z.land bits kNaNMask =? kNaNMask.

Definition is_nan_bits (bits : Z) : bool :=
  (exponent_field bits =? 0x7FF) && negb (mantissa_field bits =? 0).
Definition is_inf_bits (bits : Z) : bool :=
  (exponent_field bits =? 0x7FF) && (mantissa_field bits =? 0).

End NanBox.

(* ===================================================================== *)
(** ** binary64 numbers *)
(* ===================================================================== *)

(** A C++ [double] is carried as its 64-bit pattern.  The arithmetic of the
    machine is that of Rocq's primitive floats (IEEE-754 binary64), reached
    through the two conversions below. *)
Module Double.

Definition double : Set := Z.

Definition double_to_bits (f : float) : Z :=
  match Prim2SF f with
  | S754_zero s => if s then 0x8000000000000000 else 0
  | S754_infinity s => if s then 0xFFF0000000000000 else 0x7FF0000000000000
  | S754_nan => 0x7FF8000000000000
  | S754_finite s m e =>
      let sb := if s then 0x8000000000000000 else 0 in
      if Z.ltb (Zpos m) 0x10000000000000 then (sb + Zpos m)%Z
      else (sb + Z.shiftl (e + 1075) 52 + (Zpos m - 0x10000000000000))%Z
  end.

Definition bits_to_double (b : Z) : float :=
  let s := NanBox.sign_field b in
  let e := NanBox.exponent_field b in
  let m := NanBox.mantissa_field b in
  if Z.eqb e 0x7FF then
    if Z.eqb m 0 then (if s then neg_infinity else infinity) else nan
  else if Z.eqb e 0 then
    match m with
    | Zpos p => SF2Prim (S754_finite s p (-1074))
    | _ => if s then neg_zero else PrimFloat.zero
    end
  else
    match (m + 0x10000000000000)%Z with
    | Zpos p => SF2Prim (S754_finite s p (e - 1075))
    | _ => PrimFloat.zero
    end.

Definition lift2 (op : float -> float -> float) (a b : double) : double :=
  double_to_bits (op (bits_to_double a) (bits_to_double b)).

Definition fadd : double -> double -> double := lift2 PrimFloat.add.
Definition fsub : double -> double -> double := lift2 PrimFloat.sub.
Definition fmul : double -> double -> double := lift2 PrimFloat.mul.
Definition fdiv : double -> double -> double := lift2 PrimFloat.div.

(** C++ [==], [<], [>], [<=], [>=] on doubles: false when unordered. *)
Definition feq (a b : double) : bool :=
  PrimFloat.eqb (bits_to_double a) (bits_to_double b).
Definition flt (a b : double) : bool :=
  PrimFloat.ltb (bits_to_double a) (bits_to_double b).
Definition fle (a b : double) : bool :=
  PrimFloat.leb (bits_to_double a) (bits_to_double b).
Definition fgt (a b : double) : bool := flt b a.
Definition fge (a b : double) : bool := fle b a.

(** [std::isnan] *)
Definition isnan (a : double) : bool := NanBox.is_nan_bits a.

(** [std::numeric_limits<double>::quiet_NaN()] *)
Definition quiet_NaN : double := 0x7FF8000000000000.

Definition d0 : double := 0.
Definition d1 : double := 0x3FF0000000000000.

End Double.

(* ===================================================================== *)
(** ** The IR built by [JITIREmitter] ([src/jit/jit_ir_emitter.cpp]) *)
(* ===================================================================== *)

(** The emitter produces straight-line SSA values and, for [cond], [while]
    and [let], a fixed block skeleton; the tree below keeps one node per
    emitted instruction group, in emission order. *)
Module IR.
Import Double.

Inductive FCmp : Set := OLT | OGT | OLE | OGE | OEQ | ONE.
Inductive FBin : Set := FAdd | FSub | FMul | FDiv.

Inductive Instr : Set :=
| ConstantFP (d : double)
| LoadArg (i : Z)                       (* load (gep double, arg0, i) *)
| LoadLocal (name : string)             (* load from the alloca of [name] *)
| CallLookupNumber (env_ptr : Z) (name : string)
| BinaryOp (op : FBin) (l r : Instr)
| SelectCmp (pred : FCmp) (l r : Instr) (* select (fcmp pred l r), 1.0, 0.0 *)
| CondBlocks (clauses : list (Instr * list Instr))
| WhileBlocks (cond : Instr) (body : list Instr)
| LetStores (stores : list (string * Instr)) (body : list Instr)
| CallNative (callee_fd : Z) (args : list Instr)
| CallBridge (callee_fd : Z) (args : list Instr).

(** The function built by [build_func_ir]: the body values in order; the
    last one is returned. *)
Record Function : Set := mkFunction { fn_owner : Z; fn_body : list Instr }.

Definition fcmp (p : FCmp) (a b : double) : bool :=
  match p with
  | OLT => flt a b
  | OGT => fgt a b
  | OLE => fle a b
  | OGE => fge a b
  | OEQ => feq a b
  | ONE => flt a b || fgt a b
  end.

Definition fbin (op : FBin) (a b : double) : double :=
  match op with
  | FAdd => fadd a b
  | FSub => fsub a b
  | FMul => fmul a b
  | FDiv => fdiv a b
  end.
End IR.

(* ===================================================================== *)
(** ** Heap records, the interpreter state and the error monad *)
(* ===================================================================== *)

Module Runtime.
Export NanBox.
Export Double.

(** [State::SourceLoc] *)
Record SourceLoc : Set := mkLoc
  { file : string; line : Z; col : Z; label : string }.

(** What an exceptional unwind carries: [std::runtime_error] or the
    [ParseError] of [helpers.hpp]. *)
Inductive Error : Set :=
| RuntimeError (what : string)
| ParseError (loc : SourceLoc) (what : string) (call_chain : list SourceLoc).

Definition what (e : Error) : string :=
  match e with RuntimeError w => w | ParseError _ w _ => w end.

Record PairData : Set := mkPair { car : Value; cdr : Value }.

Record FuncData : Set := mkFunc
  { params : Value;
    body : Value;
    closure_env : Z;
    call_count : Z;
    num_call_count : Z;
    compiled_code : Z;
    jit_failed : bool }.

Record MacroData : Set := mkMacro
  { mparams : Value; mbody : Value; mclosure_env : Z }.

Record Env : Type := mkEnv { env_map : gmap string Value; env_parent : Z }.

Record State : Type := mkState
  { (* the heap: one table per record class, keyed by address *)
    strings : gmap Z string;
    pairs : gmap Z PairData;
    funcs : gmap Z FuncData;
    macros : gmap Z MacroData;
    envs : gmap Z Env;
    brk : Z;
    (* members of [State] *)
    global : Z;
    symbol_intern : gmap string Value;
    current_expr : Value;
    src_map : gmap Z SourceLoc;
    src_call_chain_map : gmap Z (list SourceLoc);
    loaded_modules : gmap string Value;
    (* [vdlisp::jit_active_state], set or null *)
    jit_active_state : bool;
    (* [global_jit]: native entry -> the function it was built from *)
    module_for_fn : gmap Z IR.Function;
    (* what was written to [std::cout] *)
    cout : list string }.

Definition with_strings f (s : State) : State :=
  mkState (f (strings s)) (pairs s) (funcs s) (macros s) (envs s) (brk s)
    (global s) (symbol_intern s) (current_expr s) (src_map s)
    (src_call_chain_map s) (loaded_modules s) (jit_active_state s)
    (module_for_fn s) (cout s).
Definition with_pairs f (s : State) : State :=
  mkState (strings s) (f (pairs s)) (funcs s) (macros s) (envs s) (brk s)
    (global s) (symbol_intern s) (current_expr s) (src_map s)
    (src_call_chain_map s) (loaded_modules s) (jit_active_state s)
    (module_for_fn s) (cout s).
Definition with_funcs f (s : State) : State :=
  mkState (strings s) (pairs s) (f (funcs s)) (macros s) (envs s) (brk s)
    (global s) (symbol_intern s) (current_expr s) (src_map s)
    (src_call_chain_map s) (loaded_modules s) (jit_active_state s)
    (module_for_fn s) (cout s).
Definition with_macros f (s : State) : State :=
  mkState (strings s) (pairs s) (funcs s) (f (macros s)) (envs s) (brk s)
    (global s) (symbol_intern s) (current_expr s) (src_map s)
    (src_call_chain_map s) (loaded_modules s) (jit_active_state s)
    (module_for_fn s) (cout s).
Definition with_envs f (s : State) : State :=
  mkState (strings s) (pairs s) (funcs s) (macros s) (f (envs s)) (brk s)
    (global s) (symbol_intern s) (current_expr s) (src_map s)
    (src_call_chain_map s) (loaded_modules s) (jit_active_state s)
    (module_for_fn s) (cout s).
Definition with_brk f (s : State) : State :=
  mkState (strings s) (pairs s) (funcs s) (macros s) (envs s) (f (brk s))
    (global s) (symbol_intern s) (current_expr s) (src_map s)
    (src_call_chain_map s) (loaded_modules s) (jit_active_state s)
    (module_for_fn s) (cout s).
Definition with_global f (s : State) : State :=
  mkState (strings s) (pairs s) (funcs s) (macros s) (envs s) (brk s)
    (f (global s)) (symbol_intern s) (current_expr s) (src_map s)
    (src_call_chain_map s) (loaded_modules s) (jit_active_state s)
    (module_for_fn s) (cout s).
Definition with_symbol_intern f (s : State) : State :=
  mkState (strings s) (pairs s) (funcs s) (macros s) (envs s) (brk s)
    (global s) (f (symbol_intern s)) (current_expr s) (src_map s)
    (src_call_chain_map s) (loaded_modules s) (jit_active_state s)
    (module_for_fn s) (cout s).
Definition with_current_expr f (s : State) : State :=
  mkState (strings s) (pairs s) (funcs s) (macros s) (envs s) (brk s)
    (global s) (symbol_intern s) (f (current_expr s)) (src_map s)
    (src_call_chain_map s) (loaded_modules s) (jit_active_state s)
    (module_for_fn s) (cout s).
Definition with_src_map f (s : State) : State :=
  mkState (strings s) (pairs s) (funcs s) (macros s) (envs s) (brk s)
    (global s) (symbol_intern s) (current_expr s) (f (src_map s))
    (src_call_chain_map s) (loaded_modules s) (jit_active_state s)
    (module_for_fn s) (cout s).
Definition with_src_call_chain_map f (s : State) : State :=
  mkState (strings s) (pairs s) (funcs s) (macros s) (envs s) (brk s)
    (global s) (symbol_intern s) (current_expr s) (src_map s)
    (f (src_call_chain_map s)) (loaded_modules s) (jit_active_state s)
    (module_for_fn s) (cout s).
Definition with_loaded_modules f (s : State) : State :=
  mkState (strings s) (pairs s) (funcs s) (macros s) (envs s) (brk s)
    (global s) (symbol_intern s) (current_expr s) (src_map s)
    (src_call_chain_map s) (f (loaded_modules s)) (jit_active_state s)
    (module_for_fn s) (cout s).
Definition with_jit_active_state f (s : State) : State :=
  mkState (strings s) (pairs s) (funcs s) (macros s) (envs s) (brk s)
    (global s) (symbol_intern s) (current_expr s) (src_map s)
    (src_call_chain_map s) (loaded_modules s) (f (jit_active_state s))
    (module_for_fn s) (cout s).
Definition with_module_for_fn f (s : State) : State :=
  mkState (strings s) (pairs s) (funcs s) (macros s) (envs s) (brk s)
    (global s) (symbol_intern s) (current_expr s) (src_map s)
    (src_call_chain_map s) (loaded_modules s) (jit_active_state s)
    (f (module_for_fn s)) (cout s).
Definition with_cout f (s : State) : State :=
  mkState (strings s) (pairs s) (funcs s) (macros s) (envs s) (brk s)
    (global s) (symbol_intern s) (current_expr s) (src_map s)
    (src_call_chain_map s) (loaded_modules s) (jit_active_state s)
    (module_for_fn s) (f (cout s)).

(** *** Outcomes and the monad *)

(** [Ok]: normal return.  [Throw]: a C++ exception in flight.  [Fault]:
    undefined behaviour (a wild or null dereference).  [OutOfFuel]: the
    recursion bound of the model was reached.  [Exit]: [std::exit]. *)
Inductive Res (A : Type) : Type :=
| Ok (a : A)
| Throw (e : Error)
| Fault
| OutOfFuel
| Exit (code : Z).
Arguments Ok {A} a.
Arguments Throw {A} e.
Arguments Fault {A}.
Arguments OutOfFuel {A}.
Arguments Exit {A} code.

Definition M (A : Type) : Type := State -> Res A * State.

Definition ret {A} (a : A) : M A := fun s => (Ok a, s).

Definition bind {A B} (m : M A) (k : A -> M B) : M B :=
  fun s =>
    match m s with
    | (Ok a, s') => k a s'
    | (Throw e, s') => (Throw e, s')
    | (Fault, s') => (Fault, s')
    | (OutOfFuel, s') => (OutOfFuel, s')
    | (Exit c, s') => (Exit c, s')
    end.

Definition throw {A} (e : Error) : M A := fun s => (Throw e, s).
Definition runtime_error {A} (msg : string) : M A := throw (RuntimeError msg).
Definition fault {A} : M A := fun s => (Fault, s).
Definition out_of_fuel {A} : M A := fun s => (OutOfFuel, s).
Definition get : M State := fun s => (Ok s, s).
Definition gets {A} (f : State -> A) : M A := fun s => (Ok (f s), s).
Definition modify (f : State -> State) : M unit := fun s => (Ok tt, f s).

(** [try { m } catch (...) { h }] *)
Definition catch_all {A} (m : M A) (h : Error -> M A) : M A :=
  fun s =>
    match m s with
    | (Throw e, s') => h e s'
    | r => r
    end.

(** A destructor that runs on every exit path of [m]. *)
Definition finally {A} (m : M A) (f : State -> State) : M A :=
  fun s => let '(r, s') := m s in (r, f s').

Definition from_option {A} (o : option A) : M A :=
  match o with Some a => ret a | None => fault end.

End Runtime.

Notation "'let!' x ':=' m 'in' k" := (Runtime.bind m (fun x => k))
  (at level 20, x name, m at level 100, k at level 200).
Notation "'let!' ' p ':=' m 'in' k" := (Runtime.bind m (fun p => k))
  (at level 20, p pattern, m at level 100, k at level 200).
Notation "m ';;;' k" := (Runtime.bind m (fun _ => k))
  (at level 100, k at level 200, right associativity).

(* ===================================================================== *)
(** ** Allocation, symbols and environments ([src/vdlisp.cpp]) *)
(* ===================================================================== *)

Module Alloc.
Export Runtime.

(** [operator new]: a fresh address. *)
Definition alloc : M Z :=
  fun s => (Ok (brk s), with_brk (fun b => b + 64) s).

Definition alloc_string (str : string) : M Z :=
  let! p := alloc in
  modify (with_strings (insert p str)) ;;;
  ret p.

Definition alloc_pair (a d : Value) : M Z :=
  let! p := alloc in
  modify (with_pairs (insert p (mkPair a d))) ;;;
  ret p.

Definition alloc_func (ps bd : Value) (env : Z) : M Z :=
  let! p := alloc in
  modify (with_funcs (insert p (mkFunc ps bd env 0 0 0 false))) ;;;
  ret p.

Definition alloc_macro (ps bd : Value) (env : Z) : M Z :=
  let! p := alloc in
  modify (with_macros (insert p (mkMacro ps bd env))) ;;;
  ret p.

Definition alloc_env : M Z :=
  let! p := alloc in
  modify (with_envs (insert p (mkEnv ∅ 0))) ;;;
  ret p.

Definition make_env (parent : Z) : M Z :=
  let! e := alloc_env in
  modify (with_envs (insert e (mkEnv ∅ parent))) ;;;
  ret e.

Definition make_nil : Value := nil.

Definition make_number (n : double) : Value := set_number n.

Definition make_string (str : string) : M Value :=
  let! p := alloc_string str in
  ret (set_payload_raw kTagString p).

Definition make_symbol (str : string) : M Value :=
  let! tbl := gets symbol_intern in
  match tbl !! str with
  | Some v => ret v
  | None =>
      let! p := alloc_string str in
      let v := set_payload_raw kTagSymbol p in
      modify (with_symbol_intern (insert str v)) ;;;
      ret v
  end.

Definition make_pair (a d : Value) : M Value :=
  let! p := alloc_pair a d in
  ret (set_payload_raw kTagPair p).

Definition make_function (ps bd : Value) (env : Z) : M Value :=
  let! p := alloc_func ps bd env in
  ret (set_payload_raw kTagFunc p).

Definition make_macro (ps bd : Value) (env : Z) : M Value :=
  let! p := alloc_macro ps bd env in
  ret (set_payload_raw kTagMacro p).

(** *** Reading records through a value *)

Definition get_pair (v : Value) : M PairData :=
  let! h := gets pairs in from_option (h !! get_payload_raw v).

(** [*v.get_string()] and [*v.get_symbol()]: both read a [StringData]. *)
Definition get_string (v : Value) : M string :=
  let! h := gets strings in from_option (h !! get_payload_raw v).
Definition get_symbol (v : Value) : M string := get_string v.

Definition get_func (v : Value) : Z := get_payload_raw v.
Definition get_macro (v : Value) : Z := get_payload_raw v.

Definition read_func (fd : Z) : M FuncData :=
  let! h := gets funcs in from_option (h !! fd).
Definition write_func (fd : Z) (d : FuncData) : M unit :=
  modify (with_funcs (insert fd d)).
Definition read_macro (md : Z) : M MacroData :=
  let! h := gets macros in from_option (h !! md).
Definition read_env (e : Z) : M Env :=
  let! h := gets envs in from_option (h !! e).
Definition write_env (e : Z) (d : Env) : M unit :=
  modify (with_envs (insert e d)).

(** [fd->compiled_code = c] and [fd->jit_failed = b] *)
Definition set_compiled_code (fd : Z) (c : Z) : M unit :=
  let! d := read_func fd in
  write_func fd (mkFunc (params d) (body d) (closure_env d) (call_count d)
                   (num_call_count d) c (jit_failed d)).

Definition set_jit_failed (fd : Z) (b : bool) : M unit :=
  let! d := read_func fd in
  write_func fd (mkFunc (params d) (body d) (closure_env d) (call_count d)
                   (num_call_count d) (compiled_code d) b).

Definition is_type (v : Value) (t : Type_) : bool := Type_eqb (get_type v) t.

(** *** [helpers.hpp] *)

Definition pair_car (p : Value) : M Value :=
  if negb (truthy p) then ret nil
  else if negb (is_type p TPAIR) then ret nil
  else let! pd := get_pair p in ret (car pd).

Definition pair_cdr (p : Value) : M Value :=
  if negb (truthy p) then ret nil
  else if negb (is_type p TPAIR) then ret nil
  else let! pd := get_pair p in ret (cdr pd).

Definition is_pair (p : Value) : bool := truthy p && is_type p TPAIR.

Definition is_symbol (p : Value) (name : string) : M bool :=
  if truthy p && is_type p TSYMBOL then
    let! str := get_symbol p in ret (String.eqb str name)
  else ret false.

Definition pair_set_car (p v : Value) : M unit :=
  if negb (truthy p) then ret tt
  else if negb (is_type p TPAIR) then ret tt
  else let! pd := get_pair p in
       modify (with_pairs (insert (get_payload_raw p) (mkPair v (cdr pd)))).

Definition pair_set_cdr (p v : Value) : M unit :=
  if negb (truthy p) then ret tt
  else if negb (is_type p TPAIR) then ret tt
  else let! pd := get_pair p in
       modify (with_pairs (insert (get_payload_raw p) (mkPair (car pd) v))).

(** *** Source locations ([src/helpers.cpp]) *)

Definition set_source_loc (v : Value) (f : string) (l c : Z) : M unit :=
  if negb (truthy v) then ret tt
  else modify (with_src_map (insert (identity_key v) (mkLoc f l c ""))).

(** [get_source_loc]: [None] for the C++ [false]. *)
Definition get_source_loc (v : Value) : M (option SourceLoc) :=
  if negb (truthy v) then ret None
  else let! m := gets src_map in ret (m !! identity_key v).

(** *** Environments *)

(** [env->map[key] = v] *)
Definition env_store (e : Z) (key : string) (v : Value) : M unit :=
  let! d := read_env e in
  write_env e (mkEnv (<[key := v]> (env_map d)) (env_parent d)).

Definition bind_global (name : string) (v : Value) : M unit :=
  let! g := gets global in env_store g name v.

(** [State::bind].  The parameter [v] is moved into the map, so the value
    returned is the moved-from [Value]: nil. *)
Definition bind_ (sym v : Value) (env : Z) : M Value :=
  let! g := gets global in
  let env := if env =? 0 then g else env in
  if negb (truthy sym) || negb (is_type sym TSYMBOL) then
    runtime_error "bind expects a symbol"
  else
    let! key := get_symbol sym in
    env_store env key v ;;;
    ret nil.

(** The walk [while (e) { find; e = e->parent; }] shared by [State::set],
    [State::get_bound] and the symbol case of [State::eval]: the nearest
    environment holding [key], with the value bound there. *)
Fixpoint find_binding (fuel : nat) (e : Z) (key : string)
  : M (option (Z * Value)) :=
  match fuel with
  | O => out_of_fuel
  | S n =>
      if e =? 0 then ret None
      else
        let! d := read_env e in
        match env_map d !! key with
        | Some v => ret (Some (e, v))
        | None => find_binding n (env_parent d) key
        end
  end.

(** [State::set]; it returns its moved-from parameter as well. *)
Definition set_ (fuel : nat) (sym v : Value) (env : Z) : M Value :=
  let! g := gets global in
  let env := if env =? 0 then g else env in
  let! key := get_symbol sym in
  let! hit := find_binding fuel env key in
  match hit with
  | Some (e, _) => env_store e key v ;;; ret nil
  | None => bind_ sym v env ;;; ret nil
  end.

Definition get_bound (fuel : nat) (name : string) (env : Z) : M Value :=
  let! g := gets global in
  let e := if env =? 0 then g else env in
  let! hit := find_binding fuel e name in
  match hit with
  | Some (_, v) => ret v
  | None => ret nil
  end.

(** [bind_params_to_env], writing into the map of environment [out]. *)
Fixpoint bind_params_to_env (fuel : nat) (out : Z) (p a : Value)
    (fill_missing_with_nil : bool) : M unit :=
  match fuel with
  | O => out_of_fuel
  | S n =>
      if negb (truthy p) then ret tt
      else if is_type p TSYMBOL then
        let! key := get_symbol p in env_store out key a
      else if negb fill_missing_with_nil && negb (truthy a) then ret tt
      else
        let! ppd := get_pair p in
        let pcar := car ppd in
        let pcdr := cdr ppd in
        (if truthy pcar && is_type pcar TSYMBOL then
           let! key := get_symbol pcar in
           if truthy a then
             let! apd := get_pair a in env_store out key (car apd)
           else env_store out key nil
         else ret tt) ;;;
        let! a' := (if truthy a then let! apd := get_pair a in ret (cdr apd)
                    else ret a) in
        bind_params_to_env n out pcdr a' fill_missing_with_nil
  end.

End Alloc.

(* ===================================================================== *)
(** ** Lowering to IR ([src/jit/jit_ir_emitter.cpp], [jit_ir_builder.cpp],
       [jit.cpp]) *)
(* ===================================================================== *)

Module Emit.
Export Alloc.
Import IR.

(** The emitter's members that change while it runs: [locals] (only the
    names matter; every name owns one alloca).  A failed emission is the
    C++ [nullptr], here [None]. *)
Definition Locals : Type := gset string.
Definition E (A : Type) : Type := Locals -> M (option (A * Locals)).

Definition eret {A} (a : A) : E A := fun l => ret (Some (a, l)).
Definition enull {A} : E A := fun _ => ret None.
Definition ebind {A B} (m : E A) (k : A -> E B) : E B :=
  fun l =>
    let! r := m l in
    match r with
    | Some (a, l') => k a l'
    | None => ret None
    end.
Definition elift {A} (m : M A) : E A :=
  fun l => let! a := m in ret (Some (a, l)).
Definition ensure_local (name : string) : E unit :=
  fun l => ret (Some (tt, {[name]} ∪ l)).
Definition has_local (name : string) : E bool :=
  fun l => ret (Some (bool_decide (name ∈ l), l)).

Notation "'let?' x ':=' m 'in' k" := (ebind m (fun x => k))
  (at level 20, x name, m at level 100, k at level 200).

(** The constructor of [JITIREmitter]: parameter name -> argument index. *)
Fixpoint param_index_of (fuel : nat) (p : Value) (idx : Z)
    (acc : gmap string Z) : M (gmap string Z) :=
  match fuel with
  | O => out_of_fuel
  | S n =>
      if negb (truthy p) then ret acc
      else if is_type p TSYMBOL then
        let! name := get_symbol p in ret (<[name := idx]> acc)
      else
        let! ppd := get_pair p in
        let pname := car ppd in
        if truthy pname && is_type pname TSYMBOL then
          let! name := get_symbol pname in
          param_index_of n (cdr ppd) (idx + 1) (<[name := idx]> acc)
        else param_index_of n (cdr ppd) idx acc
  end.

Section Emitter.
(** The function being compiled and its parameter table. *)
Variable func : FuncData.
Variable param_index : gmap string Z.

Section Forms.
(** [emitExpr] one level down. *)
Variable emit : Value -> E Instr.

(** [while (x) { v = emitExpr(pair_car(x)); ...; x = x.get_pair()->cdr; }] *)
Fixpoint emit_each (fuel : nat) (x : Value) : E (list Instr) :=
  match fuel with
  | O => elift out_of_fuel
  | S n =>
      if negb (truthy x) then eret []
      else
        let? ex := elift (pair_car x) in
        let? v := emit ex in
        let? pd := elift (get_pair x) in
        let? vs := emit_each n (cdr pd) in
        eret (v :: vs)
  end.

(** The same loop advancing with [pair_cdr]. *)
Fixpoint emit_each_cdr (fuel : nat) (x : Value) : E (list Instr) :=
  match fuel with
  | O => elift out_of_fuel
  | S n =>
      if negb (truthy x) then eret []
      else
        let? ex := elift (pair_car x) in
        let? v := emit ex in
        let? next := elift (pair_cdr x) in
        let? vs := emit_each_cdr n next in
        eret (v :: vs)
  end.

Fixpoint compileCond_clauses (fuel : nat) (walk : Value)
  : E (list (Instr * list Instr)) :=
  match fuel with
  | O => elift out_of_fuel
  | S n =>
      if negb (truthy walk) then eret []
      else
        let? clause := elift (pair_car walk) in
        let? test := elift (if is_pair clause then pair_car clause
                            else ret nil) in
        let? body := elift (if is_pair clause then pair_cdr clause
                            else ret nil) in
        let? condv := emit test in
        let? bodyv := emit_each n body in
        let? pd := elift (get_pair walk) in
        let? more := compileCond_clauses n (cdr pd) in
        eret ((condv, bodyv) :: more)
  end.

Definition compileCond (fuel : nat) (clauses : Value) : E Instr :=
  if negb (truthy clauses) then eret (ConstantFP d0)
  else
    let? cs := compileCond_clauses fuel clauses in
    eret (CondBlocks cs).

Definition compileWhile (fuel : nat) (rest : Value) : E Instr :=
  let? cond := elift (pair_car rest) in
  let? pd := elift (get_pair rest) in
  let body := cdr pd in
  let? condv := emit cond in
  let? bodyv := emit_each fuel body in
  eret (WhileBlocks condv bodyv).

(** The two binding loops of [compileLet]. *)
Fixpoint compileLet_pairs (fuel : nat) (b : Value)
  : E (list (string * Instr)) :=
  match fuel with
  | O => elift out_of_fuel
  | S n =>
      if negb (truthy b) then eret []
      else
        let? pair := elift (pair_car b) in
        let? name := elift (pair_car pair) in
        let? val := elift (let! t := pair_cdr pair in pair_car t) in
        if negb (truthy name) || negb (is_type name TSYMBOL) then enull
        else
          let? v := emit val in
          let? key := elift (get_symbol name) in
          let? _ := ensure_local key in
          let? next := elift (pair_cdr b) in
          let? more := compileLet_pairs n next in
          eret ((key, v) :: more)
  end.

Fixpoint compileLet_flat (fuel : nat) (b : Value)
  : E (list (string * Instr)) :=
  match fuel with
  | O => elift out_of_fuel
  | S n =>
      if negb (truthy b) then eret []
      else
        let? name := elift (pair_car b) in
        if negb (truthy name) || negb (is_type name TSYMBOL) then enull
        else
          let? next := elift (pair_cdr b) in
          if negb (truthy next) then enull
          else
            let? val := elift (pair_car next) in
            let? v := emit val in
            let? key := elift (get_symbol name) in
            let? _ := ensure_local key in
            let? rest := elift (pair_cdr next) in
            let? more := compileLet_flat n rest in
            eret ((key, v) :: more)
  end.

Definition compileLet (fuel : nat) (rest : Value) : E Instr :=
  let? bindings := elift (pair_car rest) in
  let? pd := elift (get_pair rest) in
  let letbody := cdr pd in
  let? first := elift (pair_car bindings) in
  let? stores :=
    (if is_pair bindings && is_pair first
     then compileLet_pairs fuel bindings
     else compileLet_flat fuel bindings) in
  let? bodyv := emit_each_cdr fuel letbody in
  eret (LetStores stores bodyv).

(** The tail of [emitExpr] for a pair whose head is the symbol
    [opname]: arguments first, then the operator. *)
Definition emit_application (fuel : nat) (opname : string) (rest : Value)
  : E Instr :=
  let? vals := emit_each fuel rest in
  let binary (mk : Instr -> Instr -> Instr) : E Instr :=
    match vals with
    | [l; r] => eret (mk l r)
    | _ => enull
    end in
  if String.eqb opname "+" then binary (BinaryOp FAdd)
  else if String.eqb opname "*" then binary (BinaryOp FMul)
  else if String.eqb opname "-" then binary (BinaryOp FSub)
  else if String.eqb opname "/" then binary (BinaryOp FDiv)
  else if String.eqb opname "<" then binary (SelectCmp OLT)
  else if String.eqb opname ">" then binary (SelectCmp OGT)
  else if String.eqb opname "<=" then binary (SelectCmp OLE)
  else if String.eqb opname ">=" then binary (SelectCmp OGE)
  else if String.eqb opname "=" then binary (SelectCmp OEQ)
  else
    let? hit := elift (find_binding fuel (closure_env func) opname) in
    match hit with
    | Some (_, found) =>
        if truthy found && is_type found TFUNC then
          let callee_fd := get_func found in
          if callee_fd =? 0 then enull
          else
            let? callee := elift (read_func callee_fd) in
            if negb (compiled_code callee =? 0)
            then eret (CallNative callee_fd vals)
            else eret (CallBridge callee_fd vals)
        else enull
    | None => enull
    end.

Definition emitExpr_body (fuel : nat) (expr : Value) : E Instr :=
  if negb (truthy expr) then eret (ConstantFP d0)
  else if is_type expr TNUMBER then eret (ConstantFP (get_number expr))
  else if is_type expr TSYMBOL then
    let? name := elift (get_symbol expr) in
    if String.eqb name "#t" then eret (ConstantFP d1)
    else
      match param_index !! name with
      | Some i => eret (LoadArg i)
      | None =>
          let? loc := has_local name in
          if loc then eret (LoadLocal name)
          else eret (CallLookupNumber (closure_env func) name)
      end
  else if is_type expr TPAIR then
    let? pd := elift (get_pair expr) in
    let op := car pd in
    let rest := cdr pd in
    if negb (truthy op) || negb (is_type op TSYMBOL) then enull
    else
      let? opname := elift (get_symbol op) in
      if String.eqb opname "cond" then compileCond fuel rest
      else if String.eqb opname "while" then compileWhile fuel rest
      else if String.eqb opname "let" then compileLet fuel rest
      else emit_application fuel opname rest
  else enull.
End Forms.

Fixpoint emitExpr (fuel : nat) (expr : Value) : E Instr :=
  match fuel with
  | O => elift out_of_fuel
  | S n => emitExpr_body (emitExpr n) n expr
  end.
End Emitter.

(** [build_func_ir]: [None] is the C++ [nullptr]. *)
Definition build_func_ir (fuel : nat) (fd : Z) : M (option Function) :=
  if fd =? 0 then ret None
  else
    let! func := read_func fd in
    let! pidx := param_index_of fuel (params func) 0 ∅ in
    let! r := emit_each_cdr (emitExpr func pidx fuel) fuel (body func) ∅ in
    match r with
    | Some (vs, _) => ret (Some (mkFunction fd vs))
    | None => ret None
    end.

(** [JITCompiler::compileFunctionFromBuilder].  The code generator is
    LLVM's; the model records the built function under a fresh entry
    address. *)
Definition compileFunctionFromBuilder (builder : M (option Function)) : M Z :=
  let! f := builder in
  match f with
  | None => ret 0
  | Some fn =>
      let! ptr := alloc in
      modify (with_module_for_fn (insert ptr fn)) ;;;
      ret ptr
  end.

(** [collect_called_funcs] *)
Section Collect.
Variable collect : Value -> M (list Z).

Fixpoint collect_walk (fuel : nat) (walk : Value) : M (list Z) :=
  match fuel with
  | O => out_of_fuel
  | S n =>
      if negb (truthy walk) then ret []
      else
        let! wpd := get_pair walk in
        let! here := collect (car wpd) in
        let! more := collect_walk n (cdr wpd) in
        ret (here ++ more)
  end.
End Collect.

Fixpoint collect_called_funcs (fuel : nat) (closure : Z) (expr : Value)
  : M (list Z) :=
  match fuel with
  | O => out_of_fuel
  | S n =>
      if negb (truthy expr) then ret []
      else if is_type expr TPAIR then
        let! pd := get_pair expr in
        let! head :=
          (if truthy (car pd) && is_type (car pd) TSYMBOL then
             let! name := get_symbol (car pd) in
             let! hit := find_binding n closure name in
             match hit with
             | Some (_, v) =>
                 if truthy v && is_type v TFUNC then ret [get_func v]
                 else ret []
             | None => ret []
             end
           else ret []) in
        let! more := collect_walk (collect_called_funcs n closure) n expr in
        ret (head ++ more)
      else ret []
  end.

(** [JITCompiler::compileFuncData] *)
Fixpoint compileFuncData (fuel : nat) (func : Z) : M Z :=
  match fuel with
  | O => out_of_fuel
  | S n =>
      if func =? 0 then ret 0
      else
        let! fdata := read_func func in
        let! to_compile :=
          collect_called_funcs n (closure_env fdata) (body fdata) in
        (fix each (l : list Z) : M unit :=
           match l with
           | [] => ret tt
           | fd :: l' =>
               (if fd =? 0 then ret tt
                else
                  let! d := read_func fd in
                  if (compiled_code d =? 0) && negb (jit_failed d)
                     && negb (fd =? func)
                  then catch_all (compileFuncData n fd ;;; ret tt)
                                 (fun _ => ret tt)
                  else ret tt) ;;;
               each l'
           end) to_compile ;;;
        let fail : M Z := set_jit_failed func true ;;; ret 0 in
        catch_all
          (let! ptr := compileFunctionFromBuilder (build_func_ir n func) in
           if ptr =? 0 then fail
           else set_compiled_code func ptr ;;; ret ptr)
          (fun _ => fail)
  end.

End Emit.

(* ===================================================================== *)
(** ** Execution of compiled code and its runtime helpers ([jit.hpp]) *)
(* ===================================================================== *)

Module Native.
Export Emit.
Import IR.

(** [*last = make_pair(v, Value()); last = &pd->cdr;] with [last] pointing
    at a local [head] or at the [cdr] member of the previous cell. *)
Inductive Slot : Set := SlotHead | SlotCdr (p : Z).

Definition push_back (head : Value) (last : Slot) (v : Value)
  : M (Value * Slot) :=
  let! cell := make_pair v nil in
  match last with
  | SlotHead => ret (cell, SlotCdr (get_payload_raw cell))
  | SlotCdr p =>
      let! h := gets pairs in
      let! pd := from_option (h !! p) in
      modify (with_pairs (insert p (mkPair (car pd) cell))) ;;;
      ret (head, SlotCdr (get_payload_raw cell))
  end.

(** [VDLISP__jit_lookup_number] *)
Definition jit_lookup_number (fuel : nat) (env_ptr : Z) (name : string)
  : M double :=
  let! active := gets jit_active_state in
  let! g := gets global in
  let e := if env_ptr =? 0 then (if active then g else 0) else env_ptr in
  if e =? 0 then ret quiet_NaN
  else
    let! hit := find_binding fuel e name in
    match hit with
    | Some (_, v) =>
        if negb (truthy v) || negb (is_type v TNUMBER) then ret quiet_NaN
        else ret (get_number v)
    | None => ret quiet_NaN
    end.

Section Run.
(** [State::call], entered again through the bridge. *)
Variable call : Value -> Value -> M Value.

(** [VDLISP__call_from_jit] *)
Definition call_from_jit (funcdata_ptr : Z) (args : list double) : M double :=
  catch_all
    (let! active := gets jit_active_state in
     if negb active then ret quiet_NaN
     else if funcdata_ptr =? 0 then ret quiet_NaN
     else
       let fptr := set_payload_raw kTagFunc funcdata_ptr in
       let! '(head, _) :=
         (fix build (l : list double) (head : Value) (last : Slot)
            : M (Value * Slot) :=
            match l with
            | [] => ret (head, last)
            | a :: l' =>
                let! '(head', last') := push_back head last (make_number a) in
                build l' head' last'
            end) args nil SlotHead in
       let! res := call fptr head in
       if negb (truthy res) || negb (is_type res TNUMBER) then ret quiet_NaN
       else ret (get_number res))
    (fun _ => ret quiet_NaN).

(** The stack slots of one activation: name -> stored double. *)
Definition Frame : Type := gmap string double.

(** One activation of a compiled function on the buffer [args].  A load
    past the end of [args], or from a slot never stored to, is [Fault].
    The value of a [while] whose body never ran is taken to be [0.0]. *)
Fixpoint run_instr (fuel : nat) (args : list double) (fr : Frame)
    (i : Instr) : M (double * Frame) :=
  match fuel with
  | O => out_of_fuel
  | S n =>
      match i with
      | ConstantFP d => ret (d, fr)
      | LoadArg k =>
          if k <? 0 then fault
          else let! d := from_option (args !! Z.to_nat k) in ret (d, fr)
      | LoadLocal name =>
          let! d := from_option (fr !! name) in ret (d, fr)
      | CallLookupNumber env_ptr name =>
          let! d := jit_lookup_number n env_ptr name in ret (d, fr)
      | BinaryOp op l r =>
          let! '(a, fr) := run_instr n args fr l in
          let! '(b, fr) := run_instr n args fr r in
          ret (fbin op a b, fr)
      | SelectCmp p l r =>
          let! '(a, fr) := run_instr n args fr l in
          let! '(b, fr) := run_instr n args fr r in
          ret (if fcmp p a b then d1 else d0, fr)
      | CondBlocks clauses => run_cond n args fr clauses
      | WhileBlocks c b => run_while n args fr c b d0
      | LetStores stores b =>
          let! fr := run_stores n args fr stores in
          run_seq n args fr b d0
      | CallNative callee xs =>
          let! '(vals, fr) := run_args n args fr xs in
          let! d := run_function n callee vals in
          ret (d, fr)
      | CallBridge callee xs =>
          let! '(vals, fr) := run_args n args fr xs in
          let! d := call_from_jit callee vals in
          ret (d, fr)
      end
  end
with run_seq (fuel : nat) (args : list double) (fr : Frame)
    (l : list Instr) (last : double) : M (double * Frame) :=
  match fuel with
  | O => out_of_fuel
  | S n =>
      match l with
      | [] => ret (last, fr)
      | x :: l' =>
          let! '(v, fr) := run_instr n args fr x in
          run_seq n args fr l' v
      end
  end
with run_args (fuel : nat) (args : list double) (fr : Frame)
    (l : list Instr) : M (list double * Frame) :=
  match fuel with
  | O => out_of_fuel
  | S n =>
      match l with
      | [] => ret ([], fr)
      | x :: l' =>
          let! '(v, fr) := run_instr n args fr x in
          let! '(vs, fr) := run_args n args fr l' in
          ret (v :: vs, fr)
      end
  end
with run_stores (fuel : nat) (args : list double) (fr : Frame)
    (l : list (string * Instr)) : M Frame :=
  match fuel with
  | O => out_of_fuel
  | S n =>
      match l with
      | [] => ret fr
      | (name, x) :: l' =>
          let! '(v, fr) := run_instr n args fr x in
          run_stores n args (<[name := v]> fr) l'
      end
  end
with run_cond (fuel : nat) (args : list double) (fr : Frame)
    (clauses : list (Instr * list Instr)) : M (double * Frame) :=
  match fuel with
  | O => out_of_fuel
  | S n =>
      match clauses with
      | [] => ret (d0, fr)
      | (test, b) :: more =>
          let! '(condv, fr) := run_instr n args fr test in
          if fcmp ONE condv d0 then run_seq n args fr b d0
          else run_cond n args fr more
      end
  end
with run_while (fuel : nat) (args : list double) (fr : Frame)
    (c : Instr) (b : list Instr) (last : double) : M (double * Frame) :=
  match fuel with
  | O => out_of_fuel
  | S n =>
      let! '(condv, fr) := run_instr n args fr c in
      if fcmp ONE condv d0 then
        let! '(v, fr) := run_seq n args fr b d0 in
        run_while n args fr c b v
      else ret (last, fr)
  end
with run_function (fuel : nat) (fd : Z) (args : list double) : M double :=
  match fuel with
  | O => out_of_fuel
  | S n =>
      let! d := read_func fd in
      let! tbl := gets module_for_fn in
      let! fn := from_option (tbl !! compiled_code d) in
      let! '(v, _) := run_seq n args ∅ (fn_body fn) d0 in
      ret v
  end.

(** The native entry [code] called on [args]. *)
Definition run_entry (fuel : nat) (code : Z) (args : list double) : M double :=
  let! tbl := gets module_for_fn in
  let! fn := from_option (tbl !! code) in
  let! '(v, _) := run_seq fuel args ∅ (fn_body fn) d0 in
  ret v.
End Run.

End Native.

(* ===================================================================== *)
(** ** What the process is given from outside *)
(* ===================================================================== *)

Module World.
Export Native.

(** An expression as the reader of [src/helpers.cpp] delivers it.  The
    character-level scan ([parse_at], [strtod]) is not modelled: a text is
    given with the expressions it reads to. *)
Inductive Sexp : Set :=
| SNil
| SNum (d : double)
| SStr (s : string)
| SSym (s : string)
| SCons (a d : Sexp).

Fixpoint slist (l : list Sexp) : Sexp :=
  match l with
  | [] => SNil
  | x :: l' => SCons x (slist l')
  end.

(** The environment of the process: the reader's result on a text, the
    file system as [require] and [main] see it, and the text that
    [operator<<] prints for a double. *)
Record Host : Type := mkHost
  { read_one : string -> Error + Sexp;          (* [parse_at], first expression *)
    read_all : string -> Error + list Sexp;     (* the loop of [parse_all] *)
    fs_exists : string -> bool;                 (* [std::filesystem::exists] *)
    fs_canonical : string -> option string;     (* [canonical], [None] on error *)
    fs_absolute : string -> string;             (* [absolute] *)
    fs_open : string -> option string;          (* [ifstream]: the file's text *)
    fmt_double : double -> string;              (* [ostream << double] *)
    stdin_lines : list string }.                (* what [readline] returns *)

(** The values the reader allocates for one expression of file [name]
    (line and column are recorded as 1:1). *)
Fixpoint intern_sexp (name : string) (x : Sexp) : M Value :=
  match x with
  | SNil => ret nil
  | SNum d =>
      let v := make_number d in
      set_source_loc v name 1 1 ;;; ret v
  | SStr str =>
      let! v := make_string str in
      set_source_loc v name 1 1 ;;; ret v
  | SSym str =>
      let! v := make_symbol str in
      set_source_loc v name 1 1 ;;; ret v
  | SCons a d =>
      let! va := intern_sexp name a in
      let! cell := make_pair va nil in
      set_source_loc cell name 1 1 ;;;
      let! vd := intern_sexp name d in
      pair_set_cdr cell vd ;;;
      ret cell
  end.

(** [State::parse] and [State::parse_all] ([sources] is not modelled). *)
Definition parse (h : Host) (src name : string) : M Value :=
  match read_one h src with
  | inl e => throw e
  | inr x => intern_sexp name x
  end.

Definition parse_all (h : Host) (src name : string) : M Value :=
  match read_all h src with
  | inl e => throw e
  | inr xs =>
      let! '(head, _) :=
        (fix each (l : list Sexp) (head : Value) (last : Slot)
           : M (Value * Slot) :=
           match l with
           | [] => ret (head, last)
           | x :: l' =>
               let! e := intern_sexp name x in
               let! '(head', last') := push_back head last e in
               each l' head' last'
           end) xs nil SlotHead in
      ret head
  end.

End World.

(* ===================================================================== *)
(** ** Builtins ([src/core.cpp], [src/helpers.cpp], [src/nanbox.cpp]) *)
(* ===================================================================== *)

Module Core.
Export World.

(** The functions whose addresses are stored in [TCFUNC] values ... *)
Inductive CFunc : Set :=
| builtin_print | builtin_add | builtin_sub | builtin_mul | builtin_div
| builtin_cmp_lt | builtin_cmp_gt | builtin_cmp_le | builtin_cmp_ge
| builtin_list | builtin_type | builtin_parse | builtin_error
| builtin_cons | builtin_car | builtin_cdr | builtin_setcar | builtin_setcdr
| builtin_eq | builtin_exit | builtin_require.

(** ... and in [TPRIM] values. *)
Inductive Prim : Set :=
| prim_quote | prim_unquote | prim_quasiquote | prim_set | prim_fn
| prim_macro | prim_let | prim_while | prim_cond | prim_apply.

Definition cfunc_table : list (string * CFunc) :=
  [ ("print", builtin_print); ("+", builtin_add); ("-", builtin_sub);
    ("*", builtin_mul); ("/", builtin_div); ("<", builtin_cmp_lt);
    (">", builtin_cmp_gt); ("<=", builtin_cmp_le); (">=", builtin_cmp_ge);
    ("list", builtin_list); ("type", builtin_type); ("parse", builtin_parse);
    ("error", builtin_error); ("cons", builtin_cons); ("car", builtin_car);
    ("cdr", builtin_cdr); ("setcar", builtin_setcar);
    ("setcdr", builtin_setcdr); ("=", builtin_eq); ("exit", builtin_exit);
    ("require", builtin_require) ]%string.

Definition prim_table : list (string * Prim) :=
  [ ("quote", prim_quote); ("unquote", prim_unquote);
    ("quasiquote", prim_quasiquote); ("set", prim_set); ("fn", prim_fn);
    ("macro", prim_macro); ("let", prim_let); ("while", prim_while);
    ("cond", prim_cond); ("apply", prim_apply) ]%string.

Definition CFunc_eqb (a b : CFunc) : bool :=
  match a, b with
  | builtin_print, builtin_print | builtin_add, builtin_add
  | builtin_sub, builtin_sub | builtin_mul, builtin_mul
  | builtin_div, builtin_div | builtin_cmp_lt, builtin_cmp_lt
  | builtin_cmp_gt, builtin_cmp_gt | builtin_cmp_le, builtin_cmp_le
  | builtin_cmp_ge, builtin_cmp_ge | builtin_list, builtin_list
  | builtin_type, builtin_type | builtin_parse, builtin_parse
  | builtin_error, builtin_error | builtin_cons, builtin_cons
  | builtin_car, builtin_car | builtin_cdr, builtin_cdr
  | builtin_setcar, builtin_setcar | builtin_setcdr, builtin_setcdr
  | builtin_eq, builtin_eq | builtin_exit, builtin_exit
  | builtin_require, builtin_require => true
  | _, _ => false
  end.

Definition Prim_eqb (a b : Prim) : bool :=
  match a, b with
  | prim_quote, prim_quote | prim_unquote, prim_unquote
  | prim_quasiquote, prim_quasiquote | prim_set, prim_set
  | prim_fn, prim_fn | prim_macro, prim_macro | prim_let, prim_let
  | prim_while, prim_while | prim_cond, prim_cond
  | prim_apply, prim_apply => true
  | _, _ => false
  end.

(** Code addresses: the text segment, one slot per function. *)
Fixpoint index_where {A} (p : A -> bool) (l : list A) (i : Z) : option Z :=
  match l with
  | [] => None
  | x :: l' => if p x then Some i else index_where p l' (i + 1)
  end.

Definition cfunc_addr (f : CFunc) : Z :=
  match index_where (fun e => CFunc_eqb (snd e) f) cfunc_table 0 with
  | Some i => 0x401000 + 16 * i
  | None => 0
  end.

Definition prim_addr (f : Prim) : Z :=
  match index_where (fun e => Prim_eqb (snd e) f) prim_table 0 with
  | Some i => 0x402000 + 16 * i
  | None => 0
  end.

Definition make_cfunc (f : CFunc) : Value := set_payload_raw kTagCFunc (cfunc_addr f).
Definition make_prim (f : Prim) : Value := set_payload_raw kTagPrim (prim_addr f).

(** [get_cfunc] / [get_prim]: the function at the stored address; a call
    through any other address is a [Fault]. *)
Definition get_cfunc (v : Value) : M CFunc :=
  from_option
    (snd <$> List.find (fun e => cfunc_addr (snd e) =? get_payload_raw v)
               cfunc_table).
Definition get_prim (v : Value) : M Prim :=
  from_option
    (snd <$> List.find (fun e => prim_addr (snd e) =? get_payload_raw v)
               prim_table).

Definition register_builtin (name : string) (f : CFunc) : M unit :=
  bind_global name (make_cfunc f).
Definition register_prim (name : string) (f : Prim) : M unit :=
  bind_global name (make_prim f).

(** *** Names and printed forms ([src/nanbox.cpp]) *)

(** Is [compiled_code] set in the record behind a [TFUNC] word? *)
Definition func_is_compiled (v : Value) : M bool :=
  let fd := get_payload_raw v in
  if fd =? 0 then ret false
  else let! d := read_func fd in ret (negb (compiled_code d =? 0)).

Definition Value_type_name (v : Value) : M string :=
  match get_type v with
  | TNIL => ret "nil"
  | TPAIR => ret "pair"
  | TNUMBER => ret "number"
  | TSTRING => ret "string"
  | TSYMBOL => ret "symbol"
  | TFUNC =>
      let! c := func_is_compiled v in
      ret (if c then "jit_func" else "function")
  | TMACRO => ret "macro"
  | TPRIM => ret "prim"
  | TCFUNC => ret "cfunction"
  end%string.

(** [type_name] of [helpers.hpp] *)
Definition type_name (v : Value) : M string :=
  if negb (truthy v) then ret "nil"%string else Value_type_name v.

Definition require_number (v : Value) (who : string) : M double :=
  if negb (truthy v) || negb (is_type v TNUMBER) then
    let! tn := type_name v in
    runtime_error (who ++ ": expected number, got " ++ tn)
  else ret (get_number v).

Section Repr.
Variable h : Host.

(** [Value::to_repr] *)
Fixpoint to_repr (fuel : nat) (v : Value) : M string :=
  match fuel with
  | O => out_of_fuel
  | S n =>
      let elem (x : Value) : M string :=
        if truthy x then to_repr n x else ret "nil"%string in
      match get_type v with
      | TNUMBER => ret (fmt_double h (get_number v))
      | TSTRING => get_string v
      | TSYMBOL => get_symbol v
      | TPAIR =>
          if get_payload_raw v =? 0 then ret "()"%string
          else
            let! pd := get_pair v in
            let! first := elem (car pd) in
            let! tail :=
              (fix rest (k : nat) (cur : Value) : M string :=
                 match k with
                 | O => out_of_fuel
                 | S k' =>
                     if truthy cur && is_type cur TPAIR then
                       let! cpd := get_pair cur in
                       let! x := elem (car cpd) in
                       let! more := rest k' (cdr cpd) in
                       ret (" " ++ x ++ more)
                     else if truthy cur then
                       let! x := to_repr n cur in ret (" . " ++ x)
                     else ret ""
                 end%string) n (cdr pd) in
            ret ("(" ++ first ++ tail ++ ")")%string
      | TCFUNC => ret "<cfunc>"%string
      | TMACRO => ret "<macro>"%string
      | TPRIM => ret "<prim>"%string
      | TFUNC =>
          let! c := func_is_compiled v in
          ret (if c then "<jit_func>" else "<function>")%string
      | TNIL => ret "<?>"%string
      end
  end.

(** [State::to_string] *)
Definition to_string (fuel : nat) (v : Value) : M string :=
  if negb (truthy v) then ret "nil"%string else to_repr fuel v.
End Repr.

(** [value_equal] *)
Fixpoint value_equal (fuel : nat) (a b : Value) : M bool :=
  match fuel with
  | O => out_of_fuel
  | S n =>
      if Value_eqb a b then ret true
      else if negb (truthy a) || negb (truthy b) then ret false
      else if negb (Type_eqb (get_type a) (get_type b)) then ret false
      else
        match get_type a with
        | TNUMBER => ret (feq (get_number a) (get_number b))
        | TSTRING =>
            let! x := get_string a in
            let! y := get_string b in
            ret (String.eqb x y)
        | TSYMBOL =>
            let! x := get_symbol a in
            let! y := get_symbol b in
            ret (String.eqb x y)
        | TPAIR =>
            let! ap := get_pair a in
            let! bp := get_pair b in
            let! c := value_equal n (car ap) (car bp) in
            if c then value_equal n (cdr ap) (cdr bp) else ret false
        | _ => ret (Value_eqb a b)
        end
  end.

(** The arity test shared by the binary builtins: the condition under
    which they throw. *)
Definition not_two_arguments (args : Value) : M bool :=
  if negb (truthy args) then ret true
  else
    let! t := pair_cdr args in
    if negb (truthy t) then ret true
    else let! tt := pair_cdr t in ret (truthy tt).

Definition arith_binary (args : Value) (op : double -> double -> M double)
    (name : string) : M Value :=
  let! bad := not_two_arguments args in
  if bad then runtime_error (name ++ " requires exactly two arguments")
  else
    let! x := pair_car args in
    let! a := require_number x name in
    let! t := pair_cdr args in
    let! y := pair_car t in
    let! b := require_number y name in
    let! r := op a b in
    ret (make_number r).

Definition compare_binary (fuel : nat) (args : Value)
    (cmp : double -> double -> bool) (name : string) : M Value :=
  let! bad := not_two_arguments args in
  if bad then runtime_error (name ++ " requires exactly two arguments")
  else
    let! x := pair_car args in
    let! a := require_number x name in
    let! t := pair_cdr args in
    let! y := pair_car t in
    let! b := require_number y name in
    if cmp a b then
      let! g := gets global in get_bound fuel "#t" g
    else ret nil.

Definition do_builtin_add (args : Value) : M Value :=
  arith_binary args (fun a b => ret (fadd a b)) "+".
Definition do_builtin_sub (args : Value) : M Value :=
  arith_binary args (fun a b => ret (fsub a b)) "-".
Definition do_builtin_mul (args : Value) : M Value :=
  arith_binary args (fun a b => ret (fmul a b)) "*".
Definition do_builtin_div (args : Value) : M Value :=
  arith_binary args
    (fun a b => if feq b d0 then runtime_error "division by zero"
                else ret (fdiv a b)) "/".

Definition do_builtin_eq (fuel : nat) (args : Value) : M Value :=
  let! bad := not_two_arguments args in
  if bad then runtime_error "= requires exactly two arguments"
  else
    let! a := pair_car args in
    let! t := pair_cdr args in
    let! b := pair_car t in
    let! c := value_equal fuel a b in
    if c then let! g := gets global in get_bound fuel "#t" g
    else ret nil.

Definition do_builtin_type (args : Value) : M Value :=
  let! v := pair_car args in
  let! tn := type_name v in
  make_symbol tn.

Definition do_builtin_cons (args : Value) : M Value :=
  let! a := pair_car args in
  let! t := pair_cdr args in
  let! b := pair_car t in
  make_pair a b.

Definition do_builtin_car (args : Value) : M Value :=
  let! v := pair_car args in
  if negb (truthy v) then ret nil
  else if negb (is_type v TPAIR) then runtime_error "car expects a pair"
  else pair_car v.

Definition do_builtin_cdr (args : Value) : M Value :=
  let! v := pair_car args in
  if negb (truthy v) then ret nil
  else if negb (is_type v TPAIR) then runtime_error "cdr expects a pair"
  else pair_cdr v.

Definition do_builtin_setcar (args : Value) : M Value :=
  let! p := pair_car args in
  let! t := pair_cdr args in
  let! v := pair_car t in
  if negb (truthy p) || negb (is_type p TPAIR)
  then runtime_error "setcar expects a pair"
  else pair_set_car p v ;;; ret v.

Definition do_builtin_setcdr (args : Value) : M Value :=
  let! p := pair_car args in
  let! t := pair_cdr args in
  let! v := pair_car t in
  if negb (truthy p) || negb (is_type p TPAIR)
  then runtime_error "setcdr expects a pair"
  else pair_set_cdr p v ;;; ret v.

Section WithHost.
Variable h : Host.

Definition do_builtin_print (fuel : nat) (args : Value) : M Value :=
  let! '(text, last) :=
    (fix each (k : nat) (cur : Value) (first : bool) (last : Value)
       : M (string * Value) :=
       match k with
       | O => out_of_fuel
       | S k' =>
           if negb (truthy cur) then ret (""%string, last)
           else
             let! el := pair_car cur in
             let! x := to_string h fuel el in
             let! next := pair_cdr cur in
             let! '(more, last') := each k' next false el in
             ret ((if first then "" else " ") ++ x ++ more, last')%string
       end) fuel args true nil in
  modify (with_cout (fun out => out ++ [text])) ;;;
  ret last.

Definition do_builtin_parse (args : Value) : M Value :=
  let! x := (if truthy args then pair_car args else ret nil) in
  if negb (truthy args) || negb (truthy x) || negb (is_type x TSTRING)
  then runtime_error "parse requires a string"
  else let! text := get_string x in parse h text "(string)".

Definition do_builtin_error (fuel : nat) (args : Value) : M Value :=
  let! x := pair_car args in
  let! msg := (if truthy x then to_string h fuel x else ret "error"%string) in
  runtime_error msg.
End WithHost.

(** [clear_closure_env] *)
Definition clear_closure_env (v : Value) : M unit :=
  if negb (truthy v) then ret tt
  else if is_type v TFUNC then
    let! tbl := gets funcs in
    match tbl !! get_func v with
    | Some d =>
        write_func (get_func v)
          (mkFunc (params d) (body d) 0 (call_count d) (num_call_count d)
             (compiled_code d) (jit_failed d))
    | None => if get_func v =? 0 then ret tt else fault
    end
  else if is_type v TMACRO then
    let! tbl := gets macros in
    match tbl !! get_macro v with
    | Some d =>
        modify (with_macros (insert (get_macro v)
                               (mkMacro (mparams d) (mbody d) 0)))
    | None => if get_macro v =? 0 then ret tt else fault
    end
  else ret tt.

Fixpoint for_each {A} (f : A -> M unit) (l : list A) : M unit :=
  match l with
  | [] => ret tt
  | x :: l' => f x ;;; for_each f l'
  end.

(** [State::shutdown_and_purge_pools] (the releases are reference
    counting): first the closure environments of the functions and macros
    reachable from the intern table and the global chain are nulled and
    the maps of the chain emptied, then the containers are cleared. *)
Definition shutdown_release (fuel : nat) : M unit :=
  let! tbl := gets symbol_intern in
  for_each (fun kv => clear_closure_env (snd kv)) (map_to_list tbl) ;;;
  modify (with_symbol_intern (fmap (fun _ => nil))) ;;;
  let! g := gets global in
  (fix chain (k : nat) (e : Z) : M unit :=
     match k with
     | O => out_of_fuel
     | S k' =>
         if e =? 0 then ret tt
         else
           let! d := read_env e in
           for_each (fun kv => clear_closure_env (snd kv))
             (map_to_list (env_map d)) ;;;
           write_env e (mkEnv ∅ 0) ;;;
           chain k' (env_parent d)
     end) fuel g.

Definition shutdown_clear (s : State) : State :=
  with_current_expr (fun _ => nil)
    (with_symbol_intern (fun _ => ∅)
       (with_src_map (fun _ => ∅)
          (with_src_call_chain_map (fun _ => ∅)
             (with_loaded_modules (fun _ => ∅)
                (with_global (fun _ => 0) s))))).

Definition shutdown_and_purge_pools (fuel : nat) : M unit :=
  shutdown_release fuel ;;; modify shutdown_clear.

(** [(int)d] for a double [d]: truncation toward zero. *)
Definition double_to_int (d : double) : Z :=
  match Prim2SF (bits_to_double d) with
  | S754_finite s m e =>
      let v := if 0 <=? e then Zpos m * 2 ^ e else Zpos m / 2 ^ (- e) in
      if s then - v else v
  | _ => 0
  end.

Definition do_builtin_exit (fuel : nat) (args : Value) : M Value :=
  let! x := pair_car args in
  let! code := (if truthy x then
                  let! d := require_number x "exit" in ret (double_to_int d)
                else ret 0) in
  shutdown_release fuel ;;;
  (fun s => (Exit code, shutdown_clear s)).

End Core.

(* ===================================================================== *)
(** ** The evaluator ([src/vdlisp.cpp], [src/core.cpp], [src/require.hpp]) *)
(* ===================================================================== *)

Module Interp.
Export Core.

(** The part of [s] up to and including its last ['/'], if it has one
    ([p.substr(0, p.find_last_of('/') + 1)]). *)
Fixpoint dir_prefix (s : string) : option string :=
  match s with
  | EmptyString => None
  | String c rest =>
      match dir_prefix rest with
      | Some p => Some (String c p)
      | None => if Ascii.eqb c "/"%char then Some (String c EmptyString) else None
      end
  end.

Definition starts_with_slash (s : string) : bool :=
  match s with
  | String c _ => Ascii.eqb c "/"%char
  | EmptyString => false
  end.

Definition string_empty (s : string) : bool :=
  match s with EmptyString => true | _ => false end.

Fixpoint join_comma (l : list string) : string :=
  match l with
  | [] => ""
  | [x] => x
  | x :: l' => x ++ ", " ++ join_comma l'
  end.

(** [with_call_chain] *)
Definition with_call_chain (have_call_loc : bool) (call_loc : SourceLoc)
    (call_chain_entry : list SourceLoc) (fn : M Value) : M Value :=
  catch_all fn
    (fun e =>
       match e with
       | ParseError loc w chain =>
           if have_call_loc
           then throw (ParseError loc w (call_chain_entry ++ chain))
           else throw e
       | RuntimeError w =>
           if have_call_loc
           then throw (ParseError call_loc w call_chain_entry)
           else throw e
       end).

(** The argument scan at the head of [State::call]: are all actuals
    numbers, and their doubles up to the first that is not. *)
Fixpoint scan_numeric (fuel : nat) (a : Value) (darr : list double)
  : M (bool * list double) :=
  match fuel with
  | O => out_of_fuel
  | S n =>
      if negb (truthy a) then ret (true, darr)
      else
        let! apd := get_pair a in
        let av := car apd in
        if negb (truthy av) || negb (is_type av TNUMBER) then ret (false, darr)
        else scan_numeric n (cdr apd) (darr ++ [get_number av])
  end.

(** [fd->num_call_count++] on a [size_t]. *)
Definition incr_num_call_count (fd : Z) : M unit :=
  let! d := read_func fd in
  write_func fd (mkFunc (params d) (body d) (closure_env d) (call_count d)
                   ((num_call_count d + 1) mod 2 ^ 64)
                   (compiled_code d) (jit_failed d)).

(** The hot-path heuristic of [State::call], run on a numeric call after
    the counter was incremented. *)
Definition maybe_compile (fuel : nat) (fd : Z) : M unit :=
  let! d := read_func fd in
  if (3 <? num_call_count d) && (compiled_code d =? 0) && negb (jit_failed d)
  then
    catch_all
      (let! c := compileFuncData fuel fd in
       if negb (c =? 0) then set_compiled_code fd c
       else set_jit_failed fd true)
      (fun _ => set_jit_failed fd true)
  else ret tt.

(** The head of [State::call] for a user function: the scan of the
    actuals, the counter and the compilation trigger. *)
Definition call_prologue (fuel : nat) (fd : Z) (args : Value)
  : M (bool * list double) :=
  let! '(numeric, darr) := scan_numeric fuel args [] in
  (if numeric then incr_num_call_count fd ;;; maybe_compile fuel fd
   else ret tt) ;;;
  ret (numeric, darr).

Section Interp.
Variable h : Host.

Section Step.
(** [State::eval] and [State::call] one level down, and the bound on
    the loops of this level. *)
Variable eval : Value -> Z -> M Value.
Variable call : Value -> Value -> Z -> M Value.
Variable fuel : nat.

(** [State::do_list] *)
Fixpoint do_list_from (k : nat) (walk : Value) (env : Z) (res : Value)
  : M Value :=
  match k with
  | O => out_of_fuel
  | S k' =>
      if negb (truthy walk) then ret res
      else
        let! pd := get_pair walk in
        let! r := eval (car pd) env in
        do_list_from k' (cdr pd) env r
  end.

Definition do_list (body : Value) (env : Z) : M Value :=
  do_list_from fuel body env nil.

(** [eval_args] *)
Fixpoint eval_args_from (k : nat) (a : Value) (env : Z) (head : Value)
    (last : Slot) : M Value :=
  match k with
  | O => out_of_fuel
  | S k' =>
      if negb (truthy a) then ret head
      else
        let! apd := get_pair a in
        let! av := eval (car apd) env in
        let! '(head', last') := push_back head last av in
        eval_args_from k' (cdr apd) env head' last'
  end.

Definition eval_args (list : Value) (env : Z) : M Value :=
  eval_args_from fuel list env nil SlotHead.

(** The interpreter path of [State::call]: a fresh environment under
    the closure environment, parameters bound, the body run. *)
Definition interpret_body (fd : Z) (args : Value) : M Value :=
  let! d := read_func fd in
  let! g := gets global in
  let! e := make_env (if negb (closure_env d =? 0) then closure_env d else g) in
  bind_params_to_env fuel e (params d) args false ;;;
  do_list (body d) e.

(** What [State::call] does with the outcome of the native entry:
    [res] is the double it returned ([quiet_NaN] after a throw) and
    [jit_threw] tells whether it threw. *)
Definition after_native (fd : Z) (args : Value) (res : double)
    (jit_threw : bool) : M Value :=
  modify (with_jit_active_state (fun _ => false)) ;;;
  if isnan res then
    (if jit_threw then
       set_compiled_code fd 0 ;;; set_jit_failed fd true
     else ret tt) ;;;
    interpret_body fd args
  else ret (make_number res).

(** [try { res = fptr(...); } catch (...) { ... }] and what follows. *)
Definition call_native (fd : Z) (args : Value) (darr : list double)
  : M Value :=
  let! d := read_func fd in
  modify (with_jit_active_state (fun _ => true)) ;;;
  fun s =>
    match run_entry (fun f a => call f a 0) fuel (compiled_code d) darr s with
    | (Ok res, s') => after_native fd args res false s'
    | (Throw _, s') => after_native fd args quiet_NaN true s'
    | (Fault, s') => (Fault, s')
    | (OutOfFuel, s') => (OutOfFuel, s')
    | (Exit c, s') => (Exit c, s')
    end.

(** The fallback path, annotated with the call site. *)
Definition call_interpreted (fd : Z) (args : Value) : M Value :=
  let! d := read_func fd in
  let! g := gets global in
  let! e := make_env (if negb (closure_env d =? 0) then closure_env d else g) in
  bind_params_to_env fuel e (params d) args false ;;;
  let! cur := gets current_expr in
  let! loc := get_source_loc cur in
  match loc with
  | Some l =>
      let call_loc := mkLoc (file l) (line l) (col l) "fn" in
      with_call_chain true call_loc [call_loc] (do_list (body d) e)
  | None =>
      with_call_chain false (mkLoc "" 0 0 "") [] (do_list (body d) e)
  end.

(** *** [require] ([src/require.hpp]) *)

Definition require_candidates (name : string) : M (list string) :=
  if negb (string_empty name) && negb (starts_with_slash name) then
    let! cur := gets current_expr in
    let! loc := (if truthy cur then get_source_loc cur else ret None) in
    let relative :=
      match loc with
      | Some l =>
          if negb (string_empty (file l)) then
            match dir_prefix (file l) with
            | Some p => [String.append p name]
            | None => []
            end
          else []
      | None => []
      end in
    ret (relative ++ [name])
  else ret [name].

Definition require_key (cand : string) : string :=
  if fs_exists h cand then
    match fs_canonical h cand with
    | Some can => can
    | None => fs_absolute h cand
    end
  else cand.

Definition require_open (cand key : string) : option string :=
  if negb (string_empty key) && fs_exists h key then fs_open h key
  else fs_open h cand.

(** The body of the candidate loop once the file opened. *)
Definition require_load (key text : string) : M Value :=
  modify (with_loaded_modules (insert key nil)) ;;;
  let! e := parse_all h text key in
  let! g := gets global in
  let! r := (if truthy e then do_list e g else ret nil) in
  modify (with_loaded_modules (insert key r)) ;;;
  ret r.

Fixpoint require_each (name : string) (cands tried : list string)
  : M Value :=
  match cands with
  | [] =>
      runtime_error ("could not open file: " ++ name ++ " (tried: "
                       ++ join_comma tried ++ ")")
  | cand :: rest =>
      let key := require_key cand in
      let! cache := gets loaded_modules in
      match cache !! key with
      | Some v => ret v
      | None =>
          match require_open cand key with
          | None => require_each name rest (tried ++ [key])
          | Some text => require_load key text
          end
      end
  end.

Definition do_builtin_require (args : Value) : M Value :=
  let! x := (if truthy args then pair_car args else ret nil) in
  if negb (truthy args) || negb (truthy x) || negb (is_type x TSTRING)
  then runtime_error "require requires a string"
  else
    let! name := get_string x in
    let! cands := require_candidates name in
    require_each name cands [].

(** The call through a [CFunc] pointer. *)
Definition call_builtin (f : CFunc) (args : Value) : M Value :=
  match f with
  | builtin_print => do_builtin_print h fuel args
  | builtin_add => do_builtin_add args
  | builtin_sub => do_builtin_sub args
  | builtin_mul => do_builtin_mul args
  | builtin_div => do_builtin_div args
  | builtin_cmp_lt => compare_binary fuel args flt "<"
  | builtin_cmp_gt => compare_binary fuel args fgt ">"
  | builtin_cmp_le => compare_binary fuel args fle "<="
  | builtin_cmp_ge => compare_binary fuel args fge ">="
  | builtin_list => ret args
  | builtin_type => do_builtin_type args
  | builtin_parse => do_builtin_parse h args
  | builtin_error => do_builtin_error h fuel args
  | builtin_cons => do_builtin_cons args
  | builtin_car => do_builtin_car args
  | builtin_cdr => do_builtin_cdr args
  | builtin_setcar => do_builtin_setcar args
  | builtin_setcdr => do_builtin_setcdr args
  | builtin_eq => do_builtin_eq fuel args
  | builtin_exit => do_builtin_exit fuel args
  | builtin_require => do_builtin_require args
  end.

(** [State::call] *)
Definition call_step (fn args : Value) (env : Z) : M Value :=
  if negb (truthy fn) then runtime_error "attempt to call nil"
  else if is_type fn TCFUNC then
    let! f := get_cfunc fn in call_builtin f args
  else if is_type fn TFUNC then
    let fd := get_func fn in
    let! '(numeric, darr) := call_prologue fuel fd args in
    let! d := read_func fd in
    if negb (fd =? 0) && negb (compiled_code d =? 0) && numeric
    then call_native fd args darr
    else call_interpreted fd args
  else runtime_error "not a function".

(** *** The primitives ([register_core]) *)

Fixpoint qq_expand (k : nat) (expr : Value) (depth : Z) (env : Z)
  : M Value :=
  match k with
  | O => out_of_fuel
  | S k' =>
      if negb (truthy expr) then ret nil
      else if is_pair expr then
        let! a := pair_car expr in
        let! d := pair_cdr expr in
        let! unq := is_symbol a "unquote" in
        if unq then
          if depth =? 1 then
            if truthy d then let! x := pair_car d in eval x env
            else ret nil
          else
            let! d' := qq_expand k' d (depth - 1) env in make_pair a d'
        else
          let! qq := is_symbol a "quasiquote" in
          if qq then
            let! d' := qq_expand k' d (depth + 1) env in make_pair a d'
          else
            let! a' := qq_expand k' a depth env in
            let! d' := qq_expand k' d depth env in
            make_pair a' d'
      else ret expr
  end.

(** The binding loop of [let]. *)
Fixpoint let_bindings (k : nat) (vars : Value) (e : Z) : M unit :=
  match k with
  | O => out_of_fuel
  | S k' =>
      if negb (truthy vars) then ret tt
      else
        let! sym := pair_car vars in
        let! vars1 := pair_cdr vars in
        let! valexpr := pair_car vars1 in
        let! val := eval valexpr e in
        bind_ sym val e ;;;
        let! vars2 := pair_cdr vars1 in
        let_bindings k' vars2 e
  end.

Fixpoint while_loop (k : nat) (cond body : Value) (env : Z) (res : Value)
  : M Value :=
  match k with
  | O => out_of_fuel
  | S k' =>
      let! t := eval cond env in
      if truthy t then
        let! r := do_list body env in
        while_loop k' cond body env r
      else ret res
  end.

Fixpoint cond_clauses (k : nat) (clauses : Value) (env : Z) : M Value :=
  match k with
  | O => out_of_fuel
  | S k' =>
      if negb (truthy clauses) then ret make_nil
      else
        let! clause := pair_car clauses in
        if negb (truthy clause) then
          let! next := pair_cdr clauses in cond_clauses k' next env
        else
          let! test := pair_car clause in
          let! body := pair_cdr clause in
          let! tval := eval test env in
          if truthy tval then do_list body env
          else
            let! next := pair_cdr clauses in cond_clauses k' next env
  end.

Definition call_prim (p : Prim) (args : Value) (env : Z) : M Value :=
  match p with
  | prim_quote => pair_car args
  | prim_unquote =>
      let! x := pair_car args in
      if truthy x then eval x env else ret nil
  | prim_quasiquote =>
      let! x := pair_car args in qq_expand fuel x 1 env
  | prim_set =>
      let! sym := pair_car args in
      let! t := pair_cdr args in
      let! valexpr := pair_car t in
      let! val := eval valexpr env in
      set_ fuel sym val env
  | prim_fn =>
      let! ps := pair_car args in
      let! bd := pair_cdr args in
      make_function ps bd env
  | prim_macro =>
      let! ps := pair_car args in
      let! bd := pair_cdr args in
      make_macro ps bd env
  | prim_let =>
      let! vars := pair_car args in
      let! e := make_env env in
      let_bindings fuel vars e ;;;
      let! bd := pair_cdr args in
      do_list bd e
  | prim_while =>
      let! c := pair_car args in
      let! bd := pair_cdr args in
      while_loop fuel c bd env nil
  | prim_cond => cond_clauses fuel args env
  | prim_apply =>
      let! fnexpr := pair_car args in
      if negb (truthy fnexpr) then runtime_error "apply requires a function"
      else
        let! t := pair_cdr args in
        let! listexpr := pair_car t in
        let! fn := eval fnexpr env in
        let! lst := eval listexpr env in
        call fn lst env
  end.

(** The annotation of a macro expansion ([propagate]). *)
Fixpoint propagate (k : nat) (call_loc : SourceLoc)
    (entry : list SourceLoc) (v : Value) : M unit :=
  match k with
  | O => out_of_fuel
  | S k' =>
      if negb (truthy v) then ret tt
      else
        set_source_loc v (file call_loc) (line call_loc) (col call_loc) ;;;
        let! chains := gets src_call_chain_map in
        let new_chain :=
          entry ++ default [] (chains !! identity_key v) in
        modify (with_src_call_chain_map (insert (identity_key v) new_chain)) ;;;
        if is_pair v then
          let! a := pair_car v in
          propagate k' call_loc entry a ;;;
          let! d := pair_cdr v in
          propagate k' call_loc entry d
        else ret tt
  end.

(** The macro case of [State::eval]; [prev] is what [current_expr]
    held on entry ([ctx.commit()] precedes the final [eval], so the
    restore runs on every exit of it). *)
Definition eval_macro (expr fn : Value) (a d : Value) (env : Z)
    (prev : Value) : M Value :=
  let! md := read_macro (get_macro fn) in
  let! e := make_env (mclosure_env md) in
  bind_params_to_env fuel e (mparams md) d true ;;;
  let! cur := gets current_expr in
  let! loc1 := get_source_loc cur in
  let! loc := (match loc1 with
               | Some l => ret (Some l)
               | None => get_source_loc expr
               end) in
  let! '(have_call_loc, call_loc, entry) :=
    match loc with
    | None => ret (false, mkLoc "" 0 0 "", [])
    | Some l =>
        let! lbl :=
          (if truthy a && is_type a TSYMBOL then
             let! name := get_symbol a in ret (String.append "macro " name)
           else ret "macro") in
        let call_loc := mkLoc (file l) (line l) (col l) lbl in
        let! def := (if truthy (mbody md) then get_source_loc (mbody md)
                     else ret None) in
        let entry :=
          match def with
          | Some dl => [call_loc; mkLoc (file dl) (line dl) (col dl) "macro-def"]
          | None => [call_loc]
          end in
        modify (with_src_call_chain_map (insert (identity_key expr) entry)) ;;;
        ret (true, call_loc, entry)
    end in
  let! res := with_call_chain have_call_loc call_loc entry
                (do_list (mbody md) e) in
  (if truthy res && have_call_loc then propagate fuel call_loc entry res
   else ret tt) ;;;
  finally (eval res env) (with_current_expr (fun _ => prev)).

(** [State::eval] *)
Definition eval_step (expr : Value) (env : Z) : M Value :=
  let! prev := gets current_expr in
  modify (with_current_expr (fun _ => expr)) ;;;
  let commit : M unit := modify (with_current_expr (fun _ => prev)) in
  if negb (truthy expr) then ret nil
  else
    let! g := gets global in
    let env := if env =? 0 then g else env in
    match get_type expr with
    | TSYMBOL =>
        let! key := get_symbol expr in
        let! hit := find_binding fuel env key in
        match hit with
        | Some (_, v) => commit ;;; ret v
        | None =>
            let! sl := get_source_loc expr in
            match sl with
            | Some l => throw (ParseError l ("unbound symbol: " ++ key) [])
            | None => runtime_error ("unbound symbol: " ++ key)
            end
        end
    | TPAIR =>
        let! pd := get_pair expr in
        let! fn := eval (car pd) env in
        if negb (truthy fn) then runtime_error "attempt to call nil"
        else if is_type fn TPRIM then
          let! p := get_prim fn in
          let! res := call_prim p (cdr pd) env in
          commit ;;; ret res
        else if is_type fn TMACRO then
          eval_macro expr fn (car pd) (cdr pd) env prev
        else
          let! args := eval_args (cdr pd) env in
          let! res := call fn args env in
          commit ;;; ret res
    | _ => commit ;;; ret expr
    end.
End Step.

Fixpoint eval (fuel : nat) (expr : Value) (env : Z) : M Value :=
  match fuel with
  | O => out_of_fuel
  | S n => eval_step (eval n) (call n) n expr env
  end
with call (fuel : nat) (fn args : Value) (env : Z) : M Value :=
  match fuel with
  | O => out_of_fuel
  | S n => call_step (eval n) (call n) n fn args env
  end.

End Interp.

End Interp.

(* ===================================================================== *)
(** ** Process start ([State::State], [src/main.cpp]) *)
(* ===================================================================== *)

Module Startup.
Export Interp.

(** Memory before [State::State] runs: nothing allocated. *)
Definition empty_state : State :=
  mkState ∅ ∅ ∅ ∅ ∅ 0x10000 0 ∅ nil ∅ ∅ ∅ false ∅ [].

(** [register_core] *)
Definition register_core : M unit :=
  for_each (fun e => register_builtin (fst e) (snd e)) cfunc_table ;;;
  for_each (fun e => register_prim (fst e) (snd e)) prim_table.

(** [State::State()] *)
Definition State_ctor : M unit :=
  let! g := make_env 0 in
  modify (with_global (fun _ => g)) ;;;
  register_core ;;;
  let! t := make_symbol "#t" in
  bind_global "#t" t.

(** [make_string_list(It b, It e)] *)
Fixpoint make_string_list_from (l : list string) (head : Value) (last : Slot)
  : M Value :=
  match l with
  | [] => ret head
  | b :: l' =>
      let! sv := make_string b in
      let! '(head', last') := push_back head last sv in
      make_string_list_from l' head' last'
  end.

(** [make_string_list(argc, argv, start)]: the range [argv + start] to
    [argv + argc]; [argv] is given as the list of its [argc] strings. *)
Definition make_string_list (argv : list string) (start : nat) : M Value :=
  if (length argv <? start)%nat then fault
  else make_string_list_from (skipn start argv) nil SlotHead.

(** The statement of [main] that binds [argv]. *)
Definition bind_argv (argv : list string) : M unit :=
  let! l := make_string_list argv 1 in
  bind_global "argv" l.

Section Main.
Variable h : Host.

Definition autoload (fuel : nat) : M unit :=
  catch_all
    (let langfile := "scripts/lang_basics.lisp"%string in
     if fs_exists h langfile then
       match fs_open h langfile with
       | Some text =>
           let! le := parse_all h text langfile in
           if truthy le then
             let! g := gets global in
             do_list (eval h fuel) fuel le g ;;; ret tt
           else ret tt
       | None => ret tt
       end
     else ret tt)
    (fun _ => ret tt).

(** One iteration of [repl] per line read (diagnostics on [std::cerr]
    are not modelled). *)
Fixpoint repl (fuel : nat) (lines : list string) : M unit :=
  match lines with
  | [] => ret tt
  | ln :: rest =>
      (if string_empty ln then ret tt
       else
         catch_all
           (let! e := parse h ln "(string)" in
            if negb (truthy e) then ret tt
            else
              let! g := gets global in
              let! r := eval h fuel e g in
              let! text := to_string h fuel r in
              modify (with_cout (fun out => out ++ [text])))
           (fun _ => ret tt)) ;;;
      repl fuel rest
  end.

Definition run_script (fuel : nat) (path : string) : M Z :=
  catch_all
    (match fs_open h path with
     | None => ret 1
     | Some text =>
         let! e := parse_all h text path in
         if truthy e then
           let! g := gets global in
           let! r := do_list (eval h fuel) fuel e g in
           let! out := to_string h fuel r in
           modify (with_cout (fun o => o ++ [out])) ;;;
           ret 0
         else ret 0
     end)
    (fun _ => ret 1).

(** [main]; the value is the exit status. *)
Definition main (fuel : nat) (argv : list string) : M Z :=
  let! probe := alloc in
  if negb (fits_payload probe) then ret 1
  else
    let! code :=
      (State_ctor ;;;
       bind_argv argv ;;;
       autoload fuel ;;;
       match argv with
       | _ :: path :: _ => run_script fuel path
       | _ => repl fuel (stdin_lines h) ;;; ret 0
       end) in
    shutdown_and_purge_pools fuel ;;;
    ret code.
End Main.

(** *** Building programs for the examples below *)

(** A host with no files, reading nothing, printing every double as ["#"]. *)
Definition bare_host : Host :=
  mkHost (fun _ => inr SNil) (fun _ => inr []) (fun _ => false)
    (fun _ => None) (fun p => p) (fun _ => None) (fun _ => "#"%string) [].

(** The state after [State::State()]. *)
Definition initial_state : State := snd (State_ctor empty_state).

(** Read the expressions [xs] (as file [name]) and run them in the global
    environment, as [run_script] does with a file's text. *)
Definition run_program (h : Host) (fuel : nat) (name : string)
    (xs : list Sexp) : M Value :=
  let! e := parse_all (mkHost (read_one h) (fun _ => inr xs) (fs_exists h)
                         (fs_canonical h) (fs_absolute h) (fs_open h)
                         (fmt_double h) (stdin_lines h)) "" name in
  let! g := gets global in
  do_list (eval h fuel) fuel e g.

Definition num (f : float) : Sexp := SNum (double_to_bits f).
Definition app (f : string) (args : list Sexp) : Sexp :=
  SCons (SSym f) (slist args).

End Startup.

(* ===================================================================== *)
(** * Properties *)
(* ===================================================================== *)

(** ** Numbers in the value word *)

Module NumberFacts.
Import NanBox Double.

(** Testing the mask is testing the exponent field. *)
Lemma reserved_exponent (b : Z) :
  reserved b = (exponent_field b =? 0x7FF).
Proof.
  unfold reserved, exponent_field, kNaNMask.
  change 0x7FF0000000000000 with (Z.shiftl 0x7FF 52).
  assert (E : Z.land b (Z.shiftl 0x7FF 52)
              = Z.shiftl (Z.land (Z.shiftr b 52) 0x7FF) 52).
  { rewrite Z.shiftl_land. apply Z.bits_inj'. intros n Hn.
    rewrite !Z.land_spec.
    destruct (Z.ltb_spec n 52) as [Hlt | Hge].
    - rewrite !Z.shiftl_spec_low by lia. now rewrite !andb_false_r.
    - rewrite !Z.shiftl_spec by lia. rewrite Z.shiftr_spec by lia.
      now replace (n - 52 + 52) with n by lia. }
  rewrite E.
  destruct (Z.eqb_spec (Z.land (Z.shiftr b 52) 0x7FF) 0x7FF) as [H | H].
  - rewrite H. reflexivity.
  - apply Z.eqb_neq. intros C. apply H.
    apply (f_equal (fun z => Z.shiftr z 52)) in C.
    rewrite Z.shiftr_shiftl_l in C by lia.
    exact C.
Qed.

Lemma reserved_nan_or_inf (b : Z) :
  reserved b = is_nan_bits b || is_inf_bits b.
Proof.
  rewrite reserved_exponent. unfold is_nan_bits, is_inf_bits.
  destruct (exponent_field b =? 0x7FF); simpl; [| reflexivity].
  now destruct (mantissa_field b =? 0).
Qed.

Lemma get_type_number (b : Z) : reserved b = false -> get_type b = TNUMBER.
Proof. unfold reserved, get_type. now intros ->. Qed.

Lemma kTagMap_not_number (i : Z) : kTagMap i <> TNUMBER.
Proof.
  unfold kTagMap. destruct i as [| p | p]; try discriminate.
  do 3 (try destruct p as [p | p |]; try discriminate).
Qed.

Lemma get_type_reserved (b : Z) : reserved b = true -> get_type b <> TNUMBER.
Proof.
  unfold reserved, get_type. intros ->. cbn [negb]. apply kTagMap_not_number.
Qed.

Lemma set_number_cases (d : Z) :
  set_number d = if reserved d then 0 else d.
Proof. reflexivity. Qed.

(** A value built by [make_number] is never in the reserved region. *)
Lemma set_number_not_reserved (d : Z) : reserved (set_number d) = false.
Proof.
  rewrite set_number_cases. destruct (reserved d) eqn:E; [reflexivity | exact E].
Qed.

(** C6.  Constructing a number from a double [d] (given by its bit
    pattern) stores the pattern of [0.0] when [d] lies in the reserved
    exponent-all-ones region, that is when [d] is a NaN or an infinity, and
    stores [d] itself otherwise; in both cases the value is of kind number
    and reads back as what was stored. *)
Theorem make_number_normalizes (d : Z) :
  reserved d = (is_nan_bits d || is_inf_bits d)
  /\ Alloc.make_number d = (if reserved d then double_to_bits 0%float else d)
  /\ get_type (Alloc.make_number d) = TNUMBER
  /\ get_number (Alloc.make_number d) = (if reserved d then 0 else d)
  /\ (reserved d = true ->
      bits_to_double (get_number (Alloc.make_number d)) = 0%float).
Proof.
  split; [apply reserved_nan_or_inf |].
  unfold Alloc.make_number, get_number. rewrite set_number_cases.
  change (double_to_bits 0%float) with 0.
  split; [reflexivity |]. split; [| split; [reflexivity |]].
  - apply get_type_number. rewrite <- set_number_cases.
    apply set_number_not_reserved.
  - intros ->. reflexivity.
Qed.

End NumberFacts.

(** ** Laws of the monad and of the heap accessors *)

Module MonadFacts.
Export Startup.

Lemma bind_Ok {A B} (m : M A) (k : A -> M B) s a s1 :
  m s = (Ok a, s1) -> bind m k s = k a s1.
Proof. unfold bind. now intros ->. Qed.

Lemma bind_Throw {A B} (m : M A) (k : A -> M B) s e s1 :
  m s = (Throw e, s1) -> bind m k s = (Throw e, s1).
Proof. unfold bind. now intros ->. Qed.

Lemma bind_Ok_inv {A B} (m : M A) (k : A -> M B) s b s2 :
  bind m k s = (Ok b, s2) ->
  exists a s1, m s = (Ok a, s1) /\ k a s1 = (Ok b, s2).
Proof.
  unfold bind. destruct (m s) as [[a | e | | | c] s1]; try discriminate.
  intros H. now exists a, s1.
Qed.

Lemma bind_ret {A B} (a : A) (k : A -> M B) s : bind (ret a) k s = k a s.
Proof. reflexivity. Qed.

Lemma bind_gets {A B} (f : State -> A) (k : A -> M B) s :
  bind (gets f) k s = k (f s) s.
Proof. reflexivity. Qed.

Lemma bind_modify {B} (f : State -> State) (k : unit -> M B) s :
  bind (modify f) k s = k tt (f s).
Proof. reflexivity. Qed.

Lemma bind_assoc {A B C} (m : M A) (k : A -> M B) (k' : B -> M C) s :
  bind (bind m k) k' s = bind m (fun a => bind (k a) k') s.
Proof. unfold bind. now destruct (m s) as [[a | e | | | c] s1]. Qed.

Lemma from_option_Some {A} (o : option A) a s :
  o = Some a -> from_option o s = (Ok a, s).
Proof. now intros ->. Qed.

Lemma from_option_Ok_inv {A} (o : option A) a s s1 :
  from_option o s = (Ok a, s1) -> o = Some a /\ s1 = s.
Proof. destruct o; cbv; intros H; inversion H; auto. Qed.

(** A pair cell of the heap: [p] is a pair value whose record holds
    [a] and [d]. *)
Definition cell (s : State) (p a d : Value) : Prop :=
  is_pair p = true /\ pairs s !! get_payload_raw p = Some (mkPair a d).

Lemma is_pair_true p : is_pair p = true -> truthy p = true /\ is_type p TPAIR = true.
Proof. unfold is_pair. now intros [-> ->]%andb_true_iff. Qed.

Lemma get_pair_cell s p a d : cell s p a d -> get_pair p s = (Ok (mkPair a d), s).
Proof.
  intros [_ H]. unfold get_pair. rewrite bind_gets. now apply from_option_Some.
Qed.

Lemma pair_car_cell s p a d : cell s p a d -> pair_car p s = (Ok a, s).
Proof.
  intros C. destruct (is_pair_true p (proj1 C)) as [T P].
  unfold pair_car. rewrite T, P. cbn [negb].
  now rewrite (bind_Ok _ _ _ _ _ (get_pair_cell _ _ _ _ C)).
Qed.

Lemma pair_cdr_cell s p a d : cell s p a d -> pair_cdr p s = (Ok d, s).
Proof.
  intros C. destruct (is_pair_true p (proj1 C)) as [T P].
  unfold pair_cdr. rewrite T, P. cbn [negb].
  now rewrite (bind_Ok _ _ _ _ _ (get_pair_cell _ _ _ _ C)).
Qed.

Lemma pair_car_not_pair s p : is_pair p = false -> pair_car p s = (Ok nil, s).
Proof.
  unfold is_pair, pair_car. destruct (truthy p); [| reflexivity].
  cbn [andb negb]. now intros ->.
Qed.

Lemma pair_cdr_not_pair s p : is_pair p = false -> pair_cdr p s = (Ok nil, s).
Proof.
  unfold is_pair, pair_cdr. destruct (truthy p); [| reflexivity].
  cbn [andb negb]. now intros ->.
Qed.

(** What a successful [pair_car] / [pair_cdr] read. *)
Lemma pair_car_Ok_inv s p v s1 :
  pair_car p s = (Ok v, s1) ->
  s1 = s /\ ((exists d, cell s p v d) \/ (is_pair p = false /\ v = nil)).
Proof.
  destruct (is_pair p) eqn:E.
  - destruct (is_pair_true p E) as [T P]. unfold pair_car.
    rewrite T, P. cbn [negb]. intros H.
    apply bind_Ok_inv in H as (pd & s' & H1 & H2).
    unfold get_pair in H1. rewrite bind_gets in H1.
    apply from_option_Ok_inv in H1 as [H1 ->].
    inversion H2; subst. split; [reflexivity |]. left.
    exists (cdr pd). split; [exact E |]. now destruct pd.
  - rewrite (pair_car_not_pair s p E). intros H; inversion H; subst. auto.
Qed.

Lemma pair_cdr_Ok_inv s p v s1 :
  pair_cdr p s = (Ok v, s1) ->
  s1 = s /\ ((exists a, cell s p a v) \/ (is_pair p = false /\ v = nil)).
Proof.
  destruct (is_pair p) eqn:E.
  - destruct (is_pair_true p E) as [T P]. unfold pair_cdr.
    rewrite T, P. cbn [negb]. intros H.
    apply bind_Ok_inv in H as (pd & s' & H1 & H2).
    unfold get_pair in H1. rewrite bind_gets in H1.
    apply from_option_Ok_inv in H1 as [H1 ->].
    inversion H2; subst. split; [reflexivity |]. left.
    exists (car pd). split; [exact E |]. now destruct pd.
  - rewrite (pair_cdr_not_pair s p E). intros H; inversion H; subst. auto.
Qed.

Lemma cell_functional s p a d a' d' :
  cell s p a d -> cell s p a' d' -> a = a' /\ d = d'.
Proof. intros [_ H] [_ H']. rewrite H in H'. now inversion H'. Qed.

Lemma truthy_nil : truthy nil = false.
Proof. reflexivity. Qed.

Lemma is_number_truthy v : is_type v TNUMBER = true -> truthy v = true.
Proof.
  unfold is_type, truthy. intros H%Type_eqb_spec. now rewrite H.
Qed.

(** *** Ending without an exception *)

(** [m] ends in no state with a C++ exception. *)
Definition no_throw {A} (m : M A) : Prop := forall s e, fst (m s) <> Throw e.

Lemma no_throw_bind {A B} (m : M A) (k : A -> M B) :
  no_throw m -> (forall a, no_throw (k a)) -> no_throw (bind m k).
Proof.
  intros Hm Hk s e. unfold bind.
  specialize (Hm s). destruct (m s) as [[a | e0 | | | c] s1]; cbn in *;
    try discriminate.
  - apply Hk.
  - now destruct (Hm e0).
Qed.

Lemma no_throw_ret {A} (a : A) : no_throw (ret a).
Proof. intros s e. discriminate. Qed.

Lemma no_throw_gets {A} (f : State -> A) : no_throw (gets f).
Proof. intros s e. discriminate. Qed.

Lemma no_throw_modify (f : State -> State) : no_throw (modify f).
Proof. intros s e. discriminate. Qed.

Lemma no_throw_fault {A} : no_throw (@fault A).
Proof. intros s e. discriminate. Qed.

Lemma no_throw_out_of_fuel {A} : no_throw (@out_of_fuel A).
Proof. intros s e. discriminate. Qed.

Lemma no_throw_from_option {A} (o : option A) : no_throw (from_option o).
Proof. destruct o; intros s e; discriminate. Qed.

(** [try { m } catch (...) { return a; }] *)
Lemma no_throw_catch_all {A} (m : M A) (a : A) :
  no_throw (catch_all m (fun _ => ret a)).
Proof.
  intros s e. unfold catch_all.
  destruct (m s) as [[x | e0 | | | c] s1]; cbn; discriminate.
Qed.

Ltac no_throw_go :=
  repeat first
    [ apply no_throw_ret | apply no_throw_gets | apply no_throw_modify
    | apply no_throw_fault | apply no_throw_out_of_fuel
    | apply no_throw_from_option | apply no_throw_catch_all
    | assumption
    | match goal with H : _ |- _ => apply H end
    | apply no_throw_bind; [| intros ?]
    | match goal with
      | |- no_throw (match ?x with _ => _ end) => destruct x
      | |- no_throw (if ?x then _ else _) => destruct x
      | |- no_throw (let '(_, _) := ?x in _) => destruct x
      end ].

Lemma no_throw_find_binding fuel :
  forall e key, no_throw (find_binding fuel e key).
Proof.
  induction fuel; intros; cbn [find_binding]; unfold read_env; no_throw_go.
Qed.

(** [State::get_bound] throws for no name and no environment. *)
Lemma no_throw_get_bound fuel name env : no_throw (get_bound fuel name env).
Proof.
  unfold get_bound. pose proof (no_throw_find_binding fuel). no_throw_go.
Qed.

End MonadFacts.
(** ** The arithmetic builtins *)

Module ArithFacts.
Export MonadFacts.
Import NumberFacts.

(** [args] is the list of exactly the two values [a] and [b]. *)
Definition two_args (s : State) (args a b : Value) : Prop :=
  exists t u, cell s args a t /\ cell s t b u /\ truthy u = false.

Definition is_number (v : Value) : Prop := is_type v TNUMBER = true.

Lemma not_two_arguments_two s args a b :
  two_args s args a b -> not_two_arguments args s = (Ok false, s).
Proof.
  intros (t & u & C1 & C2 & U).
  destruct (is_pair_true _ (proj1 C1)) as [T1 _].
  destruct (is_pair_true _ (proj1 C2)) as [T2 _].
  unfold not_two_arguments. rewrite T1. cbn [negb].
  rewrite (bind_Ok _ _ _ _ _ (pair_cdr_cell _ _ _ _ C1)). rewrite T2. cbn [negb].
  rewrite (bind_Ok _ _ _ _ _ (pair_cdr_cell _ _ _ _ C2)). now rewrite U.
Qed.

Lemma require_number_number s v who :
  is_number v -> require_number v who s = (Ok (get_number v), s).
Proof.
  intros N. unfold require_number. rewrite (is_number_truthy v N), N.
  reflexivity.
Qed.

Lemma require_number_Ok_inv s v who d s1 :
  require_number v who s = (Ok d, s1) ->
  is_number v /\ d = get_number v /\ s1 = s.
Proof.
  unfold require_number, is_number.
  destruct (truthy v); cbn [negb orb].
  - destruct (is_type v TNUMBER); cbn [negb].
    + intros H; inversion H; auto.
    + intros H. apply bind_Ok_inv in H as (x & s' & _ & H). discriminate.
  - intros H. apply bind_Ok_inv in H as (x & s' & _ & H). discriminate.
Qed.

(** On two numbers [arith_binary] applies the operation and boxes the
    result. *)
Lemma arith_binary_two s args a b op name :
  two_args s args a b -> is_number a -> is_number b ->
  arith_binary args op name s
  = bind (op (get_number a) (get_number b)) (fun r => ret (make_number r)) s.
Proof.
  intros A Na Nb. unfold arith_binary.
  rewrite (bind_Ok _ _ _ _ _ (not_two_arguments_two _ _ _ _ A)).
  destruct A as (t & u & C1 & C2 & U).
  rewrite (bind_Ok _ _ _ _ _ (pair_car_cell _ _ _ _ C1)).
  rewrite (bind_Ok _ _ _ _ _ (require_number_number s a name Na)).
  rewrite (bind_Ok _ _ _ _ _ (pair_cdr_cell _ _ _ _ C1)).
  rewrite (bind_Ok _ _ _ _ _ (pair_car_cell _ _ _ _ C2)).
  rewrite (bind_Ok _ _ _ _ _ (require_number_number s b name Nb)).
  reflexivity.
Qed.

(** The prefix shared by [arith_binary] and [compare_binary]: when it
    lets the continuation [K] return normally, it was given two numbers. *)
Lemma binary_prefix_Ok_inv {A} s args name (msg : string)
    (K : double -> double -> M A) v s1 :
  (let! bad := not_two_arguments args in
   if bad then runtime_error msg
   else
     let! x := pair_car args in
     let! a := require_number x name in
     let! t := pair_cdr args in
     let! y := pair_car t in
     let! b := require_number y name in
     K a b) s = (Ok v, s1) ->
  exists a b, two_args s args a b /\ is_number a /\ is_number b
    /\ K (get_number a) (get_number b) s = (Ok v, s1).
Proof.
  intros H.
  apply bind_Ok_inv in H as (bad & s' & Hbad & H).
  destruct bad; [discriminate |].
  apply bind_Ok_inv in H as (x & s2 & Hx & H).
  apply bind_Ok_inv in H as (a & s3 & Ha & H).
  apply bind_Ok_inv in H as (t & s4 & Ht & H).
  apply bind_Ok_inv in H as (y & s5 & Hy & H).
  apply bind_Ok_inv in H as (b & s6 & Hb & H).
  (* the arity test *)
  unfold not_two_arguments in Hbad.
  destruct (truthy args) eqn:Targs; cbn [negb] in Hbad; [| discriminate].
  apply bind_Ok_inv in Hbad as (t' & s8 & Ht' & Hbad).
  destruct (truthy t') eqn:Tt'; cbn [negb] in Hbad; [| discriminate].
  apply bind_Ok_inv in Hbad as (u & s9 & Hu & Hbad).
  inversion Hbad; subst; clear Hbad.
  apply pair_cdr_Ok_inv in Ht' as [-> Ht'].
  apply pair_cdr_Ok_inv in Hu as [-> Hu].
  apply pair_car_Ok_inv in Hx as [-> Hx].
  apply require_number_Ok_inv in Ha as (Na & -> & ->).
  apply pair_cdr_Ok_inv in Ht as [-> Ht].
  apply pair_car_Ok_inv in Hy as [-> Hy].
  apply require_number_Ok_inv in Hb as (Nb & -> & ->).
  destruct Ht' as [[a0 Ca] | [_ ->]]; [| now rewrite truthy_nil in Tt'].
  destruct Ht as [[a1 Ca1] | [E _]]; [| now rewrite (proj1 Ca) in E].
  destruct (cell_functional _ _ _ _ _ _ Ca Ca1) as [-> ->].
  destruct Hx as [[d0' Cx] | [E _]]; [| now rewrite (proj1 Ca1) in E].
  destruct (cell_functional _ _ _ _ _ _ Cx Ca1) as [-> ->].
  destruct Hy as [[dy Cy] | [_ ->]];
    [| exfalso; unfold is_number in Nb; vm_compute in Nb; discriminate].
  destruct Hu as [[ay Cu] | [E _]]; [| now rewrite (proj1 Cy) in E].
  destruct (cell_functional _ _ _ _ _ _ Cy Cu) as [-> ->].
  exists a1, ay. split; [| auto].
  exists t, u. repeat split; try apply Ca1; try apply Cy.
  now destruct (truthy u).
Qed.

(** A normal return of [arith_binary] was a call on two numbers. *)
Lemma arith_binary_Ok_inv s args op name v s1 :
  arith_binary args op name s = (Ok v, s1) ->
  exists a b r, two_args s args a b /\ is_number a /\ is_number b
    /\ op (get_number a) (get_number b) s = (Ok r, s1) /\ v = make_number r.
Proof.
  unfold arith_binary. intros H.
  apply binary_prefix_Ok_inv in H as (a & b & A & Na & Nb & H).
  apply bind_Ok_inv in H as (r & s2 & Hr & H). inversion H; subst.
  now exists a, b, r.
Qed.

(** So was a normal return of [compare_binary]. *)
Lemma compare_binary_Ok_inv s fuel args cmp name v s1 :
  compare_binary fuel args cmp name s = (Ok v, s1) ->
  exists a b, two_args s args a b /\ is_number a /\ is_number b.
Proof.
  unfold compare_binary. intros H.
  apply binary_prefix_Ok_inv in H as (a & b & A & Na & Nb & _).
  now exists a, b.
Qed.

Lemma two_args_functional s args a b a' b' :
  two_args s args a b -> two_args s args a' b' -> a = a' /\ b = b'.
Proof.
  intros (t & u & C1 & C2 & _) (t' & u' & C1' & C2' & _).
  destruct (cell_functional _ _ _ _ _ _ C1 C1') as [-> ->].
  now destruct (cell_functional _ _ _ _ _ _ C2 C2') as [-> _].
Qed.

Lemma ret_bind_ret {A B} (a : A) (f : A -> B) s :
  bind (ret a) (fun r => ret (f r)) s = (Ok (f a), s).
Proof. reflexivity. Qed.

(** The claim as the specification words it: on two numbers the builtin
    [f] returns the binary64 result of [op]. *)
Definition returns_ieee_result (f : Value -> M Value)
    (op : double -> double -> double) : Prop :=
  forall s args a b,
    two_args s args a b -> is_number a -> is_number b ->
    fst (f args s) = Ok (op (get_number a) (get_number b)).

(** [2^1023], and a heap holding the list of [huge] and [huge]. *)
Definition huge : double := 0x7FE0000000000000.
Definition huge_args : Value := set_payload_raw kTagPair 64.
Definition huge_heap : State :=
  with_pairs (fun _ => {[ 64 := mkPair huge (set_payload_raw kTagPair 128);
                          128 := mkPair huge nil ]}) empty_state.

Lemma huge_args_two : two_args huge_heap huge_args huge huge.
Proof.
  exists (set_payload_raw kTagPair 128), nil.
  repeat split; vm_compute; reflexivity.
Qed.

(** C7, counterexample.  The product of [huge] with itself overflows to
    [+inf] in binary64, and the builtin [*] returns the number [0.0]. *)
Lemma mul_overflow_not_ieee : ~ returns_ieee_result do_builtin_mul fmul.
Proof.
  intros H.
  specialize (H huge_heap huge_args huge huge huge_args_two eq_refl eq_refl).
  vm_compute in H. discriminate H.
Qed.

(** [args] holds no argument, one argument, or more than two. *)
Definition not_two (s : State) (args : Value) : Prop :=
  is_pair args = false
  \/ (exists a t, cell s args a t /\ truthy t = false)
  \/ (exists a t b u, cell s args a t /\ cell s t b u /\ truthy u = true).

Lemma not_two_arguments_bad s args :
  not_two s args -> not_two_arguments args s = (Ok true, s).
Proof.
  intros [P | [(a & t & C & T) | (a & t & b & u & C1 & C2 & U)]];
    unfold not_two_arguments.
  - destruct (truthy args) eqn:Targs; [| reflexivity]. cbn [negb].
    now rewrite (bind_Ok _ _ _ _ _ (pair_cdr_not_pair s args P)).
  - rewrite (proj1 (is_pair_true _ (proj1 C))). cbn [negb].
    rewrite (bind_Ok _ _ _ _ _ (pair_cdr_cell _ _ _ _ C)). now rewrite T.
  - rewrite (proj1 (is_pair_true _ (proj1 C1))). cbn [negb].
    rewrite (bind_Ok _ _ _ _ _ (pair_cdr_cell _ _ _ _ C1)).
    rewrite (proj1 (is_pair_true _ (proj1 C2))). cbn [negb].
    rewrite (bind_Ok _ _ _ _ _ (pair_cdr_cell _ _ _ _ C2)). now rewrite U.
Qed.

(** No, one, or more than two arguments: [arith_binary] throws. *)
Lemma arith_binary_arity s args op name :
  not_two s args ->
  arith_binary args op name s
  = (Throw (RuntimeError (name ++ " requires exactly two arguments")), s).
Proof.
  intros H. unfold arith_binary.
  now rewrite (bind_Ok _ _ _ _ _ (not_two_arguments_bad _ _ H)).
Qed.

Lemma require_number_other s v who tn :
  is_type v TNUMBER = false -> type_name v s = (Ok tn, s) ->
  require_number v who s
  = (Throw (RuntimeError (who ++ ": expected number, got " ++ tn)), s).
Proof.
  intros N T. unfold require_number. rewrite N. cbn [negb].
  rewrite orb_true_r. now rewrite (bind_Ok _ _ _ _ _ T).
Qed.

(** Two arguments one of which is not a number: [arith_binary] throws,
    naming the kind of the first that is not. *)
Lemma arith_binary_type s args a b op name tn :
  two_args s args a b ->
  (is_type a TNUMBER = false /\ type_name a s = (Ok tn, s))
  \/ (is_number a /\ is_type b TNUMBER = false /\ type_name b s = (Ok tn, s)) ->
  arith_binary args op name s
  = (Throw (RuntimeError (name ++ ": expected number, got " ++ tn)), s).
Proof.
  intros A H. unfold arith_binary.
  rewrite (bind_Ok _ _ _ _ _ (not_two_arguments_two _ _ _ _ A)).
  destruct A as (t & u & C1 & C2 & U).
  rewrite (bind_Ok _ _ _ _ _ (pair_car_cell _ _ _ _ C1)).
  destruct H as [[Na Ta] | (Na & Nb & Tb)].
  - now rewrite (bind_Throw _ _ _ _ _ (require_number_other s a name tn Na Ta)).
  - rewrite (bind_Ok _ _ _ _ _ (require_number_number s a name Na)).
    rewrite (bind_Ok _ _ _ _ _ (pair_cdr_cell _ _ _ _ C1)).
    rewrite (bind_Ok _ _ _ _ _ (pair_car_cell _ _ _ _ C2)).
    now rewrite (bind_Throw _ _ _ _ _ (require_number_other s b name tn Nb Tb)).
Qed.

(** The four builtins with the names they report. *)
Definition arith_table : list ((Value -> M Value) * string) :=
  [(do_builtin_add, "+"); (do_builtin_sub, "-"); (do_builtin_mul, "*");
   (do_builtin_div, "/")]%string.

Lemma arith_table_binary f name args :
  In (f, name) arith_table -> exists op, f args = arith_binary args op name.
Proof.
  intros Hin. simpl in Hin.
  destruct Hin as [E | [E | [E | [E | []]]]]; injection E as <- <-;
    eexists; reflexivity.
Qed.

(** C7, as amended.  Each of [+ - * /] returns normally only when applied
    to exactly two arguments that are both numbers.  Applied to no, one or
    more than two arguments it throws "<name> requires exactly two
    arguments"; applied to two arguments the first of which, or else the
    second of which, is not a number it throws "<name>: expected number,
    got <kind>".  On two numbers [+ - *] return, and [/] with a second
    argument different from zero returns, the number built by
    [make_number] from the binary64 result, which is the result itself
    unless it is an infinity or a NaN and is [0.0] then; [/] with a second
    argument equal to zero throws the runtime error "division by zero".
    The state is the same after each of these. *)
Theorem arith_builtins_spec (s : State) (args : Value) :
  (forall f v s1,
      In f [do_builtin_add; do_builtin_sub; do_builtin_mul; do_builtin_div] ->
      f args s = (Ok v, s1) ->
      exists a b, two_args s args a b /\ is_number a /\ is_number b)
  /\ (forall f name, In (f, name) arith_table -> not_two s args ->
        f args s
        = (Throw (RuntimeError (name ++ " requires exactly two arguments")), s))
  /\ (forall f name a b tn, In (f, name) arith_table ->
        two_args s args a b ->
        (is_type a TNUMBER = false /\ type_name a s = (Ok tn, s))
        \/ (is_number a /\ is_type b TNUMBER = false
            /\ type_name b s = (Ok tn, s)) ->
        f args s
        = (Throw (RuntimeError (name ++ ": expected number, got " ++ tn)), s))
  /\ (forall a b,
        two_args s args a b -> is_number a -> is_number b ->
        do_builtin_add args s = (Ok (make_number (fadd a b)), s)
        /\ do_builtin_sub args s = (Ok (make_number (fsub a b)), s)
        /\ do_builtin_mul args s = (Ok (make_number (fmul a b)), s)
        /\ do_builtin_div args s
           = (if feq b d0
              then (Throw (RuntimeError "division by zero"), s)
              else (Ok (make_number (fdiv a b)), s)))
  /\ (forall r, make_number r = if reserved r then d0 else r)
  /\ (forall r, reserved r = is_nan_bits r || is_inf_bits r).
Proof.
  split; [| split; [| split; [| split; [| split]]]].
  - intros f v s1 Hin Hf.
    assert (E : exists op name, f args = arith_binary args op name).
    { simpl in Hin.
      destruct Hin as [<- | [<- | [<- | [<- | []]]]]; eexists _, _; reflexivity. }
    destruct E as (op & name & E). rewrite E in Hf.
    apply arith_binary_Ok_inv in Hf as (a & b & r & A & Na & Nb & _).
    now exists a, b.
  - intros f name Hin H.
    destruct (arith_table_binary f name args Hin) as [op ->].
    now apply arith_binary_arity.
  - intros f name a b tn Hin A H.
    destruct (arith_table_binary f name args Hin) as [op ->].
    now apply (arith_binary_type s args a b).
  - intros a b A Na Nb.
    unfold do_builtin_add, do_builtin_sub, do_builtin_mul, do_builtin_div.
    rewrite !(arith_binary_two s args a b _ _ A Na Nb).
    unfold get_number. rewrite !ret_bind_ret.
    repeat (split; [reflexivity |]).
    now destruct (feq b d0).
  - intros r. apply set_number_cases.
  - apply reserved_nan_or_inf.
Qed.

(** A sum of one number, a difference of three, a product with a string,
    a quotient by a symbol and a quotient by zero, run from source. *)
Example arith_errors_demo :
  map (fun x => fst (run_program bare_host 20 "demo" [x] initial_state))
    [ app "+" [num 1]; app "-" [num 1; num 2; num 3];
      app "*" [SStr "a"; num 2]; app "/" [num 1; app "quote" [SSym "x"]];
      app "/" [num 1; num 0] ]
  = [ Throw (RuntimeError "+ requires exactly two arguments");
      Throw (RuntimeError "- requires exactly two arguments");
      Throw (RuntimeError "*: expected number, got string");
      Throw (RuntimeError "/: expected number, got symbol");
      Throw (RuntimeError "division by zero") ].
Proof. vm_compute. reflexivity. Qed.

End ArithFacts.

(** ** Symbol lookup *)

Module LookupFacts.
Export MonadFacts.

(** [binding s key e r n]: the walk from environment [e] along
    [env_parent] ends after [n] parents, at the nearest environment that
    binds [key] ([r] is that environment and the value bound there) or at
    the null parent of the root ([r] is [None]). *)
Inductive binding (s : State) (key : string)
  : Z -> option (Z * Value) -> nat -> Prop :=
| binding_null : binding s key 0 None 0
| binding_here e d v :
    e <> 0 -> envs s !! e = Some d -> env_map d !! key = Some v ->
    binding s key e (Some (e, v)) 0
| binding_parent e d r n :
    e <> 0 -> envs s !! e = Some d -> env_map d !! key = None ->
    binding s key (env_parent d) r n ->
    binding s key e r (S n).

Lemma read_env_Some s e d : envs s !! e = Some d -> read_env e s = (Ok d, s).
Proof.
  intros H. unfold read_env. rewrite bind_gets. now apply from_option_Some.
Qed.

Lemma find_binding_walk s key e r n :
  binding s key e r n ->
  forall fuel, (n < fuel)%nat -> find_binding fuel e key s = (Ok r, s).
Proof.
  induction 1 as [| e d v Hne He Hk | e d r n Hne He Hk Hb IH];
    intros [| fuel] Hlt; try lia; cbn [find_binding].
  - reflexivity.
  - apply Z.eqb_neq in Hne. rewrite Hne.
    rewrite (bind_Ok _ _ _ _ _ (read_env_Some _ _ _ He)). now rewrite Hk.
  - apply Z.eqb_neq in Hne. rewrite Hne.
    rewrite (bind_Ok _ _ _ _ _ (read_env_Some _ _ _ He)). rewrite Hk.
    apply IH. lia.
Qed.

Lemma binding_same_envs s s' key e r n :
  envs s' = envs s -> binding s key e r n -> binding s' key e r n.
Proof.
  intros E. induction 1.
  - constructor.
  - econstructor 2; eauto. now rewrite E.
  - econstructor 3; eauto. now rewrite E.
Qed.

Lemma binding_functional s key e r n r' n' :
  binding s key e r n -> binding s key e r' n' -> r = r' /\ n = n'.
Proof.
  intros H. revert r' n'.
  induction H as [| e d v Hne He Hk | e d r n Hne He Hk Hb IH];
    intros r' n' H';
    inversion H' as [| e' d' v' Hne' He' Hk' | e' d' r0 n0 Hne' He' Hk' Hb'];
    subst; try (exfalso; congruence); auto.
  all: rewrite He in He'; inversion He'; subst d'.
  - rewrite Hk in Hk'. inversion Hk'. auto.
  - destruct (IH _ _ Hb') as [-> ->]. auto.
Qed.

Lemma restore_current_expr s v :
  with_current_expr (fun _ => current_expr s)
    (with_current_expr (fun _ => v) s) = s.
Proof. now destruct s. Qed.

Lemma get_symbol_Some s v key :
  strings s !! get_payload_raw v = Some key -> get_symbol v s = (Ok key, s).
Proof.
  intros H. unfold get_symbol, get_string. rewrite bind_gets.
  now apply from_option_Some.
Qed.

Lemma type_truthy v t : get_type v = t -> t <> TNIL -> truthy v = true.
Proof. unfold truthy. intros -> H. now destruct t. Qed.

(** The error thrown for an unbound symbol. *)
Definition unbound_error (s : State) (expr : Value) (key : string) : Error :=
  match src_map s !! identity_key expr with
  | Some l => ParseError l ("unbound symbol: " ++ key) []
  | None => RuntimeError ("unbound symbol: " ++ key)
  end.

Lemma what_unbound_error s expr key :
  what (unbound_error s expr key) = ("unbound symbol: " ++ key)%string.
Proof. unfold unbound_error. now destruct (src_map s !! identity_key expr). Qed.

(** C8.  Evaluating a symbol whose text is [key] returns the value of the
    nearest binding of [key] on the environment chain, whatever that value
    is (nil included), and leaves the state as it was; when no environment
    of the chain binds [key] it throws an error whose message is
    "unbound symbol: " followed by the text.  A normal return and a throw
    are different outcomes, so bound-to-nil and unbound are told apart. *)
Theorem eval_symbol (h : Host) (s : State) (expr : Value) (env : Z)
    (key : string) (r : option (Z * Value)) (n fuel : nat) :
  get_type expr = TSYMBOL ->
  strings s !! get_payload_raw expr = Some key ->
  binding s key (if env =? 0 then global s else env) r n ->
  (n < fuel)%nat ->
  eval h (S fuel) expr env s
  = match r with
    | Some (_, v) => (Ok v, s)
    | None => (Throw (unbound_error s expr key),
               with_current_expr (fun _ => expr) s)
    end
  /\ what (unbound_error s expr key) = ("unbound symbol: " ++ key)%string.
Proof.
  intros Ty Str B Hlt. split; [| apply what_unbound_error].
  cbn [eval]. unfold eval_step.
  rewrite bind_gets, bind_modify.
  rewrite (type_truthy expr TSYMBOL Ty) by discriminate. cbn [negb].
  rewrite bind_gets. rewrite Ty.
  set (s1 := with_current_expr (fun _ => expr) s).
  assert (Str1 : strings s1 !! get_payload_raw expr = Some key) by exact Str.
  rewrite (bind_Ok _ _ _ _ _ (get_symbol_Some _ _ _ Str1)).
  assert (B1 : binding s1 key (if env =? 0 then global s1 else env) r n).
  { apply (binding_same_envs s); [reflexivity | exact B]. }
  rewrite (bind_Ok _ _ _ _ _ (find_binding_walk _ _ _ _ _ B1 fuel Hlt)).
  destruct r as [[e v] |].
  - rewrite bind_modify. unfold ret, s1. now rewrite restore_current_expr.
  - unfold get_source_loc.
    rewrite (type_truthy expr TSYMBOL Ty) by discriminate. cbn [negb].
    rewrite bind_assoc, bind_gets, bind_ret. unfold unbound_error.
    change (src_map s1) with (src_map s).
    now destruct (src_map s !! identity_key expr).
Qed.

(** A state in which [x] is bound to nil in the global environment and
    [y] is a symbol bound nowhere. *)
Definition demo_state : State :=
  snd (run_program bare_host 20 "demo"
         [app "set" [SSym "x"; SNil]; app "quote" [SSym "y"]] initial_state).
Definition demo_x : Value := default nil (symbol_intern demo_state !! "x"%string).
Definition demo_y : Value := default nil (symbol_intern demo_state !! "y"%string).

Lemma demo_x_bound :
  binding demo_state "x" (global demo_state) (Some (global demo_state, nil)) 0.
Proof.
  eapply (binding_here demo_state "x" (global demo_state)
            (default (mkEnv ∅ 0) (envs demo_state !! global demo_state)) nil);
    vm_compute; congruence.
Defined.

Lemma demo_y_unbound : binding demo_state "y" (global demo_state) None 1.
Proof.
  eapply (binding_parent demo_state "y" (global demo_state)
            (default (mkEnv ∅ 0) (envs demo_state !! global demo_state)) None 0);
    [vm_compute; congruence | vm_compute; reflexivity | vm_compute; reflexivity |].
  vm_compute. constructor.
Defined.

Lemma eval_symbol_witness :
  eval bare_host 3 demo_x 0 demo_state = (Ok nil, demo_state)
  /\ eval bare_host 3 demo_y 0 demo_state
     = (Throw (unbound_error demo_state demo_y "y"),
        with_current_expr (fun _ => demo_y) demo_state).
Proof.
  split.
  - apply (eval_symbol bare_host demo_state demo_x 0 "x"
             (Some (global demo_state, nil)) 0 2);
      [vm_compute; reflexivity | vm_compute; reflexivity
      | exact demo_x_bound | lia].
  - apply (eval_symbol bare_host demo_state demo_y 0 "y" None 1 2);
      [vm_compute; reflexivity | vm_compute; reflexivity
      | exact demo_y_unbound | lia].
Defined.

End LookupFacts.

(** ** The binding list of [let] *)

Module LetFacts.
Export LookupFacts.

Lemma cell_same_pairs s s' p a d :
  pairs s' = pairs s -> cell s p a d -> cell s' p a d.
Proof. intros E [P H]. split; [exact P |]. now rewrite E. Qed.

Lemma is_pair_not_symbol v : is_pair v = true -> is_type v TSYMBOL = false.
Proof.
  intros H. destruct (is_pair_true v H) as [_ P]. unfold is_type in *.
  apply Type_eqb_spec in P. now rewrite P.
Qed.

Lemma is_pair_type v : is_pair v = true -> get_type v = TPAIR.
Proof.
  intros H. destruct (is_pair_true v H) as [_ P].
  now apply Type_eqb_spec in P.
Qed.

Lemma eval_nil h fuel env s :
  eval h (S fuel) nil env s = (Ok nil, with_current_expr (fun _ => nil) s).
Proof. reflexivity. Qed.

(** The state after [make_env]. *)
Definition env_added (parent : Z) (s : State) : State :=
  with_envs (insert (brk s) (mkEnv ∅ parent))
    (with_envs (insert (brk s) (mkEnv ∅ 0)) (with_brk (fun b => b + 64) s)).

Lemma make_env_eq parent s : make_env parent s = (Ok (brk s), env_added parent s).
Proof. reflexivity. Qed.

Lemma get_prim_make_prim p s : get_prim (make_prim p) s = (Ok p, s).
Proof. destruct p; reflexivity. Qed.

(** One step of a computation whose first action is known. *)
Ltac mstep H := rewrite ?bind_assoc; rewrite (bind_Ok _ _ _ _ _ H); cbv beta.

(** The [let] primitive on a binding list whose only element is a pair:
    the pair itself is taken for the symbol to bind, and [State::bind]
    refuses it. *)
Lemma let_pair_binding_throws h fuel s args env vars body b rest :
  cell s args vars body -> cell s vars b rest ->
  truthy rest = false -> is_pair b = true ->
  exists s',
    call_prim (eval h (S fuel)) (call h (S fuel)) (S fuel) prim_let args env s
    = (Throw (RuntimeError "bind expects a symbol"), s').
Proof.
  intros Ca Cv Tr Pb. eexists. cbn [call_prim].
  mstep (pair_car_cell _ _ _ _ Ca).
  mstep (make_env_eq env s).
  set (s2 := env_added env s).
  assert (Cv2 : cell s2 vars b rest) by (apply (cell_same_pairs s); auto).
  cbn [let_bindings].
  rewrite (proj1 (is_pair_true _ (proj1 Cv))). cbn [negb].
  mstep (pair_car_cell _ _ _ _ Cv2).
  mstep (pair_cdr_cell _ _ _ _ Cv2).
  assert (Pr : is_pair rest = false) by (unfold is_pair; now rewrite Tr).
  mstep (pair_car_not_pair s2 rest Pr).
  mstep (eval_nil h fuel (brk s) s2).
  unfold bind_ at 1. rewrite !bind_assoc, bind_gets.
  rewrite (is_pair_not_symbol b Pb). rewrite orb_true_r.
  reflexivity.
Qed.

(** C5.  In any state where [let] denotes the primitive, evaluating
    [(let (b) body...)] with [b] a pair, such as [(let ((s e)) body...)],
    throws "bind expects a symbol": the interpreter accepts only the flat
    binding list. *)
Theorem let_pair_form_rejected (h : Host) (s : State) (expr : Value) (env : Z)
    (letsym args vars body b rest : Value) (e0 : Z) (n fuel : nat) :
  cell s expr letsym args ->
  get_type letsym = TSYMBOL ->
  strings s !! get_payload_raw letsym = Some "let"%string ->
  binding s "let" (if env =? 0 then global s else env)
    (Some (e0, make_prim prim_let)) n ->
  cell s args vars body -> cell s vars b rest ->
  truthy rest = false -> is_pair b = true ->
  (n < fuel)%nat ->
  exists s',
    eval h (S (S fuel)) expr env s
    = (Throw (RuntimeError "bind expects a symbol"), s').
Proof.
  intros Ce Ty Str B Ca Cv Tr Pb Hlt.
  cbn [eval]. unfold eval_step at 1.
  rewrite bind_gets, bind_modify.
  rewrite (proj1 (is_pair_true _ (proj1 Ce))). cbn [negb].
  rewrite bind_gets. rewrite (is_pair_type _ (proj1 Ce)).
  set (s1 := with_current_expr (fun _ => expr) s).
  assert (Ce1 : cell s1 expr letsym args) by exact Ce.
  rewrite (bind_Ok _ _ _ _ _ (get_pair_cell _ _ _ _ Ce1)). cbn [car cdr].
  assert (B1 : binding s1 "let" (if (if env =? 0 then global s1 else env) =? 0
                                 then global s1
                                 else (if env =? 0 then global s1 else env))
                 (Some (e0, make_prim prim_let)) n).
  { apply (binding_same_envs s); [reflexivity |].
    change (global s1) with (global s).
    destruct (env =? 0) eqn:E0; [| now rewrite E0].
    now destruct (global s =? 0). }
  pose proof (proj1 (eval_symbol h s1 letsym _ "let" _ n fuel Ty Str B1 Hlt)) as Ev.
  cbn [eval] in Ev. rewrite (bind_Ok _ _ _ _ _ Ev).
  change (truthy (make_prim prim_let)) with true.
  change (is_type (make_prim prim_let) TPRIM) with true. cbn [negb].
  rewrite (bind_Ok _ _ _ _ _ (get_prim_make_prim prim_let s1)).
  assert (Ca1 : cell s1 args vars body) by exact Ca.
  assert (Cv1 : cell s1 vars b rest) by exact Cv.
  destruct (let_pair_binding_throws h fuel s1 args
              (if env =? 0 then global s1 else env) vars body b rest
              Ca1 Cv1 Tr Pb) as [s' Hs'].
  exists s'. now rewrite (bind_Throw _ _ _ _ _ Hs').
Qed.

(** [(let ((x 1)) x)] read into the initial state. *)
Definition let_pair_sexp : Sexp :=
  app "let" [slist [slist [SSym "x"; num 1]]; SSym "x"].
Definition let_pair_read : Res Value * State :=
  intern_sexp "demo" let_pair_sexp initial_state.
Definition let_pair_expr : Value :=
  match fst let_pair_read with Ok v => v | _ => nil end.
Definition let_pair_state : State := snd let_pair_read.

Lemma let_pair_form_rejected_witness :
  exists s',
    eval bare_host 3 let_pair_expr 0 let_pair_state
    = (Throw (RuntimeError "bind expects a symbol"), s').
Proof.
  eapply (let_pair_form_rejected bare_host let_pair_state let_pair_expr 0
            _ _ _ _ _ _ (global let_pair_state) 0 1).
  - split; vm_compute; reflexivity.
  - vm_compute; reflexivity.
  - vm_compute; reflexivity.
  - eapply (binding_here let_pair_state "let" (global let_pair_state)
              (default (mkEnv ∅ 0) (envs let_pair_state !! global let_pair_state)));
      vm_compute; congruence.
  - split; vm_compute; reflexivity.
  - split; vm_compute; reflexivity.
  - vm_compute; reflexivity.
  - vm_compute; reflexivity.
  - lia.
Defined.

(** The flat form of the same binding evaluates to [1]. *)
Example let_flat_form_accepted :
  fst (run_program bare_host 20 "demo"
         [app "let" [slist [SSym "x"; num 1]; SSym "x"]] initial_state)
  = Ok (double_to_bits 1).
Proof. vm_compute. reflexivity. Qed.

(** The lowering, on the other hand, takes the pair form: the function
    [(fn () (let ((x 1)) x))] is built into a store and a load. *)
Example compileLet_takes_pair_form :
  let s := snd (run_program bare_host 20 "demo"
                  [app "set" [SSym "f"; app "fn" [SNil; let_pair_sexp]]]
                  initial_state) in
  let f := default nil (env_map (default (mkEnv ∅ 0) (envs s !! global s))
                          !! "f"%string) in
  fst (build_func_ir 20 (get_func f) s)
  = Ok (Some (IR.mkFunction (get_func f)
                [IR.LetStores [("x"%string, IR.ConstantFP (double_to_bits 1))]
                   [IR.LoadLocal "x"]])).
Proof. vm_compute. reflexivity. Qed.

End LetFacts.

(** ** Structural equality *)

Module EqualFacts.
Export ArithFacts LetFacts.

(** Structural equality as the specification words it: identical bit
    patterns; or two numbers equal by IEEE [==]; or two strings, or two
    symbols, of the same text; or two pairs whose [car]s and whose [cdr]s
    are structurally equal. *)
Inductive struct_equal (s : State) : Value -> Value -> Prop :=
| se_identical v : struct_equal s v v
| se_number a b :
    get_type a = TNUMBER -> get_type b = TNUMBER ->
    feq (get_number a) (get_number b) = true ->
    struct_equal s a b
| se_string a b x :
    get_type a = TSTRING -> get_type b = TSTRING ->
    strings s !! get_payload_raw a = Some x ->
    strings s !! get_payload_raw b = Some x ->
    struct_equal s a b
| se_symbol a b x :
    get_type a = TSYMBOL -> get_type b = TSYMBOL ->
    strings s !! get_payload_raw a = Some x ->
    strings s !! get_payload_raw b = Some x ->
    struct_equal s a b
| se_pair a b a1 d1 a2 d2 :
    cell s a a1 d1 -> cell s b a2 d2 ->
    struct_equal s a1 a2 -> struct_equal s d1 d2 ->
    struct_equal s a b.

(** [finite s n v]: below [v] the heap holds a tree of pairs of depth at
    most [n], and every string or symbol in it has its text. *)
Inductive finite (s : State) : nat -> Value -> Prop :=
| finite_leaf n v :
    get_type v <> TPAIR ->
    (get_type v = TSTRING \/ get_type v = TSYMBOL ->
     is_Some (strings s !! get_payload_raw v)) ->
    finite s n v
| finite_pair n v a d :
    cell s v a d -> finite s n a -> finite s n d -> finite s (S n) v.

Lemma finite_S s n v : finite s n v -> finite s (S n) v.
Proof.
  induction 1.
  - now constructor.
  - econstructor 2; eauto.
Qed.

Lemma finite_le s n m v : (n <= m)%nat -> finite s n v -> finite s m v.
Proof. induction 1; auto using finite_S. Qed.

Lemma cell_type s p a d : cell s p a d -> get_type p = TPAIR.
Proof. intros [P _]. now apply is_pair_type. Qed.

Lemma type_pair_is_pair v : get_type v = TPAIR -> is_pair v = true.
Proof. intros T. unfold is_pair, truthy, is_type. now rewrite T. Qed.

Lemma get_string_Some s v x :
  strings s !! get_payload_raw v = Some x -> get_string v s = (Ok x, s).
Proof. apply get_symbol_Some. Qed.

Lemma Value_eqb_eq a b : Value_eqb a b = true <-> a = b.
Proof. apply Z.eqb_eq. Qed.

Lemma Type_eqb_refl t : Type_eqb t t = true.
Proof. now destruct t. Qed.

Lemma Type_eqb_neq a b : Type_eqb a b = false <-> a <> b.
Proof.
  split.
  - intros H E. subst. now rewrite Type_eqb_refl in H.
  - intros H. destruct (Type_eqb a b) eqn:E; [| reflexivity].
    now apply Type_eqb_spec in E.
Qed.

Lemma truthy_type v : truthy v = negb (Type_eqb (get_type v) TNIL).
Proof. reflexivity. Qed.

Lemma not_truthy_type v : truthy v = false -> get_type v = TNIL.
Proof.
  rewrite truthy_type. intros H. apply negb_false_iff in H.
  now apply Type_eqb_spec.
Qed.

(** The kinds of the two sides of a structural equality that is not an
    identity. *)
Lemma struct_equal_types s a b :
  struct_equal s a b -> a = b \/
    (get_type a = get_type b /\
     (get_type a = TNUMBER \/ get_type a = TSTRING \/ get_type a = TSYMBOL
      \/ get_type a = TPAIR)).
Proof.
  destruct 1 as [v | a b Ta Tb _ | a b x Ta Tb _ _ | a b x Ta Tb _ _
                | a b a1 d1 a2 d2 Ca Cb _ _].
  - now left.
  - right. rewrite Ta, Tb. auto.
  - right. rewrite Ta, Tb. auto.
  - right. rewrite Ta, Tb. auto.
  - right. rewrite (cell_type _ _ _ _ Ca), (cell_type _ _ _ _ Cb). auto 6.
Qed.

Lemma finite_readable s n v :
  finite s n v ->
  get_type v = TSTRING \/ get_type v = TSYMBOL ->
  is_Some (strings s !! get_payload_raw v).
Proof.
  destruct 1 as [n v _ R | n v a d C _ _]; [exact R |].
  rewrite (cell_type _ _ _ _ C). now intros [? | ?].
Qed.

(** No structural equality between different values of a kind that is
    compared by identity, or of different kinds. *)
Lemma struct_equal_refuted s a b :
  a <> b ->
  get_type a <> get_type b \/
  (get_type a <> TNUMBER /\ get_type a <> TSTRING /\ get_type a <> TSYMBOL
   /\ get_type a <> TPAIR) ->
  ~ struct_equal s a b.
Proof.
  intros N H E. apply struct_equal_types in E as [E | [E1 E2]]; [contradiction |].
  destruct H as [H | (H1 & H2 & H3 & H4)]; [contradiction |].
  now destruct E2 as [E | [E | [E | E]]].
Qed.

Ltac refute_equal :=
  split; [discriminate |]; intros E; exfalso; revert E;
  apply struct_equal_refuted; [assumption |].

(** [value_equal] on a value that is not a pair: no recursion. *)
Lemma value_equal_leaf s fuel a b :
  get_type a <> TPAIR ->
  (get_type a = TSTRING \/ get_type a = TSYMBOL ->
   is_Some (strings s !! get_payload_raw a)) ->
  (get_type b = TSTRING \/ get_type b = TSYMBOL ->
   is_Some (strings s !! get_payload_raw b)) ->
  exists c, value_equal (S fuel) a b s = (Ok c, s)
            /\ (c = true <-> struct_equal s a b).
Proof.
  intros Na Ra Rb. cbn [value_equal].
  destruct (Value_eqb a b) eqn:Eab.
  { exists true. split; [reflexivity |]. split; [intros _ | reflexivity].
    apply Value_eqb_eq in Eab. subst. constructor. }
  assert (Nab : a <> b).
  { intros ->. unfold Value_eqb in Eab. now rewrite Z.eqb_refl in Eab. }
  destruct (truthy a) eqn:Ta; cbn [negb orb].
  2:{ exists false. split; [reflexivity |]. refute_equal.
      right. apply not_truthy_type in Ta. rewrite Ta. repeat split; discriminate. }
  destruct (truthy b) eqn:Tb; cbn [negb].
  2:{ exists false. split; [reflexivity |]. refute_equal.
      left. apply not_truthy_type in Tb. rewrite Tb.
      intros E. rewrite truthy_type, E in Ta. discriminate. }
  destruct (Type_eqb (get_type a) (get_type b)) eqn:Tab; cbn [negb].
  2:{ exists false. split; [reflexivity |]. refute_equal.
      left. now apply Type_eqb_neq. }
  apply Type_eqb_spec in Tab.
  destruct (get_type a) eqn:Tya.
  - (* TNIL *) rewrite truthy_type, Tya in Ta. discriminate.
  - (* TPAIR *) congruence.
  - (* TNUMBER *)
    exists (feq (get_number a) (get_number b)). split; [reflexivity |]. split.
    + intros F. now apply se_number.
    + intros E.
      inversion E as [v | ? ? T1 T2 F | ? ? ? T1 | ? ? ? T1
                     | ? ? a1 d1 a2 d2 Ca Cb S1 S2]; subst; try congruence.
      apply cell_type in Ca. congruence.
  - (* TSTRING *)
    destruct Ra as [x Hx]; [auto |]. destruct Rb as [y Hy]; [rewrite <- Tab; auto |].
    rewrite (bind_Ok _ _ _ _ _ (get_string_Some _ _ _ Hx)).
    rewrite (bind_Ok _ _ _ _ _ (get_string_Some _ _ _ Hy)).
    exists (String.eqb x y). split; [reflexivity |]. split.
    + intros F. apply String.eqb_eq in F. subst y. now apply (se_string s a b x).
    + intros E. apply String.eqb_eq.
      inversion E as [v | ? ? T1 T2 F | ? ? ? T1 T2 X1 X2 | ? ? ? T1 T2 X1 X2
                     | ? ? a1 d1 a2 d2 Ca Cb S1 S2]; subst; try congruence.
      apply cell_type in Ca. congruence.
  - (* TSYMBOL *)
    destruct Ra as [x Hx]; [auto |]. destruct Rb as [y Hy]; [rewrite <- Tab; auto |].
    rewrite (bind_Ok _ _ _ _ _ (get_symbol_Some _ _ _ Hx)).
    rewrite (bind_Ok _ _ _ _ _ (get_symbol_Some _ _ _ Hy)).
    exists (String.eqb x y). split; [reflexivity |]. split.
    + intros F. apply String.eqb_eq in F. subst y. now apply (se_symbol s a b x).
    + intros E. apply String.eqb_eq.
      inversion E as [v | ? ? T1 T2 F | ? ? ? T1 T2 X1 X2 | ? ? ? T1 T2 X1 X2
                     | ? ? a1 d1 a2 d2 Ca Cb S1 S2]; subst; try congruence.
      apply cell_type in Ca. congruence.
  - (* TFUNC *)
    exists false. split; [reflexivity |]. refute_equal.
    right. rewrite Tya. repeat split; discriminate.
  - exists false. split; [reflexivity |]. refute_equal.
    right. rewrite Tya. repeat split; discriminate.
  - exists false. split; [reflexivity |]. refute_equal.
    right. rewrite Tya. repeat split; discriminate.
  - exists false. split; [reflexivity |]. refute_equal.
    right. rewrite Tya. repeat split; discriminate.
Qed.

(** [value_equal] decides [struct_equal] on finite values. *)
Lemma value_equal_decides s n a :
  finite s n a ->
  forall fuel b, (n < fuel)%nat -> finite s n b ->
  exists c, value_equal fuel a b s = (Ok c, s)
            /\ (c = true <-> struct_equal s a b).
Proof.
  induction 1 as [n a Na Ra | n a a1 d1 Ca Fa1 IHa Fd1 IHd];
    intros [| fuel] b Hlt Fb; try lia.
  - apply value_equal_leaf; auto. now apply (finite_readable s n).
  - cbn [value_equal].
    destruct (Value_eqb a b) eqn:Eab.
    { exists true. split; [reflexivity |]. split; [intros _ | reflexivity].
      apply Value_eqb_eq in Eab. subst. constructor. }
    assert (Nab : a <> b).
    { intros ->. unfold Value_eqb in Eab. now rewrite Z.eqb_refl in Eab. }
    rewrite (proj1 (is_pair_true _ (proj1 Ca))). cbn [negb orb].
    destruct (truthy b) eqn:Tb; cbn [negb].
    2:{ exists false. split; [reflexivity |]. refute_equal.
        left. apply not_truthy_type in Tb.
        rewrite Tb, (cell_type _ _ _ _ Ca). discriminate. }
    rewrite (cell_type _ _ _ _ Ca).
    destruct (Type_eqb TPAIR (get_type b)) eqn:Tab; cbn [negb].
    2:{ exists false. split; [reflexivity |]. refute_equal.
        left. rewrite (cell_type _ _ _ _ Ca). now apply Type_eqb_neq. }
    apply Type_eqb_spec in Tab.
    inversion Fb as [? ? Nb _ | ? ? a2 d2 Cb Fa2 Fd2]; subst; [congruence |].
    rewrite (bind_Ok _ _ _ _ _ (get_pair_cell _ _ _ _ Ca)).
    rewrite (bind_Ok _ _ _ _ _ (get_pair_cell _ _ _ _ Cb)). cbn [car cdr].
    destruct (IHa fuel a2 ltac:(lia) Fa2) as (c1 & E1 & I1).
    rewrite (bind_Ok _ _ _ _ _ E1).
    destruct c1.
    + destruct (IHd fuel d2 ltac:(lia) Fd2) as (c2 & E2 & I2).
      exists c2. split; [exact E2 |]. split.
      * intros F. apply (se_pair s a b a1 d1 a2 d2); auto.
        -- now apply I1.
        -- now apply I2.
      * intros E. apply I2.
        inversion E as [v | ? ? T1 | ? ? ? T1 | ? ? ? T1
                       | ? ? a1' d1' a2' d2' Ca' Cb' S1 S2]; subst;
          try (rewrite (cell_type _ _ _ _ Ca) in T1; discriminate);
          try contradiction.
        destruct (cell_functional _ _ _ _ _ _ Ca Ca') as [-> ->].
        destruct (cell_functional _ _ _ _ _ _ Cb Cb') as [-> ->].
        exact S2.
    + exists false. split; [reflexivity |]. split; [discriminate |].
      intros E.
      inversion E as [v | ? ? T1 | ? ? ? T1 | ? ? ? T1
                     | ? ? a1' d1' a2' d2' Ca' Cb' S1 S2]; subst;
        try (rewrite (cell_type _ _ _ _ Ca) in T1; discriminate);
        try contradiction.
      destruct (cell_functional _ _ _ _ _ _ Ca Ca') as [-> ->].
      destruct (cell_functional _ _ _ _ _ _ Cb Cb') as [-> ->].
      apply I1 in S1. discriminate.
Qed.

Lemma get_bound_global s fuel name v n :
  binding s name (global s) (Some (global s, v)) n -> (n < fuel)%nat ->
  get_bound fuel name (global s) s = (Ok v, s).
Proof.
  intros B Hlt. unfold get_bound. rewrite bind_gets.
  assert (E : (if global s =? 0 then global s else global s) = global s)
    by now destruct (global s =? 0).
  rewrite E. now rewrite (bind_Ok _ _ _ _ _ (find_binding_walk _ _ _ _ _ B fuel Hlt)).
Qed.

(** [t] is the symbol [#t]. *)
Definition is_true_symbol (s : State) (t : Value) : Prop :=
  get_type t = TSYMBOL /\ strings s !! get_payload_raw t = Some "#t"%string.

(** On two finite arguments [=] answers with what [get_bound] finds for
    the name [#t] from the global environment when they are structurally
    equal, and with nil when they are not. *)
Lemma do_builtin_eq_finite s args a b n fuel :
  two_args s args a b -> finite s n a -> finite s n b -> (n < fuel)%nat ->
  exists c : bool,
    do_builtin_eq fuel args s
    = (if c then get_bound fuel "#t" (global s) s else (Ok nil, s))
    /\ (c = true <-> struct_equal s a b).
Proof.
  intros A Fa Fb Hlt.
  destruct (value_equal_decides s n a Fa fuel b Hlt Fb) as (c & E & I).
  exists c. split; [| exact I].
  unfold do_builtin_eq.
  rewrite (bind_Ok _ _ _ _ _ (not_two_arguments_two _ _ _ _ A)).
  destruct A as (x & u & C1 & C2 & U).
  rewrite (bind_Ok _ _ _ _ _ (pair_car_cell _ _ _ _ C1)).
  rewrite (bind_Ok _ _ _ _ _ (pair_cdr_cell _ _ _ _ C1)).
  rewrite (bind_Ok _ _ _ _ _ (pair_car_cell _ _ _ _ C2)).
  rewrite (bind_Ok _ _ _ _ _ E).
  now destruct c.
Qed.

(** C10, as amended.  Applied to exactly two arguments [a] and [b] that
    are finite structures, the builtin [=] returns what [get_bound] finds
    for the name [#t] from the global environment when [a] and [b] are
    structurally equal, and nil when they are not.  As long as the global
    environment binds [#t] to the symbol [#t], as the constructor of the
    state leaves it, the answer for equal arguments is that symbol.  It
    throws for no kind of argument, whereas the ordering builtins return
    normally on two numbers only. *)
Theorem eq_builtin_structural (s : State) (args a b : Value) (n fuel : nat) :
  two_args s args a b ->
  finite s n a -> finite s n b ->
  (n < fuel)%nat ->
  (exists c : bool,
      do_builtin_eq fuel args s
      = (if c then get_bound fuel "#t" (global s) s else (Ok nil, s))
      /\ (c = true <-> struct_equal s a b))
  /\ (forall t, is_true_symbol s t ->
        binding s "#t" (global s) (Some (global s, t)) 0 ->
        exists c : bool,
          do_builtin_eq fuel args s = (Ok (if c then t else nil), s)
          /\ (c = true <-> struct_equal s a b))
  /\ (forall e, fst (do_builtin_eq fuel args s) <> Throw e)
  /\ (forall cmp name v s1,
        compare_binary fuel args cmp name s = (Ok v, s1) ->
        is_number a /\ is_number b).
Proof.
  intros A Fa Fb Hlt.
  destruct (do_builtin_eq_finite s args a b n fuel A Fa Fb Hlt) as (c & E & I).
  split; [| split; [| split]].
  - now exists c.
  - intros t _ B. exists c. split; [| exact I]. rewrite E.
    destruct c; [| reflexivity].
    apply (get_bound_global s fuel "#t"%string t 0%nat B). lia.
  - intros e. rewrite E. destruct c; [| discriminate].
    apply no_throw_get_bound.
  - intros cmp name v s1 H.
    apply compare_binary_Ok_inv in H as (a' & b' & A' & Na & Nb).
    now destruct (two_args_functional _ _ _ _ _ _ A A') as [-> ->].
Qed.

(** Two equal lists at different addresses: the two elements of
    [((1 "a") (1 "a"))], read into the initial state. *)
Definition eq_demo_read : Res Value * State :=
  intern_sexp "demo"
    (slist [slist [num 1; SStr "a"]; slist [num 1; SStr "a"]]) initial_state.
Definition eq_demo_args : Value :=
  match fst eq_demo_read with Ok v => v | _ => nil end.
Definition eq_demo_state : State := snd eq_demo_read.
Definition eq_demo_t : Value :=
  default nil (symbol_intern eq_demo_state !! "#t"%string).

Ltac prove_finite :=
  repeat first
    [ apply finite_leaf;
      [ vm_compute; congruence
      | intros H;
        first [ destruct H as [H | H]; vm_compute in H; discriminate
              | vm_compute; eexists; reflexivity ] ]
    | eapply finite_pair; [split; vm_compute; reflexivity | |] ].

Lemma eq_builtin_structural_witness :
  exists a b,
    two_args eq_demo_state eq_demo_args a b /\ a <> b
    /\ exists c : bool,
         do_builtin_eq 3 eq_demo_args eq_demo_state
         = (Ok (if c then eq_demo_t else nil), eq_demo_state)
         /\ (c = true <-> struct_equal eq_demo_state a b).
Proof.
  assert (A : exists a b, two_args eq_demo_state eq_demo_args a b /\ a <> b
                          /\ finite eq_demo_state 2 a
                          /\ finite eq_demo_state 2 b).
  { eexists _, _. split; [| split; [| split]].
    - eexists _, _. repeat split; vm_compute; reflexivity.
    - vm_compute. congruence.
    - prove_finite.
    - prove_finite. }
  destruct A as (a & b & A & N & Fa & Fb). exists a, b.
  split; [exact A |]. split; [exact N |].
  apply (proj1 (proj2 (eq_builtin_structural eq_demo_state eq_demo_args a b 2 3 A Fa Fb
                         ltac:(lia)))).
  - split; vm_compute; reflexivity.
  - eapply (binding_here eq_demo_state "#t" (global eq_demo_state)
              (default (mkEnv ∅ 0) (envs eq_demo_state !! global eq_demo_state)));
      vm_compute; congruence.
Defined.

(** On that input [=] answers [#t]; on a string and a number it answers
    nil where [<] throws. *)
Example eq_demo_true :
  fst (do_builtin_eq 3 eq_demo_args eq_demo_state) = Ok eq_demo_t.
Proof. vm_compute. reflexivity. Qed.

Example eq_no_type_error :
  fst (run_program bare_host 20 "demo" [app "=" [SStr "a"; num 1]] initial_state)
  = Ok nil
  /\ fst (run_program bare_host 20 "demo" [app "<" [SStr "a"; num 1]] initial_state)
     = Throw (RuntimeError "<: expected number, got string").
Proof. split; vm_compute; reflexivity. Qed.

(** The claim as worded: in whatever state, when [=] returns on two
    arguments it returns the symbol [#t] if they are structurally equal
    and nil if they are not. *)
Definition eq_returns_true_symbol : Prop :=
  forall (s : State) (args a b v : Value) (fuel : nat),
    two_args s args a b ->
    fst (do_builtin_eq fuel args s) = Ok v ->
    (struct_equal s a b -> is_true_symbol s v)
    /\ (~ struct_equal s a b -> v = nil).

(** The arguments [(1 1)] read into the state that [(set #t nil)] leaves. *)
Definition rebound_read : Res Value * State :=
  intern_sexp "demo" (slist [num 1; num 1])
    (snd (run_program bare_host 20 "demo" [app "set" [SSym "#t"; SNil]]
            initial_state)).
Definition rebound_args : Value :=
  match fst rebound_read with Ok v => v | _ => nil end.
Definition rebound_state : State := snd rebound_read.

Lemma rebound_args_two :
  two_args rebound_state rebound_args (make_number d1) (make_number d1).
Proof.
  exists (set_payload_raw kTagPair (get_payload_raw rebound_args + 64)), nil.
  split; [split; vm_compute; reflexivity |].
  split; [split; vm_compute; reflexivity | reflexivity].
Qed.

(** C10, counterexample.  After [(set #t nil)] the builtin [=] returns nil
    on the equal numbers 1 and 1: what it returns for equal arguments is
    the value bound to the name [#t], not the symbol. *)
Lemma eq_after_rebinding_true : ~ eq_returns_true_symbol.
Proof.
  intros H.
  destruct (H rebound_state rebound_args (make_number d1) (make_number d1)
              nil 3%nat rebound_args_two ltac:(vm_compute; reflexivity))
    as [H1 _].
  destruct (H1 (se_identical _ _)) as [T _].
  vm_compute in T. discriminate T.
Qed.

(** The same from source: [=] on 1 and 1 after [#t] was set to nil, and
    after it was set to 5. *)
Example eq_rebound_demo :
  fst (run_program bare_host 20 "demo"
         [app "set" [SSym "#t"; SNil]; app "=" [num 1; num 1]] initial_state)
  = Ok nil
  /\ fst (run_program bare_host 20 "demo"
            [app "set" [SSym "#t"; num 5]; app "=" [num 1; num 1]]
            initial_state)
     = Ok (make_number (double_to_bits 5)).
Proof. split; vm_compute; reflexivity. Qed.

(** Two pairs at different addresses, each its own [cdr]: the recursion
    of [value_equal] on them has no end. *)
Lemma value_equal_cyclic s a b x :
  a <> b -> cell s a x a -> cell s b x b ->
  forall fuel, value_equal fuel a b s = (OutOfFuel, s).
Proof.
  intros N Ca Cb. induction fuel as [| n IH]; [reflexivity |].
  cbn [value_equal].
  assert (E : Value_eqb a b = false) by (apply Z.eqb_neq; exact N).
  rewrite E.
  rewrite (proj1 (is_pair_true _ (proj1 Ca))),
    (proj1 (is_pair_true _ (proj1 Cb))). cbn [negb orb].
  rewrite (cell_type _ _ _ _ Ca), (cell_type _ _ _ _ Cb). cbn [Type_eqb negb].
  rewrite (bind_Ok _ _ _ _ _ (get_pair_cell _ _ _ _ Ca)).
  rewrite (bind_Ok _ _ _ _ _ (get_pair_cell _ _ _ _ Cb)). cbn [car cdr].
  destruct n as [| m]; [reflexivity |].
  assert (Ex : value_equal (S m) x x s = (Ok true, s)).
  { cbn [value_equal]. unfold Value_eqb. now rewrite Z.eqb_refl. }
  rewrite (bind_Ok _ _ _ _ _ Ex). exact IH.
Qed.

(** So [=] returns for no amount of fuel when given two such pairs. *)
Lemma eq_cyclic_never_returns s args a b x :
  two_args s args a b -> a <> b -> cell s a x a -> cell s b x b ->
  forall fuel, do_builtin_eq fuel args s = (OutOfFuel, s).
Proof.
  intros A N Ca Cb fuel. unfold do_builtin_eq.
  rewrite (bind_Ok _ _ _ _ _ (not_two_arguments_two _ _ _ _ A)).
  destruct A as (t & u & C1 & C2 & U).
  rewrite (bind_Ok _ _ _ _ _ (pair_car_cell _ _ _ _ C1)).
  rewrite (bind_Ok _ _ _ _ _ (pair_cdr_cell _ _ _ _ C1)).
  rewrite (bind_Ok _ _ _ _ _ (pair_car_cell _ _ _ _ C2)).
  unfold bind. now rewrite (value_equal_cyclic s a b x N Ca Cb fuel).
Qed.

(** Such pairs are built by [setcdr]; the comparison of the two is still
    running when the fuel is used up. *)
Example eq_cyclic_demo :
  fst (run_program bare_host 30 "demo"
         [ app "set" [SSym "a"; app "cons" [num 1; SNil]];
           app "setcdr" [SSym "a"; SSym "a"];
           app "set" [SSym "b"; app "cons" [num 1; SNil]];
           app "setcdr" [SSym "b"; SSym "b"];
           app "=" [SSym "a"; SSym "b"] ] initial_state)
  = OutOfFuel.
Proof. vm_compute. reflexivity. Qed.

End EqualFacts.

(** ** The [argv] binding of [main] *)

Module ArgvFacts.
Export EqualFacts.

(** The value bound to [name] in the global environment. *)
Definition global_binding (s : State) (name : string) : option Value :=
  d ← envs s !! global s; env_map d !! name.

(** The strings of a proper list of string values. *)
Fixpoint read_string_list (fuel : nat) (s : State) (v : Value)
  : option (list string) :=
  match fuel with
  | O => None
  | S n =>
      if negb (truthy v) then Some []
      else if is_pair v then
        pd ← pairs s !! get_payload_raw v;
        x ← (if is_type (car pd) TSTRING
             then strings s !! get_payload_raw (car pd) else None);
        rest ← read_string_list n s (cdr pd);
        Some (x :: rest)
      else None
  end.

(** The state in which user code starts when the process was started as
    [argv]: [State::State()], then the binding of [argv]. *)
Definition state_at_start (argv : list string) : State :=
  snd ((State_ctor ;;; bind_argv argv) empty_state).

(** C4, evaluated.  Started with only a script path, the process binds
    [argv] to the one-element list holding that path, not to the empty
    list; with further arguments the path stays the first element: the
    list starts at index 1 of the C [argv]. *)
Theorem argv_starts_at_script_path :
  (global_binding (state_at_start ["vdlisp"; "script.lisp"]) "argv"
     ≫= read_string_list 8 (state_at_start ["vdlisp"; "script.lisp"]))
  = Some ["script.lisp"]
  /\ (global_binding (state_at_start ["vdlisp"; "script.lisp"; "a"; "b"]) "argv"
        ≫= read_string_list 8 (state_at_start ["vdlisp"; "script.lisp"; "a"; "b"]))
     = Some ["script.lisp"; "a"; "b"]
  /\ (global_binding (state_at_start ["vdlisp"]) "argv"
        ≫= read_string_list 8 (state_at_start ["vdlisp"]))
     = Some [].
Proof. repeat split; vm_compute; reflexivity. Qed.

End ArgvFacts.

(* ===================================================================== *)
(** ** Properties of the state kept by a computation *)
(* ===================================================================== *)

Module Keeps.
Export ArgvFacts.

(** [keeps P m]: whenever [m] ends, other than by leaving the process, in
    a state reached from one that satisfies [P], that state satisfies [P]. *)
Definition keeps {A} (P : State -> Prop) (m : M A) : Prop :=
  forall s r s', m s = (r, s') -> (forall c, r <> Exit c) -> P s -> P s'.

Section Rules.
Context {A B : Type} (P : State -> Prop).

Lemma keeps_ret (a : A) : keeps P (ret a).
Proof. intros s r s' H _ HP. inversion H. now subst. Qed.

Lemma keeps_throw (e : Error) : keeps P (@throw A e).
Proof. intros s r s' H _ HP. inversion H. now subst. Qed.

Lemma keeps_fault : keeps P (@fault A).
Proof. intros s r s' H _ HP. inversion H. now subst. Qed.

Lemma keeps_out_of_fuel : keeps P (@out_of_fuel A).
Proof. intros s r s' H _ HP. inversion H. now subst. Qed.

Lemma keeps_gets (f : State -> A) : keeps P (gets f).
Proof. intros s r s' H _ HP. inversion H. now subst. Qed.

Lemma keeps_from_option (o : option A) : keeps P (from_option o).
Proof. destruct o; [apply keeps_ret | apply keeps_fault]. Qed.

Lemma keeps_bind (m : M A) (k : A -> M B) :
  keeps P m -> (forall a, keeps P (k a)) -> keeps P (bind m k).
Proof.
  intros Hm Hk s r s' H Hr HP. unfold bind in H.
  destruct (m s) as [[a | e | | | c] s1] eqn:E.
  - apply (Hk a s1 r s' H Hr). apply (Hm s _ s1 E); [discriminate | exact HP].
  - inversion H; subst. apply (Hm s _ s' E); [discriminate | exact HP].
  - inversion H; subst. apply (Hm s _ s' E); [discriminate | exact HP].
  - inversion H; subst. apply (Hm s _ s' E); [discriminate | exact HP].
  - inversion H; subst. now destruct (Hr c).
Qed.

Lemma keeps_catch_all (m : M A) (hd : Error -> M A) :
  keeps P m -> (forall e, keeps P (hd e)) -> keeps P (catch_all m hd).
Proof.
  intros Hm Hh s r s' H Hr HP. unfold catch_all in H.
  destruct (m s) as [[a | e | | | c] s1] eqn:E.
  - inversion H; subst. apply (Hm s _ s' E); [discriminate | exact HP].
  - apply (Hh e s1 r s' H Hr). apply (Hm s _ s1 E); [discriminate | exact HP].
  - inversion H; subst. apply (Hm s _ s' E); [discriminate | exact HP].
  - inversion H; subst. apply (Hm s _ s' E); [discriminate | exact HP].
  - inversion H; subst. now destruct (Hr c).
Qed.

Lemma keeps_modify (f : State -> State) :
  (forall s, P s -> P (f s)) -> keeps P (modify f).
Proof. intros Hf s r s' H _ HP. inversion H. subst. now apply Hf. Qed.

Lemma keeps_finally (m : M A) (f : State -> State) :
  keeps P m -> (forall s, P s -> P (f s)) -> keeps P (finally m f).
Proof.
  intros Hm Hf s r s' H Hr HP. unfold finally in H.
  destruct (m s) as [r1 s1] eqn:E. inversion H; subst.
  apply Hf. now apply (Hm s r s1 E).
Qed.

(** The process leaves: nothing to keep. *)
Lemma keeps_exit (c : Z) (f : State -> State) :
  keeps P (fun s => (@Exit A c, f s)).
Proof. intros s r s' H Hr _. inversion H; subst. now destruct (Hr c). Qed.
End Rules.

Section EmitterRules.
Context {A B : Type} (P : State -> Prop).

Lemma keeps_eret (a : A) l : keeps P (eret a l).
Proof. apply keeps_ret. Qed.

Lemma keeps_enull l : keeps P (@enull A l).
Proof. apply keeps_ret. Qed.

Lemma keeps_elift (m : M A) l : keeps P m -> keeps P (elift m l).
Proof. intros H. apply keeps_bind; [exact H |]. intros a. apply keeps_ret. Qed.

Lemma keeps_ebind (m : E A) (k : A -> E B) l :
  (forall l, keeps P (m l)) -> (forall a l, keeps P (k a l)) ->
  keeps P (ebind m k l).
Proof.
  intros Hm Hk. apply keeps_bind; [apply Hm |].
  intros [[a l'] |]; [apply Hk | apply keeps_ret].
Qed.

Lemma keeps_ensure_local name l : keeps P (ensure_local name l).
Proof. apply keeps_ret. Qed.

Lemma keeps_has_local name l : keeps P (has_local name l).
Proof. apply keeps_ret. Qed.
End EmitterRules.

Create HintDb keeps discriminated.

(** The structural steps; what is left are the calls of functions with
    a lemma in the hint database and the [modify] steps. *)
Ltac keeps_struct :=
  first
    [ assumption
    | apply keeps_ret | apply keeps_gets | apply keeps_throw
    | apply keeps_fault | apply keeps_out_of_fuel | apply keeps_from_option
    | apply keeps_eret | apply keeps_enull | apply keeps_ensure_local
    | apply keeps_has_local | apply keeps_exit
    | match goal with
      | |- keeps _ (if ?c then _ else _) => destruct c
      | |- keeps _ ((if ?c then _ else _) _) => destruct c
      | |- keeps _ (match ?x with _ => _ end) => destruct x
      | |- keeps _ ((match ?x with _ => _ end) _) => destruct x
      | |- keeps _ (bind _ _) => apply keeps_bind; [| intros]
      | |- keeps _ (catch_all _ _) => apply keeps_catch_all; [| intros]
      | |- keeps _ (ebind _ _ _) => apply keeps_ebind; intros
      | |- keeps _ (elift _ _) => apply keeps_elift
      end ].

Ltac keeps_go :=
  intros; repeat first [ solve [auto 3 with keeps] | keeps_struct ].

(** *** Computations that only read *)

Section ReadOnly.
Variable P : State -> Prop.

Lemma keeps_get_pair v : keeps P (get_pair v).
Proof. unfold get_pair. keeps_go. Qed.
Lemma keeps_get_string v : keeps P (get_string v).
Proof. unfold get_string. keeps_go. Qed.
Lemma keeps_get_symbol v : keeps P (get_symbol v).
Proof. apply keeps_get_string. Qed.
Lemma keeps_read_func fd : keeps P (read_func fd).
Proof. unfold read_func. keeps_go. Qed.
Lemma keeps_read_macro fd : keeps P (read_macro fd).
Proof. unfold read_macro. keeps_go. Qed.
Lemma keeps_read_env e : keeps P (read_env e).
Proof. unfold read_env. keeps_go. Qed.
#[local] Hint Resolve keeps_get_pair keeps_get_string keeps_get_symbol keeps_read_func
  keeps_read_macro keeps_read_env : keeps.

Lemma keeps_pair_car v : keeps P (pair_car v).
Proof. unfold pair_car. keeps_go. Qed.
Lemma keeps_pair_cdr v : keeps P (pair_cdr v).
Proof. unfold pair_cdr. keeps_go. Qed.
Lemma keeps_is_symbol v name : keeps P (is_symbol v name).
Proof. unfold is_symbol. keeps_go. Qed.
Lemma keeps_get_source_loc v : keeps P (get_source_loc v).
Proof. unfold get_source_loc. keeps_go. Qed.
#[local] Hint Resolve keeps_pair_car keeps_pair_cdr keeps_is_symbol
  keeps_get_source_loc : keeps.

Lemma keeps_find_binding fuel : forall e key, keeps P (find_binding fuel e key).
Proof. induction fuel; intros; cbn [find_binding]; keeps_go. Qed.
#[local] Hint Resolve keeps_find_binding : keeps.

Lemma keeps_get_bound fuel name env : keeps P (get_bound fuel name env).
Proof. unfold get_bound. keeps_go. Qed.

Lemma keeps_param_index_of fuel :
  forall p idx acc, keeps P (param_index_of fuel p idx acc).
Proof. induction fuel; intros; cbn [param_index_of]; keeps_go. Qed.

Lemma keeps_scan_numeric fuel : forall a darr, keeps P (scan_numeric fuel a darr).
Proof. induction fuel; intros; cbn [scan_numeric]; keeps_go. Qed.

Lemma keeps_func_is_compiled v : keeps P (func_is_compiled v).
Proof. unfold func_is_compiled. keeps_go. Qed.
#[local] Hint Resolve keeps_get_bound keeps_param_index_of keeps_scan_numeric
  keeps_func_is_compiled : keeps.

Lemma keeps_Value_type_name v : keeps P (Value_type_name v).
Proof. unfold Value_type_name. keeps_go. Qed.
#[local] Hint Resolve keeps_Value_type_name : keeps.
Lemma keeps_type_name v : keeps P (type_name v).
Proof. unfold type_name. keeps_go. Qed.
#[local] Hint Resolve keeps_type_name : keeps.
Lemma keeps_require_number v who : keeps P (require_number v who).
Proof. unfold require_number. keeps_go. Qed.
#[local] Hint Resolve keeps_require_number : keeps.

Lemma keeps_to_repr h fuel : forall v, keeps P (to_repr h fuel v).
Proof.
  induction fuel as [| n IH]; intros v; cbn [to_repr]; [keeps_go |].
  assert (Hel : forall x, keeps P (if truthy x then to_repr h n x
                                   else ret "nil"%string)) by keeps_go.
  destruct (get_type v); keeps_go.
  match goal with
  | |- keeps P (?F n ?c) =>
      assert (HF : forall k cur, keeps P (F k cur))
        by (induction k; intros; keeps_go);
      apply HF
  end.
Qed.
#[local] Hint Resolve keeps_to_repr : keeps.

Lemma keeps_to_string h fuel v : keeps P (to_string h fuel v).
Proof. unfold to_string. keeps_go. Qed.

Lemma keeps_value_equal fuel : forall a b, keeps P (value_equal fuel a b).
Proof. induction fuel; intros; cbn [value_equal]; keeps_go. Qed.

Lemma keeps_not_two_arguments args : keeps P (not_two_arguments args).
Proof. unfold not_two_arguments. keeps_go. Qed.
#[local] Hint Resolve keeps_to_string keeps_value_equal keeps_not_two_arguments : keeps.

Lemma keeps_arith_binary args op name :
  (forall a b, keeps P (op a b)) -> keeps P (arith_binary args op name).
Proof. unfold arith_binary. keeps_go. Qed.

Lemma keeps_compare_binary fuel args cmp name :
  keeps P (compare_binary fuel args cmp name).
Proof. unfold compare_binary. keeps_go. Qed.

Lemma keeps_do_builtin_eq fuel args : keeps P (do_builtin_eq fuel args).
Proof. unfold do_builtin_eq. keeps_go. Qed.

Lemma keeps_do_builtin_car args : keeps P (do_builtin_car args).
Proof. unfold do_builtin_car. keeps_go. Qed.
Lemma keeps_do_builtin_cdr args : keeps P (do_builtin_cdr args).
Proof. unfold do_builtin_cdr. keeps_go. Qed.

Lemma keeps_do_builtin_error h fuel args : keeps P (do_builtin_error h fuel args).
Proof. unfold do_builtin_error. keeps_go. Qed.

Lemma keeps_get_cfunc v : keeps P (get_cfunc v).
Proof. unfold get_cfunc. keeps_go. Qed.
Lemma keeps_get_prim v : keeps P (get_prim v).
Proof. unfold get_prim. keeps_go. Qed.

Lemma keeps_jit_lookup_number fuel env name :
  keeps P (jit_lookup_number fuel env name).
Proof. unfold jit_lookup_number. keeps_go. Qed.

Lemma keeps_require_candidates name : keeps P (require_candidates name).
Proof. unfold require_candidates. keeps_go. Qed.

(** The emitter reads the heap and builds a term. *)
Section Emitter.
Variable func : FuncData.
Variable pidx : gmap string Z.
Variable emit : Value -> E IR.Instr.
Hypothesis Hemit : forall v l, keeps P (emit v l).

Lemma keeps_emit_each fuel : forall x l, keeps P (emit_each emit fuel x l).
Proof. induction fuel; intros; cbn [emit_each]; keeps_go. Qed.

Lemma keeps_emit_each_cdr fuel : forall x l, keeps P (emit_each_cdr emit fuel x l).
Proof. induction fuel; intros; cbn [emit_each_cdr]; keeps_go. Qed.
#[local] Hint Resolve keeps_emit_each keeps_emit_each_cdr : keeps.

Lemma keeps_compileCond_clauses fuel :
  forall w l, keeps P (compileCond_clauses emit fuel w l).
Proof. induction fuel; intros; cbn [compileCond_clauses]; keeps_go. Qed.
#[local] Hint Resolve keeps_compileCond_clauses : keeps.

Lemma keeps_compileCond fuel c l : keeps P (compileCond emit fuel c l).
Proof. unfold compileCond. keeps_go. Qed.

Lemma keeps_compileWhile fuel r l : keeps P (compileWhile emit fuel r l).
Proof. unfold compileWhile. keeps_go. Qed.

Lemma keeps_compileLet_pairs fuel :
  forall b l, keeps P (compileLet_pairs emit fuel b l).
Proof. induction fuel; intros; cbn [compileLet_pairs]; keeps_go. Qed.

Lemma keeps_compileLet_flat fuel :
  forall b l, keeps P (compileLet_flat emit fuel b l).
Proof. induction fuel; intros; cbn [compileLet_flat]; keeps_go. Qed.
#[local] Hint Resolve keeps_compileLet_pairs keeps_compileLet_flat : keeps.

Lemma keeps_compileLet fuel r l : keeps P (compileLet emit fuel r l).
Proof. unfold compileLet. keeps_go. Qed.

Lemma keeps_emit_application fuel opname rest l :
  keeps P (emit_application func emit fuel opname rest l).
Proof.
  unfold emit_application. apply keeps_ebind; [keeps_go |].
  intros vals l0.
  destruct vals as [| x [| y [| z t]]]; keeps_go.
Qed.
#[local] Hint Resolve keeps_compileCond keeps_compileWhile keeps_compileLet
  keeps_emit_application : keeps.

Lemma keeps_emitExpr_body fuel expr l :
  keeps P (emitExpr_body func pidx emit fuel expr l).
Proof. unfold emitExpr_body. keeps_go. Qed.
End Emitter.

Lemma keeps_emitExpr func pidx fuel :
  forall expr l, keeps P (emitExpr func pidx fuel expr l).
Proof.
  induction fuel; intros; cbn [emitExpr]; [keeps_go |].
  now apply keeps_emitExpr_body.
Qed.

Lemma keeps_build_func_ir fuel fd : keeps P (build_func_ir fuel fd).
Proof.
  unfold build_func_ir. keeps_go.
  apply keeps_emit_each_cdr. apply keeps_emitExpr.
Qed.

Lemma keeps_collect_walk collect fuel :
  (forall v, keeps P (collect v)) ->
  forall w, keeps P (collect_walk collect fuel w).
Proof. intros Hc. induction fuel; intros; cbn [collect_walk]; keeps_go. Qed.

Lemma keeps_collect_called_funcs fuel closure :
  forall expr, keeps P (collect_called_funcs fuel closure expr).
Proof.
  induction fuel; intros; cbn [collect_called_funcs]; keeps_go.
  now apply keeps_collect_walk.
Qed.

End ReadOnly.

#[global] Hint Resolve keeps_get_pair keeps_get_string keeps_get_symbol
  keeps_read_func keeps_read_macro keeps_read_env keeps_pair_car
  keeps_pair_cdr keeps_is_symbol keeps_get_source_loc keeps_find_binding
  keeps_get_bound keeps_param_index_of keeps_scan_numeric
  keeps_func_is_compiled keeps_Value_type_name keeps_type_name
  keeps_require_number keeps_to_repr keeps_to_string keeps_value_equal
  keeps_not_two_arguments keeps_arith_binary keeps_compare_binary
  keeps_do_builtin_eq keeps_do_builtin_car keeps_do_builtin_cdr
  keeps_do_builtin_error keeps_get_cfunc keeps_get_prim
  keeps_jit_lookup_number keeps_require_candidates keeps_build_func_ir
  keeps_collect_called_funcs : keeps.

(** *** Properties of the state that the writes of the runtime respect *)

(** [P] looks at no table but the function records and the module
    cache, and of a function record at most at what [st_func] keeps. *)
Record Stable (P : State -> Prop) : Prop := mkStable
  { st_strings : forall f s, P s -> P (with_strings f s);
    st_pairs : forall f s, P s -> P (with_pairs f s);
    st_macros : forall f s, P s -> P (with_macros f s);
    st_envs : forall f s, P s -> P (with_envs f s);
    st_brk : forall f s, P s -> P (with_brk f s);
    st_global : forall f s, P s -> P (with_global f s);
    st_symbol_intern : forall f s, P s -> P (with_symbol_intern f s);
    st_current_expr : forall f s, P s -> P (with_current_expr f s);
    st_src_map : forall f s, P s -> P (with_src_map f s);
    st_src_call_chain_map :
      forall f s, P s -> P (with_src_call_chain_map f s);
    st_jit_active_state : forall f s, P s -> P (with_jit_active_state f s);
    st_module_for_fn : forall f s, P s -> P (with_module_for_fn f s);
    st_cout : forall f s, P s -> P (with_cout f s);
    st_func :
      forall fd d d' s,
        funcs s !! fd = Some d ->
        num_call_count d' = num_call_count d ->
        P s -> P (with_funcs (insert fd d') s) }.

Ltac stable_field HP :=
  first [ apply (st_strings _ HP) | apply (st_pairs _ HP)
        | apply (st_macros _ HP) | apply (st_envs _ HP)
        | apply (st_brk _ HP) | apply (st_global _ HP)
        | apply (st_symbol_intern _ HP) | apply (st_current_expr _ HP)
        | apply (st_src_map _ HP) | apply (st_src_call_chain_map _ HP)
        | apply (st_jit_active_state _ HP) | apply (st_module_for_fn _ HP)
        | apply (st_cout _ HP) ].

Ltac keeps_write :=
  match goal with
  | HP : Stable ?P |- keeps ?P (modify _) =>
      apply keeps_modify; intros; stable_field HP; assumption
  end.

Ltac keeps_all := intros; repeat first [ solve [auto 3 with keeps] | keeps_write | keeps_struct ].

Section Writes.
Variable P : State -> Prop.
Hypothesis HP : Stable P.

Lemma keeps_alloc : keeps P alloc.
Proof.
  intros s r s' H _ Hs. unfold alloc in H. injection H as _ <-.
  now apply (st_brk _ HP).
Qed.
#[local] Hint Resolve keeps_alloc : keeps.

Lemma keeps_alloc_string str : keeps P (alloc_string str).
Proof. unfold alloc_string. keeps_all. Qed.
Lemma keeps_alloc_pair a d : keeps P (alloc_pair a d).
Proof. unfold alloc_pair. keeps_all. Qed.
Lemma keeps_alloc_macro ps bd e : keeps P (alloc_macro ps bd e).
Proof. unfold alloc_macro. keeps_all. Qed.
Lemma keeps_alloc_env : keeps P alloc_env.
Proof. unfold alloc_env. keeps_all. Qed.
#[local] Hint Resolve keeps_alloc_string keeps_alloc_pair keeps_alloc_macro
  keeps_alloc_env : keeps.

Lemma keeps_make_env parent : keeps P (make_env parent).
Proof. unfold make_env. keeps_all. Qed.
Lemma keeps_make_string str : keeps P (make_string str).
Proof. unfold make_string. keeps_all. Qed.
Lemma keeps_make_symbol str : keeps P (make_symbol str).
Proof. unfold make_symbol. keeps_all. Qed.
Lemma keeps_make_pair a d : keeps P (make_pair a d).
Proof. unfold make_pair. keeps_all. Qed.
Lemma keeps_make_macro ps bd e : keeps P (make_macro ps bd e).
Proof. unfold make_macro. keeps_all. Qed.
Lemma keeps_write_env e d : keeps P (write_env e d).
Proof. unfold write_env. keeps_all. Qed.
#[local] Hint Resolve keeps_make_env keeps_make_string keeps_make_symbol
  keeps_make_pair keeps_make_macro keeps_write_env : keeps.

(** A record of a function rewritten with its counter kept. *)
Lemma keeps_rewrite_func fd (upd : FuncData -> FuncData) :
  (forall d, num_call_count (upd d) = num_call_count d) ->
  keeps P (let! d := read_func fd in write_func fd (upd d)).
Proof.
  intros Hupd s r s' H _ Hs.
  unfold read_func, write_func, bind, gets, from_option, modify in H.
  destruct (funcs s !! fd) as [d |] eqn:Hd; cbn in H.
  - injection H as _ <-. now apply (st_func _ HP fd d).
  - unfold fault in H. injection H as _ <-. exact Hs.
Qed.

Lemma keeps_set_compiled_code fd c : keeps P (set_compiled_code fd c).
Proof.
  apply (keeps_rewrite_func fd
           (fun d => mkFunc (params d) (body d) (closure_env d) (call_count d)
                       (num_call_count d) c (jit_failed d))).
  reflexivity.
Qed.

Lemma keeps_set_jit_failed fd b : keeps P (set_jit_failed fd b).
Proof.
  apply (keeps_rewrite_func fd
           (fun d => mkFunc (params d) (body d) (closure_env d) (call_count d)
                       (num_call_count d) (compiled_code d) b)).
  reflexivity.
Qed.

Lemma keeps_pair_set_car p v : keeps P (pair_set_car p v).
Proof. unfold pair_set_car. keeps_all. Qed.
Lemma keeps_pair_set_cdr p v : keeps P (pair_set_cdr p v).
Proof. unfold pair_set_cdr. keeps_all. Qed.
Lemma keeps_set_source_loc v f l c : keeps P (set_source_loc v f l c).
Proof. unfold set_source_loc. keeps_all. Qed.
Lemma keeps_env_store e key v : keeps P (env_store e key v).
Proof. unfold env_store. keeps_all. Qed.
#[local] Hint Resolve keeps_set_compiled_code keeps_set_jit_failed
  keeps_pair_set_car keeps_pair_set_cdr keeps_set_source_loc
  keeps_env_store : keeps.

Lemma keeps_bind_global name v : keeps P (bind_global name v).
Proof. unfold bind_global. keeps_all. Qed.
Lemma keeps_bind_ sym v env : keeps P (bind_ sym v env).
Proof. unfold bind_. keeps_all. Qed.
#[local] Hint Resolve keeps_bind_global keeps_bind_ : keeps.

Lemma keeps_set_ fuel sym v env : keeps P (set_ fuel sym v env).
Proof. unfold set_. keeps_all. Qed.

Lemma keeps_bind_params_to_env fuel out :
  forall p a fill, keeps P (bind_params_to_env fuel out p a fill).
Proof. induction fuel; intros; cbn [bind_params_to_env]; keeps_all. Qed.
#[local] Hint Resolve keeps_set_ keeps_bind_params_to_env : keeps.

(** *** The compiler *)

Lemma keeps_compileFunctionFromBuilder b :
  keeps P b -> keeps P (compileFunctionFromBuilder b).
Proof. intros Hb. unfold compileFunctionFromBuilder. keeps_all. Qed.

Lemma keeps_compileFuncData fuel : forall func, keeps P (compileFuncData fuel func).
Proof.
  induction fuel; intros; cbn [compileFuncData]; [keeps_all |].
  destruct (func =? 0); [keeps_all |].
  apply keeps_bind; [keeps_all |]. intros fdata.
  apply keeps_bind; [keeps_all |]. intros to_compile.
  apply keeps_bind.
  - induction to_compile as [| fd l IHl]; keeps_all.
  - intros _. apply keeps_catch_all.
    + apply keeps_bind.
      * apply keeps_compileFunctionFromBuilder. keeps_all.
      * keeps_all.
    + keeps_all.
Qed.
#[local] Hint Resolve keeps_compileFuncData : keeps.

Lemma keeps_maybe_compile fuel fd : keeps P (maybe_compile fuel fd).
Proof. unfold maybe_compile. keeps_all. Qed.

(** *** The reader *)

Lemma keeps_push_back head last v : keeps P (push_back head last v).
Proof. unfold push_back. keeps_all. Qed.
#[local] Hint Resolve keeps_push_back : keeps.

Lemma keeps_intern_sexp name : forall x, keeps P (intern_sexp name x).
Proof. induction x; cbn [intern_sexp]; keeps_all. Qed.
#[local] Hint Resolve keeps_intern_sexp : keeps.

Lemma keeps_parse h src name : keeps P (parse h src name).
Proof. unfold parse. keeps_all. Qed.

Lemma keeps_parse_all h src name : keeps P (parse_all h src name).
Proof.
  unfold parse_all. destruct (read_all h src) as [e | xs]; [keeps_all |].
  apply keeps_bind; [| keeps_all].
  generalize nil at 1. generalize SlotHead.
  induction xs as [| x l IHl]; keeps_all.
Qed.

End Writes.

#[global] Hint Resolve keeps_alloc keeps_alloc_string keeps_alloc_pair
  keeps_alloc_macro keeps_alloc_env keeps_make_env keeps_make_string
  keeps_make_symbol keeps_make_pair keeps_make_macro keeps_write_env
  keeps_set_compiled_code keeps_set_jit_failed keeps_pair_set_car
  keeps_pair_set_cdr keeps_set_source_loc keeps_env_store keeps_bind_global
  keeps_bind_ keeps_set_ keeps_bind_params_to_env keeps_compileFuncData
  keeps_maybe_compile keeps_push_back keeps_intern_sexp keeps_parse
  keeps_parse_all : keeps.

(** *** Compiled code and the builtins *)

Section Machine.
Variable P : State -> Prop.
Hypothesis HP : Stable P.

Section Run.
Variable call : Value -> Value -> M Value.
Hypothesis Hcall : forall f a, keeps P (call f a).

Lemma keeps_call_from_jit fd args : keeps P (call_from_jit call fd args).
Proof.
  unfold call_from_jit. apply keeps_catch_all; [| keeps_all].
  apply keeps_bind; [keeps_all |]. intros active.
  destruct (negb active); [keeps_all |].
  destruct (fd =? 0); [keeps_all |].
  apply keeps_bind; [| keeps_all].
  match goal with
  | |- keeps P (?F args nil SlotHead) =>
      assert (HF : forall l hd last, keeps P (F l hd last))
        by (induction l; intros; keeps_all);
      apply HF
  end.
Qed.
#[local] Hint Resolve keeps_call_from_jit : keeps.

Lemma keeps_run fuel :
  (forall args fr i, keeps P (run_instr call fuel args fr i)) /\
  (forall args fr l last, keeps P (run_seq call fuel args fr l last)) /\
  (forall args fr l, keeps P (run_args call fuel args fr l)) /\
  (forall args fr l, keeps P (run_stores call fuel args fr l)) /\
  (forall args fr cl, keeps P (run_cond call fuel args fr cl)) /\
  (forall args fr c b last, keeps P (run_while call fuel args fr c b last)) /\
  (forall fd args, keeps P (run_function call fuel fd args)).
Proof.
  induction fuel as [| n (Hi & Hs & Ha & Ht & Hc & Hw & Hf)].
  - repeat split; intros; apply keeps_out_of_fuel.
  - split; [| split; [| split; [| split; [| split; [| split]]]]]; intros.
    + cbn [run_instr]. destruct i; keeps_all.
    + cbn [run_seq]. keeps_all.
    + cbn [run_args]. keeps_all.
    + cbn [run_stores]. keeps_all.
    + cbn [run_cond]. keeps_all.
    + cbn [run_while]. keeps_all.
    + cbn [run_function]. keeps_all.
Qed.

Lemma keeps_run_entry fuel code args :
  keeps P (run_entry call fuel code args).
Proof.
  unfold run_entry. keeps_all. apply (keeps_run fuel).
Qed.
End Run.

Lemma keeps_do_builtin_add args : keeps P (do_builtin_add args).
Proof. unfold do_builtin_add. apply keeps_arith_binary. keeps_all. Qed.
Lemma keeps_do_builtin_sub args : keeps P (do_builtin_sub args).
Proof. unfold do_builtin_sub. apply keeps_arith_binary. keeps_all. Qed.
Lemma keeps_do_builtin_mul args : keeps P (do_builtin_mul args).
Proof. unfold do_builtin_mul. apply keeps_arith_binary. keeps_all. Qed.
Lemma keeps_do_builtin_div args : keeps P (do_builtin_div args).
Proof. unfold do_builtin_div. apply keeps_arith_binary. keeps_all. Qed.
Lemma keeps_do_builtin_type args : keeps P (do_builtin_type args).
Proof. unfold do_builtin_type. keeps_all. Qed.
Lemma keeps_do_builtin_cons args : keeps P (do_builtin_cons args).
Proof. unfold do_builtin_cons. keeps_all. Qed.
Lemma keeps_do_builtin_setcar args : keeps P (do_builtin_setcar args).
Proof. unfold do_builtin_setcar. keeps_all. Qed.
Lemma keeps_do_builtin_setcdr args : keeps P (do_builtin_setcdr args).
Proof. unfold do_builtin_setcdr. keeps_all. Qed.

Lemma keeps_do_builtin_print h fuel args : keeps P (do_builtin_print h fuel args).
Proof.
  unfold do_builtin_print. apply keeps_bind; [| keeps_all].
  match goal with
  | |- keeps P (?F fuel args true nil) =>
      assert (HF : forall k cur first last, keeps P (F k cur first last))
        by (induction k; intros; keeps_all);
      apply HF
  end.
Qed.

Lemma keeps_do_builtin_parse h args : keeps P (do_builtin_parse h args).
Proof. unfold do_builtin_parse. keeps_all. Qed.

Lemma keeps_clear_closure_env v : keeps P (clear_closure_env v).
Proof.
  unfold clear_closure_env.
  destruct (negb (truthy v)); [keeps_all |].
  destruct (is_type v TFUNC).
  - intros s r s' H _ Hs. unfold bind, gets in H.
    destruct (funcs s !! get_func v) as [d |] eqn:Hd.
    + unfold write_func, modify in H. injection H as _ <-.
      now apply (st_func _ HP (get_func v) d).
    + destruct (get_func v =? 0); inversion H; now subst.
  - keeps_all.
Qed.
#[local] Hint Resolve keeps_clear_closure_env : keeps.

Lemma keeps_for_each {A} (f : A -> M unit) l :
  (forall x, keeps P (f x)) -> keeps P (for_each f l).
Proof. intros Hf. induction l; cbn [for_each]; keeps_all. Qed.

Lemma keeps_shutdown_release fuel : keeps P (shutdown_release fuel).
Proof.
  unfold shutdown_release.
  apply keeps_bind; [keeps_all |]. intros tbl.
  apply keeps_bind; [apply keeps_for_each; keeps_all |]. intros _.
  apply keeps_bind; [keeps_all |]. intros _.
  apply keeps_bind; [keeps_all |]. intros g.
  match goal with
  | |- keeps P (?F fuel g) =>
      assert (HF : forall k e, keeps P (F k e)); [| apply HF]
  end.
  induction k; intros; [keeps_all |].
  destruct (e =? 0); [keeps_all |].
  apply keeps_bind; [keeps_all |]. intros d.
  apply keeps_bind; [apply keeps_for_each; keeps_all |]. intros _.
  keeps_all.
Qed.
#[local] Hint Resolve keeps_shutdown_release : keeps.

Lemma keeps_do_builtin_exit fuel args : keeps P (do_builtin_exit fuel args).
Proof. unfold do_builtin_exit. keeps_all. Qed.

End Machine.

#[global] Hint Resolve keeps_call_from_jit keeps_run_entry
  keeps_do_builtin_add keeps_do_builtin_sub keeps_do_builtin_mul
  keeps_do_builtin_div keeps_do_builtin_type keeps_do_builtin_cons
  keeps_do_builtin_setcar keeps_do_builtin_setcdr keeps_do_builtin_print
  keeps_do_builtin_parse keeps_clear_closure_env keeps_shutdown_release
  keeps_do_builtin_exit : keeps.

End Keeps.

(* ===================================================================== *)
(** ** The module cache of [require] ([src/require.hpp]) *)
(* ===================================================================== *)

Module CacheFacts.
Export Keeps.

(** The cache holds [v] under [k]. *)
Definition cached (k : string) (v : Value) (s : State) : Prop :=
  loaded_modules s !! k = Some v.

Lemma cached_Stable k v : Stable (cached k v).
Proof. split; intros; assumption. Qed.

Lemma cached_with_funcs k v f s : cached k v s -> cached k v (with_funcs f s).
Proof. intros H. exact H. Qed.

Lemma cached_insert_other k v key r s :
  key <> k -> cached k v s ->
  cached k v (with_loaded_modules (insert key r) s).
Proof.
  unfold cached. intros Hne H. cbn. now rewrite lookup_insert_ne.
Qed.

#[global] Hint Resolve cached_Stable : keeps.

Ltac cache_write :=
  match goal with
  | |- keeps (cached ?k ?v) (modify _) =>
      apply keeps_modify; intros;
      first [ stable_field (cached_Stable k v) | apply cached_with_funcs ];
      assumption
  end.

Ltac keeps_cache :=
  intros; repeat first [ solve [auto 3 with keeps] | cache_write | keeps_struct ].

Section Cache.
Variable k : string.
Variable v : Value.
Abbreviation P := (cached k v).

Lemma keeps_write_func fd d : keeps P (write_func fd d).
Proof. unfold write_func. keeps_cache. Qed.
Lemma keeps_make_function ps bd e : keeps P (make_function ps bd e).
Proof. unfold make_function, alloc_func. keeps_cache. Qed.
Lemma keeps_incr_num_call_count fd : keeps P (incr_num_call_count fd).
Proof. unfold incr_num_call_count, write_func. keeps_cache. Qed.
#[local] Hint Resolve keeps_write_func keeps_make_function
  keeps_incr_num_call_count : keeps.

Lemma keeps_call_prologue fuel fd args : keeps P (call_prologue fuel fd args).
Proof. unfold call_prologue. keeps_cache. Qed.
#[local] Hint Resolve keeps_call_prologue : keeps.

Lemma keeps_with_call_chain have loc entry (m : M Value) :
  keeps P m -> keeps P (with_call_chain have loc entry m).
Proof. intros Hm. unfold with_call_chain. keeps_cache. Qed.

Section Step.
Variable h : Host.
Variable eval : Value -> Z -> M Value.
Variable call : Value -> Value -> Z -> M Value.
Variable fuel : nat.
Hypothesis Heval : forall e env, keeps P (eval e env).
Hypothesis Hcall : forall f a env, keeps P (call f a env).

Lemma keeps_do_list_from n :
  forall walk env res, keeps P (do_list_from eval n walk env res).
Proof. induction n; intros; cbn [do_list_from]; keeps_cache. Qed.
#[local] Hint Resolve keeps_do_list_from : keeps.

Lemma keeps_do_list bd env : keeps P (do_list eval fuel bd env).
Proof. unfold do_list. keeps_cache. Qed.
#[local] Hint Resolve keeps_do_list : keeps.

Lemma keeps_eval_args_from n :
  forall a env hd last, keeps P (eval_args_from eval n a env hd last).
Proof. induction n; intros; cbn [eval_args_from]; keeps_cache. Qed.
#[local] Hint Resolve keeps_eval_args_from : keeps.

Lemma keeps_eval_args l env : keeps P (eval_args eval fuel l env).
Proof. unfold eval_args. keeps_cache. Qed.

Lemma keeps_interpret_body fd args : keeps P (interpret_body eval fuel fd args).
Proof. unfold interpret_body. keeps_cache. Qed.
#[local] Hint Resolve keeps_eval_args keeps_interpret_body : keeps.

Lemma keeps_after_native fd args res threw :
  keeps P (after_native eval fuel fd args res threw).
Proof. unfold after_native. keeps_cache. Qed.

Lemma keeps_call_native fd args darr :
  keeps P (call_native eval call fuel fd args darr).
Proof.
  unfold call_native.
  apply keeps_bind; [keeps_cache |]. intros d.
  apply keeps_bind; [keeps_cache |]. intros _.
  intros s r s' H Hr Hs.
  pose proof (keeps_run_entry P (cached_Stable k v)
                (fun f a => call f a 0) (fun f a => Hcall f a 0)
                fuel (compiled_code d) darr) as Hrun.
  destruct (run_entry _ fuel (compiled_code d) darr s)
    as [[res | e | | | c] s1] eqn:E.
  - apply (keeps_after_native fd args res false s1 r s' H Hr).
    apply (Hrun s _ s1 E); [discriminate | exact Hs].
  - apply (keeps_after_native fd args quiet_NaN true s1 r s' H Hr).
    apply (Hrun s _ s1 E); [discriminate | exact Hs].
  - inversion H; subst. apply (Hrun s _ s' E); [discriminate | exact Hs].
  - inversion H; subst. apply (Hrun s _ s' E); [discriminate | exact Hs].
  - inversion H; subst. now destruct (Hr c).
Qed.

Lemma keeps_call_interpreted fd args :
  keeps P (call_interpreted eval fuel fd args).
Proof.
  unfold call_interpreted. keeps_cache; apply keeps_with_call_chain; keeps_cache.
Qed.
#[local] Hint Resolve keeps_call_native keeps_call_interpreted : keeps.

(** The load of a module under another key. *)
Lemma keeps_require_load key text :
  key <> k -> keeps P (require_load h eval fuel key text).
Proof.
  intros Hne. unfold require_load.
  assert (Hw : forall r, keeps P (modify (with_loaded_modules (insert key r)))).
  { intros r. apply keeps_modify. intros s. now apply cached_insert_other. }
  keeps_cache.
Qed.

Lemma keeps_require_each name :
  forall cands tried, keeps P (require_each h eval fuel name cands tried).
Proof.
  induction cands as [| cand rest IH]; intros tried; cbn [require_each].
  - keeps_cache.
  - intros s r s' H Hr Hs. unfold bind at 1, gets in H.
    destruct (loaded_modules s !! require_key h cand) as [x |] eqn:Hx.
    + inversion H; now subst.
    + destruct (require_open h cand (require_key h cand)) as [text |].
      * refine (keeps_require_load _ text _ s r s' H Hr Hs).
        intros Heq. rewrite Heq in Hx. unfold cached in Hs. congruence.
      * exact (IH _ s r s' H Hr Hs).
Qed.
#[local] Hint Resolve keeps_require_each : keeps.

Lemma keeps_do_builtin_require args :
  keeps P (do_builtin_require h eval fuel args).
Proof. unfold do_builtin_require. keeps_cache. Qed.
#[local] Hint Resolve keeps_do_builtin_require : keeps.

Lemma keeps_call_builtin f args : keeps P (call_builtin h eval fuel f args).
Proof. unfold call_builtin. destruct f; keeps_cache. Qed.
#[local] Hint Resolve keeps_call_builtin : keeps.

Lemma keeps_call_step fn args env :
  keeps P (call_step h eval call fuel fn args env).
Proof. unfold call_step. keeps_cache. Qed.

Lemma keeps_qq_expand n :
  forall expr depth env, keeps P (qq_expand eval n expr depth env).
Proof. induction n; intros; cbn [qq_expand]; keeps_cache. Qed.

Lemma keeps_let_bindings n :
  forall vars e, keeps P (let_bindings eval n vars e).
Proof. induction n; intros; cbn [let_bindings]; keeps_cache. Qed.

Lemma keeps_while_loop n :
  forall c bd env res, keeps P (while_loop eval fuel n c bd env res).
Proof. induction n; intros; cbn [while_loop]; keeps_cache. Qed.

Lemma keeps_cond_clauses n :
  forall cl env, keeps P (cond_clauses eval fuel n cl env).
Proof. induction n; intros; cbn [cond_clauses]; keeps_cache. Qed.
#[local] Hint Resolve keeps_qq_expand keeps_let_bindings keeps_while_loop
  keeps_cond_clauses : keeps.

Lemma keeps_call_prim p args env :
  keeps P (call_prim eval call fuel p args env).
Proof. unfold call_prim. destruct p; keeps_cache. Qed.

Lemma keeps_propagate n :
  forall loc entry x, keeps P (propagate n loc entry x).
Proof. induction n; intros; cbn [propagate]; keeps_cache. Qed.
#[local] Hint Resolve keeps_call_prim keeps_propagate : keeps.

Lemma keeps_eval_macro expr fn a d env prev :
  keeps P (eval_macro eval fuel expr fn a d env prev).
Proof.
  unfold eval_macro.
  repeat match goal with
         | |- keeps _ (bind _ _) =>
             apply keeps_bind; [keeps_cache | intros ?; cbv beta]
         end.
  match goal with
  | x : (bool * SourceLoc * list SourceLoc)%type |- _ =>
      destruct x as [[have loc] entry]
  end.
  apply keeps_bind; [apply keeps_with_call_chain; keeps_cache |]. intros res.
  apply keeps_bind; [keeps_cache |]. intros _.
  apply keeps_finally; [apply Heval |].
  intros s Hs. exact Hs.
Qed.
#[local] Hint Resolve keeps_eval_macro : keeps.

Lemma keeps_eval_step expr env :
  keeps P (eval_step eval call fuel expr env).
Proof. unfold eval_step. keeps_cache. Qed.
End Step.

(** The evaluator keeps every entry of the cache it finds. *)
Lemma keeps_eval_call h fuel :
  (forall e env, keeps P (eval h fuel e env)) /\
  (forall f a env, keeps P (call h fuel f a env)).
Proof.
  induction fuel as [| n [He Hc]]; (split; intros; cbn [eval call]).
  - apply keeps_out_of_fuel.
  - apply keeps_out_of_fuel.
  - now apply keeps_eval_step.
  - now apply keeps_call_step.
Qed.

End Cache.

Lemma cached_insert k v s : cached k v (with_loaded_modules (insert k v) s).
Proof. unfold cached. cbn. apply lookup_insert_eq. Qed.

(** A candidate that is in the cache ends the loop of [require]. *)
Lemma require_each_hit h ev fuel name cand rest tried s x :
  cached (require_key h cand) x s ->
  require_each h ev fuel name (cand :: rest) tried s = (Ok x, s).
Proof.
  intros Hc. cbn [require_each]. unfold bind, gets. unfold cached in Hc.
  now rewrite Hc.
Qed.

(** A candidate that is not in the cache and opens is loaded. *)
Lemma require_each_load h ev fuel name cand rest tried s text :
  loaded_modules s !! require_key h cand = None ->
  require_open h cand (require_key h cand) = Some text ->
  require_each h ev fuel name (cand :: rest) tried s
  = require_load h ev fuel (require_key h cand) text s.
Proof.
  intros Hn Ho. cbn [require_each]. unfold bind at 1, gets.
  now rewrite Hn, Ho.
Qed.

(** The body of a module as [require_load] runs it. *)
Definition module_body (h : Host) (fuel : nat) (e : Value) : M Value :=
  let! g := gets global in
  if truthy e then do_list (eval h fuel) fuel e g else ret nil.

Lemma keeps_module_body k v h fuel e : keeps (cached k v) (module_body h fuel e).
Proof.
  unfold module_body. keeps_cache.
  apply keeps_do_list. apply (keeps_eval_call k v h fuel).
Qed.

Lemma require_load_eq h fuel key text s :
  require_load h (eval h fuel) fuel key text s
  = (let! e := parse_all h text key in
     let! r := module_body h fuel e in
     modify (with_loaded_modules (insert key r)) ;;; ret r)
      (with_loaded_modules (insert key nil) s).
Proof.
  unfold require_load, module_body, bind at 1, modify at 1.
  unfold bind. now destruct (parse_all h text key _) as [[e | | | |] s1].
Qed.

(** C9.  [require] reaches a candidate that is not in the module cache
    and whose file opens.  Then: the entry of the candidate's canonical
    path is nil in the state in which the module's body is run; when the
    load ends with an error the entry is nil, and it is still nil after
    every later evaluation; when the load ends normally the entry is the
    value of the module; and a [require] that reaches a candidate with a
    cached canonical path returns the entry and leaves the state as it
    was (the file is neither read nor evaluated again). *)
Theorem require_cache_after_error
    (h : Host) (fuel : nat) (name cand : string) (rest tried : list string)
    (text : string) (s : State) :
  let key := require_key h cand in
  let run := require_each h (eval h fuel) fuel name (cand :: rest) tried in
  loaded_modules s !! key = None ->
  require_open h cand key = Some text ->
  (forall e s1,
      parse_all h text key (with_loaded_modules (insert key nil) s) = (Ok e, s1) ->
      cached key nil s1 /\
      run s = (let! r := module_body h fuel e in
               modify (with_loaded_modules (insert key r)) ;;; ret r) s1) /\
  (forall err s',
      run s = (Throw err, s') ->
      cached key nil s' /\
      (forall fuel2 expr env r s2,
          eval h fuel2 expr env s' = (r, s2) ->
          (forall c, r <> Exit c) ->
          cached key nil s2)) /\
  (forall r s', run s = (Ok r, s') -> cached key r s') /\
  (forall x s2 fuel2 name2 cand2 rest2 tried2,
      cached key x s2 ->
      require_key h cand2 = key ->
      require_each h (eval h fuel2) fuel2 name2 (cand2 :: rest2) tried2 s2
      = (Ok x, s2)).
Proof.
  intros key run Hn Ho.
  assert (Hrun : run s = require_load h (eval h fuel) fuel key text s)
    by now apply require_each_load.
  pose proof (cached_insert key nil s) as H0.
  set (s0 := with_loaded_modules (insert key nil) s) in *.
  rewrite require_load_eq in Hrun. fold s0 in Hrun.
  pose proof (keeps_parse_all (cached key nil) (cached_Stable key nil)
                h text key s0) as Hp.
  split; [| split; [| split]].
  - intros e s1 He. split.
    + apply (Hp _ s1 He); [discriminate | exact H0].
    + rewrite Hrun. unfold bind at 1. now rewrite He.
  - intros err s' Hthrow.
    assert (Hc : cached key nil s').
    { rewrite Hrun in Hthrow. unfold bind at 1 in Hthrow.
      destruct (parse_all h text key s0) as [[e | e0 | | | c] s1] eqn:He;
        try discriminate.
      - assert (H1 : cached key nil s1)
          by (apply (Hp _ s1 eq_refl); [discriminate | exact H0]).
        unfold bind at 1 in Hthrow.
        destruct (module_body h fuel e s1) as [[r | e1 | | | c] s2] eqn:Hb;
          try discriminate.
        injection Hthrow as _ <-.
        apply (keeps_module_body key nil h fuel e s1 _ s2 Hb);
          [discriminate | exact H1].
      - injection Hthrow as _ <-.
        apply (Hp _ s1 eq_refl); [discriminate | exact H0]. }
    split; [exact Hc |].
    intros fuel2 expr env r s2 Hev Hr.
    exact (proj1 (keeps_eval_call key nil h fuel2) expr env s' r s2 Hev Hr Hc).
  - intros r s' Hok. rewrite Hrun in Hok. unfold bind at 1 in Hok.
    destruct (parse_all h text key s0) as [[e | e0 | | | c] s1]; try discriminate.
    unfold bind at 1 in Hok.
    destruct (module_body h fuel e s1) as [[r1 | e1 | | | c] s2]; try discriminate.
    unfold bind, modify, ret in Hok. injection Hok as <- <-.
    apply cached_insert.
  - intros x s2 fuel2 name2 cand2 rest2 tried2 Hc Hk.
    apply require_each_hit. now rewrite Hk.
Qed.

(** A file system with the one file [/lib/m.lisp], which prints and then
    evaluates an unbound symbol. *)
Definition cache_demo_text : string := "(print 1) nope".
Definition cache_demo_host : Host :=
  mkHost (fun _ => inr SNil)
    (fun t => if String.eqb t cache_demo_text
              then inr [app "print" [num 1]; SSym "nope"] else inr [])
    (fun p => String.eqb p "/lib/m.lisp")
    (fun p => Some p) (fun p => p)
    (fun p => if String.eqb p "/lib/m.lisp" then Some cache_demo_text else None)
    (fun _ => "1"%string) [].

Definition cache_demo_run : M Value :=
  require_each cache_demo_host (eval cache_demo_host 20) 20
    "/lib/m.lisp" ["/lib/m.lisp"%string] [].

Definition cache_demo_end : State := snd (cache_demo_run initial_state).
Definition cache_demo_err : Error :=
  match fst (cache_demo_run initial_state) with
  | Throw e => e
  | _ => RuntimeError ""
  end.

Lemma require_cache_after_error_witness :
  cache_demo_run initial_state = (Throw cache_demo_err, cache_demo_end)
  /\ cached "/lib/m.lisp" nil cache_demo_end.
Proof.
  assert (H : cache_demo_run initial_state
              = (Throw cache_demo_err, cache_demo_end))
    by (vm_compute; reflexivity).
  split; [exact H |].
  exact (proj1 (proj1 (proj2
    (require_cache_after_error cache_demo_host 20 "/lib/m.lisp" "/lib/m.lisp"
       [] [] cache_demo_text initial_state
       ltac:(vm_compute; reflexivity) ltac:(vm_compute; reflexivity)))
    cache_demo_err cache_demo_end H)).
Defined.

(** The run of the example: the first [require] fails once the module
    has printed, the second returns nil and nothing more is printed. *)
Example cache_demo_first_fails :
  let r := run_program cache_demo_host 20 "main"
             [app "require" [SStr "/lib/m.lisp"]] initial_state in
  (exists loc chain, fst r = Throw (ParseError loc "unbound symbol: nope" chain))
  /\ loaded_modules (snd r) !! "/lib/m.lisp"%string = Some nil
  /\ cout (snd r) = ["1"%string].
Proof.
  vm_compute. split; [| split]; [do 2 eexists |..]; reflexivity.
Qed.

Example cache_demo_second_returns_nil :
  let s1 := snd (run_program cache_demo_host 20 "main"
                   [app "require" [SStr "/lib/m.lisp"]] initial_state) in
  let r := run_program cache_demo_host 20 "main"
             [app "require" [SStr "/lib/m.lisp"]] s1 in
  fst r = Ok nil /\ cout (snd r) = ["1"%string].
Proof. vm_compute. split; reflexivity. Qed.

End CacheFacts.

(* ===================================================================== *)
(** ** The numeric-call counter and the compilation trigger of [State::call] *)
(* ===================================================================== *)

Module CallFacts.
Export CacheFacts.

(** [args] is the list of the values [vs] in the heap of [s]. *)
Inductive actuals (s : State) : Value -> list Value -> Prop :=
| actuals_nil args : truthy args = false -> actuals s args []
| actuals_cons args a d vs :
    cell s args a d -> actuals s d vs -> actuals s args (a :: vs).

(** The test of the argument scan: [av && av.get_type() == TNUMBER]. *)
Definition number_arg (v : Value) : bool := truthy v && is_type v TNUMBER.

(** The condition under which [State::call] calls the compiler. *)
Definition jit_trigger (d : FuncData) : bool :=
  (3 <? num_call_count d) && (compiled_code d =? 0) && negb (jit_failed d).

Definition with_num_call_count (n : Z) (d : FuncData) : FuncData :=
  mkFunc (params d) (body d) (closure_env d) (call_count d) n
    (compiled_code d) (jit_failed d).

(** The record of [fd] has [n] in its numeric-call counter. *)
Definition counted (fd n : Z) (s : State) : Prop :=
  exists d, funcs s !! fd = Some d /\ num_call_count d = n.

Lemma counted_Stable fd n : Stable (counted fd n).
Proof.
  split; try (intros; assumption).
  intros fd' d d' s Hd Hn (d0 & H0 & Hc). unfold counted. cbn.
  destruct (decide (fd' = fd)) as [-> | Hne].
  - exists d'. rewrite lookup_insert_eq. split; [reflexivity |]. congruence.
  - exists d0. now rewrite lookup_insert_ne.
Qed.

Lemma read_func_Some s fd d : funcs s !! fd = Some d -> read_func fd s = (Ok d, s).
Proof. intros H. unfold read_func. rewrite bind_gets. now apply from_option_Some. Qed.

Lemma read_func_Ok_inv s fd d s' :
  read_func fd s = (Ok d, s') -> funcs s !! fd = Some d /\ s' = s.
Proof.
  unfold read_func. rewrite bind_gets.
  destruct (funcs s !! fd); cbn; [| discriminate].
  now intros [= -> ->].
Qed.

Lemma scan_numeric_spec s :
  forall vs args fuel darr,
    actuals s args vs -> (length vs < fuel)%nat ->
    exists darr',
      scan_numeric fuel args darr s = (Ok (forallb number_arg vs, darr'), s).
Proof.
  induction vs as [| a vs IH]; intros args fuel darr Ha Hlt;
    (destruct fuel as [| n]; [cbn in Hlt; lia |]);
    inversion Ha as [? Hn | ? ? d0 ? Hc Hrest]; subst; cbn [scan_numeric].
  - exists darr. now rewrite Hn.
  - rewrite (proj1 (is_pair_true _ (proj1 Hc))). cbn [negb].
    rewrite (bind_Ok _ _ _ _ _ (get_pair_cell _ _ _ _ Hc)). cbn [car cdr forallb].
    rewrite <- negb_andb. fold (number_arg a).
    destruct (number_arg a); cbn [negb andb].
    + apply IH; [assumption | cbn in Hlt; lia].
    + now exists darr.
Qed.

Lemma incr_num_call_count_spec s fd d :
  funcs s !! fd = Some d ->
  incr_num_call_count fd s
  = (Ok tt, with_funcs (insert fd (with_num_call_count
                                     ((num_call_count d + 1) mod 2 ^ 64) d)) s).
Proof.
  intros H. unfold incr_num_call_count.
  now rewrite (bind_Ok _ _ _ _ _ (read_func_Some _ _ _ H)).
Qed.

Lemma set_compiled_code_Ok_inv fd c s u s' :
  set_compiled_code fd c s = (Ok u, s') ->
  exists d, funcs s' !! fd = Some d /\ compiled_code d = c.
Proof.
  unfold set_compiled_code. intros H.
  apply bind_Ok_inv in H as (d & s1 & Hr & Hw).
  apply read_func_Ok_inv in Hr as [_ ->].
  unfold write_func, modify in Hw. injection Hw as _ <-.
  eexists. cbn. rewrite lookup_insert_eq. split; reflexivity.
Qed.

Lemma set_jit_failed_Ok_inv fd b s u s' :
  set_jit_failed fd b s = (Ok u, s') ->
  exists d, funcs s' !! fd = Some d /\ jit_failed d = b.
Proof.
  unfold set_jit_failed. intros H.
  apply bind_Ok_inv in H as (d & s1 & Hr & Hw).
  apply read_func_Ok_inv in Hr as [_ ->].
  unfold write_func, modify in Hw. injection Hw as _ <-.
  eexists. cbn. rewrite lookup_insert_eq. split; reflexivity.
Qed.

(** The outcome of a compilation that [State::call] started is left in
    the record: code installed, or the function marked. *)
Lemma maybe_compile_marks fuel fd s d u s' :
  funcs s !! fd = Some d -> jit_trigger d = true ->
  maybe_compile fuel fd s = (Ok u, s') ->
  exists d', funcs s' !! fd = Some d'
             /\ (compiled_code d' <> 0 \/ jit_failed d' = true).
Proof.
  intros Hd Ht H. unfold maybe_compile in H.
  rewrite (bind_Ok _ _ _ _ _ (read_func_Some _ _ _ Hd)) in H.
  unfold jit_trigger in Ht. rewrite Ht in H.
  unfold catch_all in H.
  match type of H with
  | (match ?m s with _ => _ end) = _ => destruct (m s) as [[x | e | | | c] s1] eqn:E
  end; try discriminate.
  - injection H as -> ->.
    apply bind_Ok_inv in E as (c & s2 & _ & E).
    destruct (c =? 0) eqn:Ec; cbn [negb] in E.
    + apply set_jit_failed_Ok_inv in E as (d' & H1 & H2). eauto.
    + apply set_compiled_code_Ok_inv in E as (d' & H1 & H2).
      exists d'. split; [exact H1 |]. left. rewrite H2. lia.
  - apply set_jit_failed_Ok_inv in H as (d' & H1 & H2). eauto.
Qed.

Lemma maybe_compile_idle fuel fd s d :
  funcs s !! fd = Some d -> jit_trigger d = false ->
  maybe_compile fuel fd s = (Ok tt, s).
Proof.
  intros Hd Ht. unfold maybe_compile.
  rewrite (bind_Ok _ _ _ _ _ (read_func_Some _ _ _ Hd)).
  unfold jit_trigger in Ht. now rewrite Ht.
Qed.

(** The program of the scenario, ended by [last]. *)
Definition hot_program (last : Sexp) : list Sexp :=
  [ app "set" [SSym "f"; app "fn" [slist [SSym "x"];
                                   app "+" [SSym "x"; num 1]]];
    app "f" [num 1]; app "f" [num 2]; app "f" [num 3]; app "f" [num 4];
    app "f" [num 5]; last ].

Definition hot_run (last : Sexp) : Res Value * State :=
  run_program bare_host 30 "demo" (hot_program last) initial_state.

(** The text of the symbol a run ended with. *)
Definition symbol_result (r : Res Value * State) : option string :=
  match fst r with
  | Ok v => if is_type v TSYMBOL then strings (snd r) !! get_payload_raw v
            else None
  | _ => None
  end.

(** What [State::call] has done by the time it chooses between native
    code and the interpreter. *)
Lemma call_prologue_eq fuel fd args vs s d :
  actuals s args vs -> (length vs < fuel)%nat -> funcs s !! fd = Some d ->
  exists darr,
    call_prologue fuel fd args s
    = if forallb number_arg vs then
        (maybe_compile fuel fd ;;; ret (true, darr))
          (with_funcs (insert fd (with_num_call_count
                                    ((num_call_count d + 1) mod 2 ^ 64) d)) s)
      else (Ok (false, darr), s).
Proof.
  intros Ha Hlt Hd.
  destruct (scan_numeric_spec s vs args fuel [] Ha Hlt) as [darr Hscan].
  exists darr. unfold call_prologue.
  rewrite (bind_Ok _ _ _ _ _ Hscan).
  destruct (forallb number_arg vs); [| reflexivity].
  rewrite !bind_assoc.
  now rewrite (bind_Ok _ _ _ _ _ (incr_num_call_count_spec _ _ _ Hd)).
Qed.

(** C3.  A call of the user function [fd] on the actuals [vs]: the
    numeric-call counter goes up by one (on a [size_t]) when every actual
    is a number and stays as it was otherwise; the compiler is not entered,
    and nothing but the counter changes, unless the call is numeric and
    finds the counter above three, no compiled code and [jit_failed]
    unset, and when it is entered it leaves compiled code or [jit_failed]
    in the record.  After [(set f (fn (x) (+ x 1)))] and the calls
    [(f 1)] ... [(f 5)], [(type f)] is the symbol [jit_func] and
    [(print f)] prints [<jit_func>]. *)
Theorem numeric_calls_trigger_jit
    (fuel : nat) (fd : Z) (args : Value) (vs : list Value) (s : State)
    (d : FuncData) :
  actuals s args vs -> (length vs < fuel)%nat -> funcs s !! fd = Some d ->
  let numeric := forallb number_arg vs in
  let n' := if numeric then (num_call_count d + 1) mod 2 ^ 64
            else num_call_count d in
  let counted_state :=
    if numeric then with_funcs (insert fd (with_num_call_count n' d)) s
    else s in
  let attempted := numeric && jit_trigger (with_num_call_count n' d) in
  (forall r s',
      call_prologue fuel fd args s = (r, s') -> (forall c, r <> Exit c) ->
      counted fd n' s'
      /\ forall b darr, r = Ok (b, darr) -> b = numeric)
  /\ (attempted = false ->
      exists darr,
        call_prologue fuel fd args s = (Ok (numeric, darr), counted_state))
  /\ (attempted = true ->
      forall b darr s',
        call_prologue fuel fd args s = (Ok (b, darr), s') ->
        exists d', funcs s' !! fd = Some d'
                   /\ (compiled_code d' <> 0 \/ jit_failed d' = true))
  /\ symbol_result (hot_run (app "type" [SSym "f"])) = Some "jit_func"%string
  /\ cout (snd (hot_run (app "print" [SSym "f"]))) = ["<jit_func>"%string].
Proof.
  intros Ha Hlt Hd numeric n' counted_state attempted.
  destruct (call_prologue_eq fuel fd args vs s d Ha Hlt Hd) as [darr Heq].
  fold numeric in Heq.
  assert (Hc0 : counted fd n' counted_state).
  { subst counted_state n'. destruct numeric.
    - eexists. cbn. rewrite lookup_insert_eq. split; reflexivity.
    - now exists d. }
  assert (Hd1 : numeric = true ->
                funcs counted_state !! fd = Some (with_num_call_count n' d)).
  { intros E. subst counted_state. rewrite E. cbn. apply lookup_insert_eq. }
  split; [| split; [| split; [| split]]].
  - intros r s' H Hr. rewrite Heq in H. subst counted_state n'.
    destruct numeric.
    + unfold bind at 1 in H.
      pose proof (keeps_maybe_compile _
                    (counted_Stable fd ((num_call_count d + 1) mod 2 ^ 64))
                    fuel fd) as Hk.
      match type of H with
      | (match ?m ?s0 with _ => _ end) = _ =>
          destruct (m s0) as [[u | e | | | c] s1] eqn:E
      end; injection H as <- <-; try (now destruct (Hr c));
        (split; [apply (Hk _ _ _ E); [discriminate | exact Hc0] |]);
        intros b darr0 [=]; congruence.
    + injection H as <- <-. split; [exact Hc0 |].
      intros b darr0 [=]. congruence.
  - intros Hatt. exists darr. rewrite Heq. subst counted_state n' attempted.
    destruct numeric; [| reflexivity].
    cbn [andb] in Hatt.
    now rewrite (bind_Ok _ _ _ _ _
                   (maybe_compile_idle fuel fd _ _ (Hd1 eq_refl) Hatt)).
  - intros Hatt b darr0 s' H. rewrite Heq in H.
    subst counted_state n' attempted.
    destruct numeric; [| discriminate].
    cbn [andb] in Hatt.
    apply bind_Ok_inv in H as (u & s1 & Hm & Hret).
    injection Hret as _ _ <-.
    exact (maybe_compile_marks fuel fd _ _ u s1 (Hd1 eq_refl) Hatt Hm).
  - vm_compute. reflexivity.
  - vm_compute. reflexivity.
Qed.

(** The fourth call of the scenario: the state after three calls, with
    the list of actuals [(4)] read into it. *)
Definition warm_read : Res Value * State :=
  intern_sexp "demo" (slist [num 4])
    (snd (run_program bare_host 30 "demo"
            (firstn 4 (hot_program SNil)) initial_state)).
Definition warm_args : Value :=
  match fst warm_read with Ok v => v | _ => nil end.
Definition warm_state : State := snd warm_read.
Definition warm_fd : Z :=
  get_func (default nil (global_binding warm_state "f")).
Definition warm_record : FuncData :=
  default (mkFunc nil nil 0 0 0 0 false) (funcs warm_state !! warm_fd).

Lemma numeric_calls_trigger_jit_witness :
  let r := call_prologue 30 warm_fd warm_args warm_state in
  counted warm_fd 4 (snd r)
  /\ exists d', funcs (snd r) !! warm_fd = Some d'
                /\ (compiled_code d' <> 0 \/ jit_failed d' = true).
Proof.
  assert (Ha : actuals warm_state warm_args [make_number (double_to_bits 4)]).
  { eapply actuals_cons.
    - split; vm_compute; reflexivity.
    - apply actuals_nil. vm_compute. reflexivity. }
  assert (Hd : funcs warm_state !! warm_fd = Some warm_record)
    by (vm_compute; reflexivity).
  destruct (numeric_calls_trigger_jit 30 warm_fd warm_args _ warm_state
              warm_record Ha ltac:(cbn; lia) Hd) as (H1 & _ & H3 & _).
  split.
  - refine (proj1 (H1 _ _ (surjective_pairing _) _)).
    intros c. vm_compute. discriminate.
  - refine (H3 _ true [double_to_bits 4] _ _); vm_compute; reflexivity.
Defined.

End CallFacts.

(* ===================================================================== *)
(** ** The return from native code in [State::call] *)
(* ===================================================================== *)

Module DeoptFacts.
Export CallFacts.



(** *** Compiled code ends with no exception *)


Section NoThrow.
Variable call : Value -> Value -> M Value.


End NoThrow.

Section Deopt.
Variable h : Host.
Variable ev : Value -> Z -> M Value.
Variable cl : Value -> Value -> Z -> M Value.
Variable fuel : nat.








End Deopt.

(** A function with a free variable, compiled while the variable held a
    number; the variable then set to a string, and the actuals [(5)]. *)
Definition cool_read : Res Value * State :=
  intern_sexp "demo" (slist [num 5])
    (snd (run_program bare_host 30 "demo"
            [ app "set" [SSym "y"; num 1];
              app "set" [SSym "g"; app "fn" [slist [SSym "x"]; SSym "y"]];
              app "g" [num 1]; app "g" [num 2]; app "g" [num 3];
              app "g" [num 4];
              app "set" [SSym "y"; SStr "s"] ] initial_state)).
Definition cool_args : Value :=
  match fst cool_read with Ok v => v | _ => nil end.
Definition cool_state : State := snd cool_read.
Definition cool_fn : Value := default nil (global_binding cool_state "g").
Definition cool_fd : Z := get_func cool_fn.
Definition cool_record : FuncData :=
  default (mkFunc nil nil 0 0 0 0 false) (funcs cool_state !! cool_fd).
Definition cool_native : Res double * State :=
  run_entry (fun f a => call bare_host 30 f a 0) 30
    (compiled_code cool_record) [double_to_bits 5]
    (with_jit_active_state (fun _ => true) cool_state).

(** The same call, had the native entry thrown: what follows the [catch]
    with [jit_threw] set. *)
Definition cool_threw : Res Value * State :=
  after_native (eval bare_host 30) 30 cool_fd cool_args quiet_NaN true
    (snd cool_native).


(** The text of the string a run ended with. *)
Definition string_result (r : Res Value * State) : option string :=
  match fst r with
  | Ok v => if is_type v TSTRING then strings (snd r) !! get_payload_raw v
            else None
  | _ => None
  end.

(** The call of the example is answered by the interpreter with the
    string, the function is still compiled after it, and the next call
    after [y] is a number again is answered by the native code. *)
Example cool_call_falls_back :
  let r := call bare_host 30 cool_fn cool_args 0 cool_state in
  string_result r = Some "s"%string
  /\ (compiled_code <$> funcs (snd r) !! cool_fd)
     = Some (compiled_code cool_record)
  /\ (jit_failed <$> funcs (snd r) !! cool_fd) = Some false.
Proof. vm_compute. split; [| split]; reflexivity. Qed.

(** With [jit_threw] set the call is answered by the interpreter as well,
    and the function has lost its compiled code for good. *)
Example threw_call_disables :
  string_result cool_threw = Some "s"%string
  /\ (compiled_code <$> funcs (snd cool_threw) !! cool_fd) = Some 0
  /\ (jit_failed <$> funcs (snd cool_threw) !! cool_fd) = Some true.
Proof. vm_compute. split; [| split]; reflexivity. Qed.

End DeoptFacts.

(* ===================================================================== *)
(** ** Tests of [cond] and [while] in the two execution modes *)
(* ===================================================================== *)

Module BranchFacts.
Export DeoptFacts.

(** [(set f (fn (x) (cond (x 1) (#t 2))))] followed by [n] calls [(f 0)]. *)
Definition zero_test_program (n : nat) : list Sexp :=
  app "set" [SSym "f";
             app "fn" [slist [SSym "x"];
                       app "cond" [slist [SSym "x"; num 1];
                                   slist [SSym "#t"; num 2]]]]
  :: repeat (app "f" [num 0]) n.

Definition zero_test_run (n : nat) : Res Value * State :=
  run_program bare_host 30 "demo" (zero_test_program n) initial_state.

(** The state after the fourth call, with the actuals [(0)] read into it. *)
Definition zero_read : Res Value * State :=
  intern_sexp "demo" (slist [num 0]) (snd (zero_test_run 4)).
Definition zero_args : Value :=
  match fst zero_read with Ok v => v | _ => nil end.
Definition zero_state : State := snd zero_read.
Definition zero_fn : Value := default nil (global_binding zero_state "f").

(** The interpreter takes the clause of a test whose value is not nil. *)
Lemma cond_clauses_takes ev fuel k clauses clause rest test body env s v s1 :
  cell s clauses clause rest -> cell s clause test body ->
  ev test env s = (Ok v, s1) -> truthy v = true ->
  cond_clauses ev fuel (S k) clauses env s = do_list ev fuel body env s1.
Proof.
  intros C1 C2 He Tv. cbn [cond_clauses].
  rewrite (proj1 (is_pair_true _ (proj1 C1))). cbn [negb].
  rewrite (bind_Ok _ _ _ _ _ (pair_car_cell _ _ _ _ C1)).
  rewrite (proj1 (is_pair_true _ (proj1 C2))). cbn [negb].
  rewrite (bind_Ok _ _ _ _ _ (pair_car_cell _ _ _ _ C2)).
  rewrite (bind_Ok _ _ _ _ _ (pair_cdr_cell _ _ _ _ C2)).
  rewrite (bind_Ok _ _ _ _ _ He). now rewrite Tv.
Qed.

(** And it runs the body of a [while] whose test value is not nil. *)
Lemma while_loop_takes ev fuel k c bd env res s v s1 :
  ev c env s = (Ok v, s1) -> truthy v = true ->
  while_loop ev fuel (S k) c bd env res s
  = (let! r := do_list ev fuel bd env in while_loop ev fuel k c bd env r) s1.
Proof.
  intros He Tv. cbn [while_loop].
  rewrite (bind_Ok _ _ _ _ _ He). now rewrite Tv.
Qed.

(** Compiled code compares the test value with [0.0]. *)
Lemma run_cond_compares cl n args fr test b more s d fr1 s1 :
  run_instr cl n args fr test s = (Ok (d, fr1), s1) ->
  run_cond cl (S n) args fr ((test, b) :: more) s
  = if IR.fcmp IR.ONE d d0 then run_seq cl n args fr1 b d0 s1
    else run_cond cl n args fr1 more s1.
Proof.
  intros H. cbn [run_cond]. rewrite (bind_Ok _ _ _ _ _ H).
  now destruct (IR.fcmp IR.ONE d d0).
Qed.

Lemma run_while_compares cl n args fr c b last s d fr1 s1 :
  run_instr cl n args fr c s = (Ok (d, fr1), s1) ->
  run_while cl (S n) args fr c b last s
  = if IR.fcmp IR.ONE d d0 then
      (let! '(v, fr2) := run_seq cl n args fr1 b d0 in
       run_while cl n args fr2 c b v) s1
    else (Ok (last, fr1), s1).
Proof.
  intros H. cbn [run_while]. rewrite (bind_Ok _ _ _ _ _ H).
  now destruct (IR.fcmp IR.ONE d d0).
Qed.

(** C1.  A test of [cond] or [while] whose value is a number: the
    interpreter takes the branch whatever the number is, compiled code
    takes it when the number compares unequal to [0.0].  The two disagree
    on zero: with [f] set to [(fn (x) (cond (x 1) (#t 2)))], the call
    [(f 0)] is [1] as long as [f] is interpreted and [2] from the fourth
    call on, when [f] is compiled; in the state after the fourth call the
    interpreter run on the body of [f] with the actual [0] gives [1] and
    the call of [f] on the same actual gives [2]. *)
Theorem cond_test_on_zero_differs :
  (forall ev fuel k clauses clause rest test body env s v s1,
      cell s clauses clause rest -> cell s clause test body ->
      ev test env s = (Ok v, s1) -> is_type v TNUMBER = true ->
      cond_clauses ev fuel (S k) clauses env s = do_list ev fuel body env s1)
  /\ (forall ev fuel k c bd env res s v s1,
         ev c env s = (Ok v, s1) -> is_type v TNUMBER = true ->
         while_loop ev fuel (S k) c bd env res s
         = (let! r := do_list ev fuel bd env in
            while_loop ev fuel k c bd env r) s1)
  /\ (forall cl n args fr test b more s d fr1 s1,
         run_instr cl n args fr test s = (Ok (d, fr1), s1) ->
         run_cond cl (S n) args fr ((test, b) :: more) s
         = if IR.fcmp IR.ONE d d0 then run_seq cl n args fr1 b d0 s1
           else run_cond cl n args fr1 more s1)
  /\ (forall cl n args fr c b last s d fr1 s1,
         run_instr cl n args fr c s = (Ok (d, fr1), s1) ->
         run_while cl (S n) args fr c b last s
         = if IR.fcmp IR.ONE d d0 then
             (let! '(v, fr2) := run_seq cl n args fr1 b d0 in
              run_while cl n args fr2 c b v) s1
           else (Ok (last, fr1), s1))
  /\ IR.fcmp IR.ONE (double_to_bits 0) d0 = false
  /\ fst (zero_test_run 1) = Ok (make_number (double_to_bits 1))
  /\ fst (zero_test_run 3) = Ok (make_number (double_to_bits 1))
  /\ fst (zero_test_run 4) = Ok (make_number (double_to_bits 2))
  /\ fst (zero_test_run 5) = Ok (make_number (double_to_bits 2))
  /\ fst (interpret_body (eval bare_host 30) 30 (get_func zero_fn) zero_args
            zero_state)
     = Ok (make_number (double_to_bits 1))
  /\ fst (call bare_host 30 zero_fn zero_args 0 zero_state)
     = Ok (make_number (double_to_bits 2)).
Proof.
  split; [| split; [| split; [| split]]].
  - intros. eapply cond_clauses_takes; eauto using is_number_truthy.
  - intros. eapply while_loop_takes; eauto using is_number_truthy.
  - intros. now apply run_cond_compares.
  - intros. now apply run_while_compares.
  - repeat (split; [vm_compute; reflexivity |]). vm_compute. reflexivity.
Qed.

End BranchFacts.

(* ===================================================================== *)
(** ** Tagged words ([src/nanbox.hpp]) *)
(* ===================================================================== *)

Module BoxFacts.
Export BranchFacts.

(** The tag constants of the pointer kinds, with the kind each denotes. *)
Definition pointer_tags : list (Z * Type_) :=
  [ (kTagPair, TPAIR); (kTagString, TSTRING); (kTagSymbol, TSYMBOL);
    (kTagFunc, TFUNC); (kTagMacro, TMACRO); (kTagPrim, TPRIM);
    (kTagCFunc, TCFUNC) ].

Lemma payload_mask_ones : kPayloadMask = Z.ones 48.
Proof. reflexivity. Qed.

Lemma land_payload_nan p : Z.land (Z.land p kPayloadMask) kNaNMask = 0.
Proof.
  rewrite <- Z.land_assoc.
  change (Z.land kPayloadMask kNaNMask) with 0. apply Z.land_0_r.
Qed.

Lemma shiftr_payload p : Z.shiftr (Z.land p kPayloadMask) 48 = 0.
Proof.
  rewrite Z.shiftr_land.
  change (Z.shiftr kPayloadMask 48) with 0. apply Z.land_0_r.
Qed.

Lemma get_type_tagged tag t p :
  In (tag, t) pointer_tags -> get_type (set_payload_raw tag p) = t.
Proof.
  intros Hin. unfold get_type, set_payload_raw.
  rewrite Z.land_lor_distr_l, land_payload_nan, Z.lor_0_r.
  rewrite Z.shiftr_lor, shiftr_payload, Z.lor_0_r.
  cbn [In pointer_tags] in Hin.
  repeat (destruct Hin as [[= <- <-] | Hin]; [reflexivity |]).
  destruct Hin.
Qed.

Lemma get_payload_tagged tag t p :
  In (tag, t) pointer_tags ->
  get_payload_raw (set_payload_raw tag p) = Z.land p kPayloadMask.
Proof.
  intros Hin. unfold get_payload_raw, set_payload_raw.
  rewrite Z.land_lor_distr_l.
  rewrite <- Z.land_assoc, Z.land_diag.
  assert (H0 : Z.land tag kPayloadMask = 0).
  { cbn [In pointer_tags] in Hin.
    repeat (destruct Hin as [[= <- <-] | Hin]; [reflexivity |]).
    destruct Hin. }
  now rewrite H0.
Qed.

(** An address passes the start-up check exactly when the payload field
    holds it whole. *)
Lemma fits_payload_land p :
  fits_payload p = true <-> Z.land p kPayloadMask = p.
Proof.
  unfold fits_payload. rewrite Z.eqb_eq, payload_mask_ones. split; intros H.
  - apply Z.bits_inj'. intros i Hi. rewrite Z.land_spec.
    destruct (Z.ltb_spec i 48) as [Hlt | Hge].
    + rewrite Z.ones_spec_low by lia. apply andb_true_r.
    + rewrite Z.ones_spec_high by lia. rewrite andb_false_r.
      assert (Hb : Z.testbit (Z.land p (Z.lnot (Z.ones 48))) i = false)
        by (rewrite H; apply Z.bits_0).
      rewrite Z.land_spec, Z.lnot_spec, Z.ones_spec_high in Hb by lia.
      cbn [negb] in Hb. now rewrite andb_true_r in Hb.
  - apply Z.bits_inj'. intros i Hi. rewrite Z.land_spec, Z.bits_0.
    rewrite <- H, Z.land_spec, Z.lnot_spec by lia.
    destruct (Z.testbit (Z.ones 48) i); cbn; now rewrite ?andb_false_r.
Qed.

Lemma fits_payload_range p : fits_payload p = true <-> 0 <= p < 2 ^ 48.
Proof.
  rewrite fits_payload_land, payload_mask_ones, Z.land_ones by lia. split.
  - intros <-. apply Z.mod_pos_bound. lia.
  - intros H. now apply Z.mod_small.
Qed.

(** The word built for a record of kind [t] at address [p]: it is of
    kind [t], it is not nil, and it gives the address back, cut to 48
    bits; the address comes back whole exactly when it passes the check
    made at start-up. *)
Theorem tagged_word_round_trip (tag : Z) (t : Type_) (p : Z) :
  In (tag, t) pointer_tags ->
  get_type (set_payload_raw tag p) = t
  /\ truthy (set_payload_raw tag p) = true
  /\ get_payload_raw (set_payload_raw tag p) = p mod 2 ^ 48
  /\ (get_payload_raw (set_payload_raw tag p) = p <-> fits_payload p = true).
Proof.
  intros Hin.
  pose proof (get_type_tagged tag t p Hin) as Ht.
  pose proof (get_payload_tagged tag t p Hin) as Hp.
  split; [exact Ht |]. split; [| split].
  - unfold truthy. rewrite Ht. cbn [In pointer_tags] in Hin.
    repeat (destruct Hin as [[= <- <-] | Hin]; [reflexivity |]).
    destruct Hin.
  - rewrite Hp, payload_mask_ones. apply Z.land_ones. lia.
  - rewrite Hp. symmetry. apply fits_payload_land.
Qed.

Lemma tagged_word_round_trip_witness :
  get_type (set_payload_raw kTagPair 0x10040) = TPAIR
  /\ get_payload_raw (set_payload_raw kTagPair 0x10040) = 0x10040.
Proof.
  destruct (tagged_word_round_trip kTagPair TPAIR 0x10040
              ltac:(cbn; auto)) as (H1 & _ & _ & H4).
  split; [exact H1 |]. apply H4. reflexivity.
Defined.

End BoxFacts.

(* ===================================================================== *)
(** ** Symbols and environments ([src/vdlisp.cpp]) *)
(* ===================================================================== *)

Module EnvFacts.
Export BoxFacts.

Lemma is_type_truthy v t : is_type v t = true -> t <> TNIL -> truthy v = true.
Proof.
  unfold is_type. intros H%Type_eqb_spec Hn. now apply (type_truthy v t).
Qed.

(** *** [State::make_symbol] *)

(** A symbol made once is the symbol made for its text ever after: the
    table of interned symbols holds it, making it again returns the same
    word and changes nothing, and no symbol made before is displaced. *)
Theorem make_symbol_interned (str : string) (s s' : State) (v : Value) :
  make_symbol str s = (Ok v, s') ->
  symbol_intern s' !! str = Some v
  /\ make_symbol str s' = (Ok v, s')
  /\ (forall w, symbol_intern s !! str = Some w -> v = w /\ s' = s)
  /\ (forall other w, symbol_intern s !! other = Some w ->
        symbol_intern s' !! other = Some w).
Proof.
  unfold make_symbol. rewrite bind_gets.
  destruct (symbol_intern s !! str) as [v0 |] eqn:Hs.
  - intros [= -> ->]. split; [exact Hs |]. split; [| split].
    + now rewrite bind_gets, Hs.
    + intros w Hw. split; congruence.
    + intros other w Hw. exact Hw.
  - intros H.
    apply bind_Ok_inv in H as (p & s1 & Ha & H).
    rewrite bind_modify in H. injection H as <- <-.
    assert (Hs1 : symbol_intern s1 = symbol_intern s).
    { unfold alloc_string in Ha.
      apply bind_Ok_inv in Ha as (p0 & s0 & Ha & Hb).
      unfold alloc in Ha. injection Ha as <- <-.
      rewrite bind_modify in Hb. now injection Hb as _ <-. }
    assert (Hnew : symbol_intern
                     (with_symbol_intern (insert str (set_payload_raw kTagSymbol p)) s1)
                   !! str = Some (set_payload_raw kTagSymbol p))
      by (cbn; apply lookup_insert_eq).
    split; [exact Hnew |]. split; [| split].
    + now rewrite bind_gets, Hnew.
    + intros w Hw. congruence.
    + intros other w Hw. cbn. rewrite Hs1.
      destruct (decide (str = other)) as [-> | Hne]; [congruence |].
      now rewrite lookup_insert_ne.
Qed.

Lemma make_symbol_interned_witness :
  let r := make_symbol "fresh" initial_state in
  symbol_intern (snd r) !! "fresh"%string
  = Some (match fst r with Ok v => v | _ => nil end).
Proof.
  refine (proj1 (make_symbol_interned "fresh" initial_state _ _ _)).
  vm_compute. reflexivity.
Defined.

(** *** [State::bind], [State::set], [State::get_bound] *)

(** [env->map[key] = v] on the record at [e]. *)
Definition store_in (s : State) (e : Z) (key : string) (v : Value) : State :=
  match envs s !! e with
  | Some d =>
      with_envs (insert e (mkEnv (<[key := v]> (env_map d)) (env_parent d))) s
  | None => s
  end.

Lemma env_store_spec s e key v d :
  envs s !! e = Some d -> env_store e key v s = (Ok tt, store_in s e key v).
Proof.
  intros H. unfold env_store, store_in.
  rewrite (bind_Ok _ _ _ _ _ (read_env_Some _ _ _ H)). now rewrite H.
Qed.

Lemma store_in_envs s e key v d :
  envs s !! e = Some d ->
  envs (store_in s e key v)
  = <[e := mkEnv (<[key := v]> (env_map d)) (env_parent d)]> (envs s).
Proof. intros H. unfold store_in. now rewrite H. Qed.

Lemma store_in_heap s e key v :
  strings (store_in s e key v) = strings s
  /\ pairs (store_in s e key v) = pairs s
  /\ global (store_in s e key v) = global s.
Proof. unfold store_in. now destruct (envs s !! e). Qed.

Lemma binding_end s key e e0 v n :
  binding s key e (Some (e0, v)) n ->
  e0 <> 0 /\ exists d, envs s !! e0 = Some d /\ env_map d !! key = Some v.
Proof.
  intros H. remember (Some (e0, v)) as r eqn:Hr. revert Hr.
  induction H as [| e d v' Hne He Hk | e d r n Hne He Hk Hb IH]; intros Hr.
  - discriminate.
  - injection Hr as -> ->. eauto.
  - auto.
Qed.

(** After a store under [key] at the end of the walk, the walk ends at
    the same place with the stored value. *)
Lemma binding_store_same s key e e0 old v n :
  binding s key e (Some (e0, old)) n ->
  binding (store_in s e0 key v) key e (Some (e0, v)) n.
Proof.
  intros H.
  destruct (binding_end _ _ _ _ _ _ H) as (_ & d0 & Hd0 & Hk0).
  remember (Some (e0, old)) as r eqn:Hr. revert Hr.
  induction H as [| e d v' Hne He Hk | e d r n Hne He Hk Hb IH]; intros Hr.
  - discriminate.
  - injection Hr as -> ->.
    eapply binding_here; [exact Hne | |].
    + rewrite (store_in_envs _ _ _ _ _ Hd0). apply lookup_insert_eq.
    + cbn. apply lookup_insert_eq.
  - assert (Hne0 : e0 <> e) by (intros ->; congruence).
    eapply binding_parent; [exact Hne | | exact Hk | auto].
    rewrite (store_in_envs _ _ _ _ _ Hd0). now rewrite lookup_insert_ne.
Qed.

(** A store under [key] leaves the walks for the other keys as they were. *)
Lemma binding_store_other s key key' e0 v e r n :
  key' <> key -> binding s key' e r n ->
  binding (store_in s e0 key v) key' e r n.
Proof.
  intros Hkk H. unfold store_in.
  destruct (envs s !! e0) as [d0 |] eqn:Hd0; [| exact H].
  induction H as [| e d v' Hne He Hk | e d r n Hne He Hk Hb IH].
  - constructor.
  - destruct (decide (e0 = e)) as [-> | Hne0].
    + eapply binding_here; [exact Hne | cbn; apply lookup_insert_eq |].
      cbn. rewrite lookup_insert_ne by congruence. congruence.
    + eapply binding_here; [exact Hne | | exact Hk].
      cbn. now rewrite lookup_insert_ne.
  - destruct (decide (e0 = e)) as [-> | Hne0].
    + assert (Hdd : d0 = d) by congruence. subst d0.
      eapply (binding_parent _ _ e
                (mkEnv (<[key := v]> (env_map d)) (env_parent d)));
        [exact Hne | cbn; apply lookup_insert_eq | |].
      * cbn. now rewrite lookup_insert_ne by congruence.
      * exact IH.
    + eapply binding_parent; [exact Hne | | exact Hk | exact IH].
      cbn. now rewrite lookup_insert_ne.
Qed.

(** The environment an operation given [env] works on. *)
Definition env_or_global (s : State) (env : Z) : Z :=
  if env =? 0 then global s else env.

Lemma bind_spec sym v env s key d :
  env_or_global s env <> 0 -> envs s !! env_or_global s env = Some d ->
  is_type sym TSYMBOL = true ->
  strings s !! get_payload_raw sym = Some key ->
  bind_ sym v env s = (Ok nil, store_in s (env_or_global s env) key v).
Proof.
  intros Hne He Ty Hstr. unfold bind_. rewrite bind_gets.
  fold (env_or_global s env). rewrite Ty.
  rewrite (is_type_truthy _ _ Ty) by discriminate. cbn [negb orb].
  rewrite (bind_Ok _ _ _ _ _ (get_symbol_Some _ _ _ Hstr)).
  now rewrite (bind_Ok _ _ _ _ _ (env_store_spec _ _ _ _ _ He)).
Qed.

Lemma binding_store_here s key e v d :
  e <> 0 -> envs s !! e = Some d ->
  binding (store_in s e key v) key e (Some (e, v)) 0.
Proof.
  intros Hne He. eapply binding_here; [exact Hne | |].
  - rewrite (store_in_envs _ _ _ _ _ He). apply lookup_insert_eq.
  - cbn. apply lookup_insert_eq.
Qed.

(** [State::bind] on a symbol writes into the given environment itself:
    the binding found from there is the new one, whatever the parents
    bind, the bindings of other names stay, and the value returned is nil
    (the parameter was moved from).  Anything that is not a symbol (nil, a
    number, a string, a pair, a function) is refused with "bind expects a
    symbol" and nothing is written. *)
Theorem bind_writes_here (sym v : Value) (env : Z) (s : State) :
  let e := env_or_global s env in
  (forall key d,
      is_type sym TSYMBOL = true ->
      strings s !! get_payload_raw sym = Some key ->
      e <> 0 -> envs s !! e = Some d ->
      bind_ sym v env s = (Ok nil, store_in s e key v)
      /\ binding (store_in s e key v) key e (Some (e, v)) 0
      /\ (forall key' r n, key' <> key -> binding s key' e r n ->
            binding (store_in s e key v) key' e r n))
  /\ (is_type sym TSYMBOL = false ->
        bind_ sym v env s = (Throw (RuntimeError "bind expects a symbol"), s)).
Proof.
  intros e. split.
  - intros key d Ty Hstr Hne He.
    split; [now apply (bind_spec _ _ _ _ _ d) |]. split.
    + now apply (binding_store_here _ _ _ _ d).
    + intros. now apply binding_store_other.
  - intros Ty. unfold bind_. rewrite bind_gets, Ty. cbn [negb].
    now rewrite orb_true_r.
Qed.

Lemma bind_writes_here_witness :
  let s := initial_state in
  let r := make_symbol "x" s in
  let sym := match fst r with Ok v => v | _ => nil end in
  bind_ sym (make_number d1) 0 (snd r)
  = (Ok nil, store_in (snd r) (global (snd r)) "x" (make_number d1))
  /\ bind_ nil (make_number d1) 0 s
     = (Throw (RuntimeError "bind expects a symbol"), s)
  /\ bind_ (make_number d1) sym 0 (snd r)
     = (Throw (RuntimeError "bind expects a symbol"), snd r)
  /\ bind_ (set_payload_raw kTagPair 64) sym 0 (snd r)
     = (Throw (RuntimeError "bind expects a symbol"), snd r).
Proof.
  intros s r sym. split; [| split; [| split]].
  - refine (proj1 (proj1 (bind_writes_here sym (make_number d1) 0 (snd r)) "x"
              (default (mkEnv ∅ 0) (envs (snd r) !! global (snd r))) _ _ _ _));
      vm_compute; congruence.
  - exact (proj2 (bind_writes_here nil (make_number d1) 0 s) eq_refl).
  - exact (proj2 (bind_writes_here (make_number d1) sym 0 (snd r)) eq_refl).
  - exact (proj2 (bind_writes_here (set_payload_raw kTagPair 64) sym 0 (snd r)) eq_refl).
Defined.

Lemma binding_start s key e r n :
  e <> 0 -> binding s key e r n -> exists d, envs s !! e = Some d.
Proof. intros Hne H. inversion H; subst; eauto. congruence. Qed.

Lemma env_or_global_idem s e : e <> 0 -> env_or_global s e = e.
Proof. intros H. unfold env_or_global. apply Z.eqb_neq in H. now rewrite H. Qed.

(** [State::set] writes where the name is bound: at the nearest
    environment of the chain that binds it, which afterwards binds it to
    the new value; when no environment of the chain binds the name, it
    binds it in the environment it was given.  Either way the bindings of
    other names stay and the value returned is nil. *)
Theorem set_writes_nearest (fuel : nat) (sym v : Value) (env : Z) (s : State)
    (key : string) (r : option (Z * Value)) (n : nat) :
  let e := env_or_global s env in
  let target := match r with Some (e0, _) => e0 | None => e end in
  is_type sym TSYMBOL = true ->
  strings s !! get_payload_raw sym = Some key ->
  e <> 0 -> binding s key e r n -> (n < fuel)%nat ->
  set_ fuel sym v env s = (Ok nil, store_in s target key v)
  /\ binding (store_in s target key v) key e (Some (target, v))
       (match r with Some _ => n | None => 0%nat end)
  /\ (forall key' r' n', key' <> key -> binding s key' e r' n' ->
        binding (store_in s target key v) key' e r' n').
Proof.
  intros e target Ty Hstr Hne Hb Hlt.
  assert (Hset : set_ fuel sym v env s = (Ok nil, store_in s target key v)).
  { unfold set_. rewrite bind_gets. fold (env_or_global s env). fold e.
    rewrite (bind_Ok _ _ _ _ _ (get_symbol_Some _ _ _ Hstr)).
    rewrite (bind_Ok _ _ _ _ _ (find_binding_walk _ _ _ _ _ Hb fuel Hlt)).
    destruct r as [[e0 old] |]; subst target.
    - destruct (binding_end _ _ _ _ _ _ Hb) as (_ & d0 & Hd0 & _).
      now rewrite (bind_Ok _ _ _ _ _ (env_store_spec _ _ _ _ _ Hd0)).
    - destruct (binding_start _ _ _ _ _ Hne Hb) as [d Hd].
      assert (He : env_or_global s e = e) by now apply env_or_global_idem.
      assert (Hbind : bind_ sym v e s = (Ok nil, store_in s e key v)).
      { rewrite <- He at 2. apply (bind_spec _ _ _ _ _ d); rewrite ?He; auto. }
      now rewrite (bind_Ok _ _ _ _ _ Hbind). }
  split; [exact Hset |]. split.
  - destruct r as [[e0 old] |]; subst target.
    + now apply (binding_store_same _ _ _ _ old).
    + destruct (binding_start _ _ _ _ _ Hne Hb) as [d Hd].
      now apply (binding_store_here _ _ _ _ d).
  - intros. now apply binding_store_other.
Qed.

Lemma get_bound_walk fuel name env s r n :
  binding s name (env_or_global s env) r n -> (n < fuel)%nat ->
  get_bound fuel name env s
  = (Ok (match r with Some (_, v) => v | None => nil end), s).
Proof.
  intros Hb Hlt. unfold get_bound. rewrite bind_gets.
  fold (env_or_global s env).
  rewrite (bind_Ok _ _ _ _ _ (find_binding_walk _ _ _ _ _ Hb fuel Hlt)).
  now destruct r as [[e0 v] |].
Qed.

(** [State::get_bound] gives the value of the nearest binding, and nil,
    not an error, for a name that no environment of the chain binds; it
    changes nothing. *)
Theorem get_bound_or_nil (fuel : nat) (name : string) (env : Z) (s : State)
    (r : option (Z * Value)) (n : nat) :
  binding s name (env_or_global s env) r n -> (n < fuel)%nat ->
  get_bound fuel name env s
  = (Ok (match r with Some (_, v) => v | None => nil end), s).
Proof. apply get_bound_walk. Qed.

Lemma set_writes_nearest_witness :
  set_ 3 demo_y (make_number d1) 0 demo_state
  = (Ok nil, store_in demo_state (global demo_state) "y" (make_number d1)).
Proof.
  refine (proj1 (set_writes_nearest 3 demo_y (make_number d1) 0 demo_state
                   "y" None 1 _ _ _ demo_y_unbound _));
    [vm_compute; reflexivity | vm_compute; reflexivity
    | vm_compute; congruence | lia].
Defined.

Lemma get_bound_or_nil_witness :
  get_bound 3 "y" 0 demo_state = (Ok nil, demo_state).
Proof.
  refine (get_bound_or_nil 3 "y" 0 demo_state None 1 demo_y_unbound _). lia.
Defined.

(** *** [bind_params_to_env] *)

(** [p] is a proper list of symbols, with the texts [names]. *)
Inductive param_list (s : State) : Value -> list string -> Prop :=
| param_list_nil p : truthy p = false -> param_list s p []
| param_list_cons p sym rest name names :
    cell s p sym rest -> is_type sym TSYMBOL = true ->
    strings s !! get_payload_raw sym = Some name ->
    param_list s rest names ->
    param_list s p (name :: names).

(** The bindings made for the parameters [names] given the actuals [vs]:
    in order, as far as the actuals go, and beyond them with nil when
    [fill] is set. *)
Fixpoint paired (fill : bool) (names : list string) (vs : list Value)
  : list (string * Value) :=
  match names with
  | [] => []
  | name :: names' =>
      match vs with
      | v :: vs' => (name, v) :: paired fill names' vs'
      | [] => if fill then (name, nil) :: paired fill names' [] else []
      end
  end.

Fixpoint store_all (s : State) (e : Z) (kvs : list (string * Value)) : State :=
  match kvs with
  | [] => s
  | (k, v) :: l => store_all (store_in s e k v) e l
  end.

Lemma param_list_same s s' p names :
  pairs s' = pairs s -> strings s' = strings s ->
  param_list s p names -> param_list s' p names.
Proof.
  intros Ep Es. induction 1 as [| p sym rest name names C Ty Str _ IH].
  - now constructor.
  - econstructor; eauto using cell_same_pairs. now rewrite Es.
Qed.

Lemma actuals_same s s' a vs :
  pairs s' = pairs s -> actuals s a vs -> actuals s' a vs.
Proof.
  intros Ep. induction 1 as [| a x d vs C _ IH].
  - now constructor.
  - econstructor; eauto using cell_same_pairs.
Qed.

Lemma store_in_bound s e key v d :
  envs s !! e = Some d -> exists d', envs (store_in s e key v) !! e = Some d'.
Proof.
  intros H. rewrite (store_in_envs _ _ _ _ _ H). eexists. apply lookup_insert_eq.
Qed.

(** [bind_params_to_env] on a proper list of parameter symbols binds
    them, in order, to the actuals in the same positions.  Actuals beyond
    the parameters are dropped.  Parameters beyond the actuals are left
    unbound, or bound to nil when [fill_missing_with_nil] is set (the
    call of a macro). *)
Theorem bind_params_positional (fill : bool) (out : Z) :
  forall (names : list string) (fuel : nat) (p a : Value) (vs : list Value)
         (s : State) (d : Env),
    param_list s p names -> actuals s a vs -> envs s !! out = Some d ->
    (length names < fuel)%nat ->
    bind_params_to_env fuel out p a fill s
    = (Ok tt, store_all s out (paired fill names vs)).
Proof.
  induction names as [| name names IH];
    intros fuel p a vs s d Hp Ha Hout Hlt;
    (destruct fuel as [| n]; [cbn in Hlt; lia |]);
    inversion Hp as [? Pn | ? sym rest ? ? C Ty Str Hrest]; subst;
    cbn [bind_params_to_env].
  - now rewrite Pn.
  - rewrite (proj1 (is_pair_true _ (proj1 C))). cbn [negb].
    rewrite (is_pair_not_symbol _ (proj1 C)).
    pose proof (is_type_truthy _ _ Ty ltac:(discriminate)) as Tsym.
    inversion Ha as [? An | ? x t vs' Ca Hat]; subst.
    + rewrite An. cbn [negb paired]. rewrite andb_true_r.
      destruct fill; cbn [negb store_all]; [| reflexivity].
      rewrite (bind_Ok _ _ _ _ _ (get_pair_cell _ _ _ _ C)). cbn [car cdr].
      rewrite Tsym, Ty. cbn [andb].
      rewrite !bind_assoc.
      rewrite (bind_Ok _ _ _ _ _ (get_symbol_Some _ _ _ Str)).
      rewrite (bind_Ok _ _ _ _ _ (env_store_spec _ _ _ _ _ Hout)).
      rewrite bind_ret.
      destruct (store_in_heap s out name nil) as (Es & Ep & _).
      destruct (store_in_bound s out name nil d Hout) as [d' Hd'].
      apply (IH n rest a [] _ d'); try assumption.
      * now apply (param_list_same s).
      * now constructor.
      * cbn in Hlt. lia.
    + rewrite (proj1 (is_pair_true _ (proj1 Ca))). cbn [negb paired store_all].
      rewrite andb_false_r.
      rewrite (bind_Ok _ _ _ _ _ (get_pair_cell _ _ _ _ C)). cbn [car cdr].
      rewrite Tsym, Ty. cbn [andb].
      rewrite !bind_assoc.
      rewrite (bind_Ok _ _ _ _ _ (get_symbol_Some _ _ _ Str)).
      rewrite !bind_assoc.
      rewrite (bind_Ok _ _ _ _ _ (get_pair_cell _ _ _ _ Ca)). cbn [car cdr].
      rewrite (bind_Ok _ _ _ _ _ (env_store_spec _ _ _ _ _ Hout)).
      destruct (store_in_heap s out name x) as (Es & Ep & _).
      destruct (store_in_bound s out name x d Hout) as [d' Hd'].
      assert (Ca' : cell (store_in s out name x) a x t)
        by now apply (cell_same_pairs s).
      rewrite !bind_assoc.
      rewrite (bind_Ok _ _ _ _ _ (get_pair_cell _ _ _ _ Ca')). cbn [car cdr].
      rewrite bind_ret.
      apply (IH n rest t vs' _ d'); try assumption.
      * now apply (param_list_same s).
      * now apply (actuals_same s).
      * cbn in Hlt. lia.
Qed.

(** The parameter list [(x y)] and the actuals [(1)]. *)
Definition params_demo_read : Res Value * State :=
  intern_sexp "demo" (slist [SSym "x"; SSym "y"]) initial_state.
Definition params_demo_p : Value :=
  match fst params_demo_read with Ok v => v | _ => nil end.
Definition params_demo_read2 : Res Value * State :=
  intern_sexp "demo" (slist [num 1]) (snd params_demo_read).
Definition params_demo_a : Value :=
  match fst params_demo_read2 with Ok v => v | _ => nil end.
Definition params_demo_state : State := snd params_demo_read2.

Lemma bind_params_positional_witness :
  bind_params_to_env 5 (global params_demo_state) params_demo_p params_demo_a
    true params_demo_state
  = (Ok tt, store_all params_demo_state (global params_demo_state)
              [("x"%string, make_number d1); ("y"%string, nil)]).
Proof.
  eapply (bind_params_positional true _ ["x"; "y"]%string 5 params_demo_p
            params_demo_a [make_number d1] params_demo_state).
  - eapply param_list_cons;
      [split; vm_compute; reflexivity | vm_compute; reflexivity
      | vm_compute; reflexivity |].
    eapply param_list_cons;
      [split; vm_compute; reflexivity | vm_compute; reflexivity
      | vm_compute; reflexivity |].
    apply param_list_nil. vm_compute. reflexivity.
  - eapply actuals_cons; [split; vm_compute; reflexivity |].
    apply actuals_nil. vm_compute. reflexivity.
  - vm_compute. reflexivity.
  - cbn. lia.
Defined.

End EnvFacts.

(* ===================================================================== *)
(** ** Builtins on pairs and numbers ([src/core.cpp]) *)
(* ===================================================================== *)

Module BuiltinFacts.
Export EnvFacts.

Lemma is_pair_tagged p : is_pair (set_payload_raw kTagPair p) = true.
Proof.
  unfold is_pair, is_type, truthy.
  rewrite (get_type_tagged kTagPair TPAIR p) by (cbn; auto). reflexivity.
Qed.

Lemma payload_tagged_fits p :
  fits_payload p = true -> get_payload_raw (set_payload_raw kTagPair p) = p.
Proof.
  intros H. rewrite (get_payload_tagged kTagPair TPAIR p) by (cbn; auto).
  now apply fits_payload_land.
Qed.

(** [State::make_pair]: the cell is taken at the allocator's next
    address. *)
Lemma make_pair_spec a b s :
  make_pair a b s
  = (Ok (set_payload_raw kTagPair (brk s)),
     with_pairs (insert (brk s) (mkPair a b)) (with_brk (fun x => x + 64) s)).
Proof. reflexivity. Qed.

(** The state after [cons] allocated the cell of [a] and [b]. *)
Definition consed (s : State) (a b : Value) : State :=
  with_pairs (insert (brk s) (mkPair a b)) (with_brk (fun x => x + 64) s).

(** [cons] builds a new cell: [car] and [cdr] of the result give the two
    arguments back, and every cell there was, at another address, is as
    it was. *)
Theorem cons_car_cdr (args a b : Value) (s : State) :
  two_args s args a b -> fits_payload (brk s) = true ->
  let v := set_payload_raw kTagPair (brk s) in
  do_builtin_cons args s = (Ok v, consed s a b)
  /\ cell (consed s a b) v a b
  /\ pair_car v (consed s a b) = (Ok a, consed s a b)
  /\ pair_cdr v (consed s a b) = (Ok b, consed s a b)
  /\ (forall q x y, cell s q x y -> get_payload_raw q <> brk s ->
        cell (consed s a b) q x y).
Proof.
  intros (t & u & C1 & C2 & U) Hfit v.
  assert (Hc : cell (consed s a b) v a b).
  { split; [apply is_pair_tagged |].
    subst v. rewrite payload_tagged_fits by exact Hfit.
    cbn. apply lookup_insert_eq. }
  split; [| split; [exact Hc | split; [| split]]].
  - unfold do_builtin_cons.
    rewrite (bind_Ok _ _ _ _ _ (pair_car_cell _ _ _ _ C1)).
    rewrite (bind_Ok _ _ _ _ _ (pair_cdr_cell _ _ _ _ C1)).
    rewrite (bind_Ok _ _ _ _ _ (pair_car_cell _ _ _ _ C2)).
    apply make_pair_spec.
  - now apply pair_car_cell with b.
  - now apply pair_cdr_cell with a.
  - intros q x y [Pq Hq] Hne. split; [exact Pq |].
    cbn. now rewrite lookup_insert_ne by congruence.
Qed.

(** The list [(1 2)] in the initial state. *)
Definition two_demo_read : Res Value * State :=
  intern_sexp "demo" (slist [num 1; num 2]) initial_state.
Definition two_demo_args : Value :=
  match fst two_demo_read with Ok v => v | _ => nil end.
Definition two_demo_state : State := snd two_demo_read.

Lemma two_demo_two_args :
  two_args two_demo_state two_demo_args (make_number (double_to_bits 1))
    (make_number (double_to_bits 2)).
Proof.
  eexists _, _. split; [| split].
  - split; vm_compute; reflexivity.
  - split; vm_compute; reflexivity.
  - vm_compute. reflexivity.
Defined.

Lemma cons_car_cdr_witness :
  let v := set_payload_raw kTagPair (brk two_demo_state) in
  let s' := consed two_demo_state (make_number (double_to_bits 1))
              (make_number (double_to_bits 2)) in
  do_builtin_cons two_demo_args two_demo_state = (Ok v, s')
  /\ pair_car v s' = (Ok (make_number (double_to_bits 1)), s').
Proof.
  destruct (cons_car_cdr two_demo_args _ _ two_demo_state two_demo_two_args
              ltac:(vm_compute; reflexivity)) as (H1 & _ & H3 & _).
  split; [exact H1 | exact H3].
Defined.

(** [setcar] and [setcdr] write into the cell their first argument
    points to and return the value written: afterwards every word with
    that address reads the new part and the old other part.  A first
    argument that is not a pair is refused and nothing is written. *)
Theorem setcar_setcdr_in_place (args p v : Value) (s : State) :
  two_args s args p v ->
  (forall x y, cell s p x y ->
     let s1 := with_pairs (insert (get_payload_raw p) (mkPair v y)) s in
     let s2 := with_pairs (insert (get_payload_raw p) (mkPair x v)) s in
     do_builtin_setcar args s = (Ok v, s1)
     /\ do_builtin_setcdr args s = (Ok v, s2)
     /\ (forall q, is_pair q = true -> get_payload_raw q = get_payload_raw p ->
           cell s1 q v y /\ cell s2 q x v))
  /\ (is_pair p = false ->
        do_builtin_setcar args s
        = (Throw (RuntimeError "setcar expects a pair"), s)
        /\ do_builtin_setcdr args s
           = (Throw (RuntimeError "setcdr expects a pair"), s)).
Proof.
  intros (t & u & C1 & C2 & U).
  assert (Hpre : forall (K : Value -> Value -> M Value),
             (let! p0 := pair_car args in
              let! t0 := pair_cdr args in
              let! v0 := pair_car t0 in K p0 v0) s = K p v s).
  { intros K.
    rewrite (bind_Ok _ _ _ _ _ (pair_car_cell _ _ _ _ C1)).
    rewrite (bind_Ok _ _ _ _ _ (pair_cdr_cell _ _ _ _ C1)).
    now rewrite (bind_Ok _ _ _ _ _ (pair_car_cell _ _ _ _ C2)). }
  split.
  - intros x y C s1 s2.
    destruct (is_pair_true _ (proj1 C)) as [Tp Pp].
    split; [| split].
    + unfold do_builtin_setcar.
      rewrite (Hpre (fun p0 v0 =>
                 if negb (truthy p0) || negb (is_type p0 TPAIR)
                 then runtime_error "setcar expects a pair"
                 else pair_set_car p0 v0 ;;; ret v0)).
      rewrite Tp, Pp. cbn [negb orb]. unfold pair_set_car.
      rewrite Tp, Pp. cbn [negb]. rewrite !bind_assoc.
      now rewrite (bind_Ok _ _ _ _ _ (get_pair_cell _ _ _ _ C)).
    + unfold do_builtin_setcdr.
      rewrite (Hpre (fun p0 v0 =>
                 if negb (truthy p0) || negb (is_type p0 TPAIR)
                 then runtime_error "setcdr expects a pair"
                 else pair_set_cdr p0 v0 ;;; ret v0)).
      rewrite Tp, Pp. cbn [negb orb]. unfold pair_set_cdr.
      rewrite Tp, Pp. cbn [negb]. rewrite !bind_assoc.
      now rewrite (bind_Ok _ _ _ _ _ (get_pair_cell _ _ _ _ C)).
    + intros q Pq Hq. split; (split; [exact Pq |]); subst s1 s2; cbn;
        rewrite Hq; apply lookup_insert_eq.
  - intros Np.
    assert (Hbad : negb (truthy p) || negb (is_type p TPAIR) = true).
    { unfold is_pair in Np. rewrite <- negb_andb. now rewrite Np. }
    split.
    + unfold do_builtin_setcar.
      rewrite (Hpre (fun p0 v0 =>
                 if negb (truthy p0) || negb (is_type p0 TPAIR)
                 then runtime_error "setcar expects a pair"
                 else pair_set_car p0 v0 ;;; ret v0)).
      now rewrite Hbad.
    + unfold do_builtin_setcdr.
      rewrite (Hpre (fun p0 v0 =>
                 if negb (truthy p0) || negb (is_type p0 TPAIR)
                 then runtime_error "setcdr expects a pair"
                 else pair_set_cdr p0 v0 ;;; ret v0)).
      now rewrite Hbad.
Qed.

Lemma setcar_setcdr_in_place_witness :
  do_builtin_setcar two_demo_args two_demo_state
  = (Throw (RuntimeError "setcar expects a pair"), two_demo_state).
Proof.
  refine (proj1 (proj2 (setcar_setcdr_in_place two_demo_args _ _ two_demo_state
                          two_demo_two_args) _)).
  vm_compute. reflexivity.
Defined.

(** [car] and [cdr] of the builtins' first argument [v]: nil for nil, the
    part of the cell for a pair, and the error "car expects a pair"
    ("cdr expects a pair") for anything else; nothing changes. *)
Theorem car_cdr_of_argument (args v t : Value) (s : State) :
  cell s args v t ->
  (truthy v = false ->
     do_builtin_car args s = (Ok nil, s)
     /\ do_builtin_cdr args s = (Ok nil, s))
  /\ (forall x y, cell s v x y ->
        do_builtin_car args s = (Ok x, s)
        /\ do_builtin_cdr args s = (Ok y, s))
  /\ (truthy v = true -> is_type v TPAIR = false ->
        do_builtin_car args s
        = (Throw (RuntimeError "car expects a pair"), s)
        /\ do_builtin_cdr args s
           = (Throw (RuntimeError "cdr expects a pair"), s)).
Proof.
  intros C. unfold do_builtin_car, do_builtin_cdr.
  rewrite !(bind_Ok _ _ _ _ _ (pair_car_cell _ _ _ _ C)).
  split; [| split].
  - intros ->. now split.
  - intros x y Cv. destruct (is_pair_true _ (proj1 Cv)) as [-> ->].
    cbn [negb]. split; [now apply pair_car_cell with y
                       | now apply pair_cdr_cell with x].
  - intros -> ->. now split.
Qed.

Lemma car_cdr_of_argument_witness :
  do_builtin_car two_demo_args two_demo_state
  = (Throw (RuntimeError "car expects a pair"), two_demo_state).
Proof.
  destruct two_demo_two_args as (t & u & C1 & _).
  refine (proj1 (proj2 (proj2 (car_cdr_of_argument two_demo_args _ t
                                 two_demo_state C1)) _ _));
    vm_compute; reflexivity.
Defined.

Lemma env_or_global_global s : env_or_global s (global s) = global s.
Proof. unfold env_or_global. now destruct (global s =? 0). Qed.


(** The comparisons [<], [>], [<=], [>=] ([compare_binary]): a normal
    return means the arguments were exactly two numbers; on two numbers
    the result is what [#t] is bound to on the global chain when the
    comparison holds and nil when it does not, and nothing changes; a
    first argument that is not a number is refused with the message
    "<name>: expected number, got <type>". *)
Theorem compare_binary_spec (fuel : nat) (args : Value)
    (cmp : double -> double -> bool) (name : string) (s : State) :
  (forall v s1,
      compare_binary fuel args cmp name s = (Ok v, s1) ->
      exists a b, two_args s args a b /\ is_number a /\ is_number b)
  /\ (forall a b r n,
        two_args s args a b -> is_number a -> is_number b ->
        binding s "#t" (global s) r n -> (n < fuel)%nat ->
        compare_binary fuel args cmp name s
        = (Ok (if cmp (get_number a) (get_number b)
               then match r with Some (_, t) => t | None => nil end
               else nil), s))
  /\ (forall a b tn,
        two_args s args a b -> is_type a TNUMBER = false ->
        type_name a s = (Ok tn, s) ->
        compare_binary fuel args cmp name s
        = (Throw (RuntimeError (name ++ ": expected number, got " ++ tn)), s)).
Proof.
  split; [| split].
  - intros v s1 H. now apply compare_binary_Ok_inv in H.
  - intros a b r n A Na Nb Hb Hlt. unfold compare_binary.
    rewrite (bind_Ok _ _ _ _ _ (not_two_arguments_two _ _ _ _ A)).
    destruct A as (t & u & C1 & C2 & U).
    rewrite (bind_Ok _ _ _ _ _ (pair_car_cell _ _ _ _ C1)).
    rewrite (bind_Ok _ _ _ _ _ (require_number_number s a name Na)).
    rewrite (bind_Ok _ _ _ _ _ (pair_cdr_cell _ _ _ _ C1)).
    rewrite (bind_Ok _ _ _ _ _ (pair_car_cell _ _ _ _ C2)).
    rewrite (bind_Ok _ _ _ _ _ (require_number_number s b name Nb)).
    destruct (cmp (get_number a) (get_number b)); [| reflexivity].
    rewrite bind_gets. apply (get_bound_walk fuel "#t" (global s) s r n).
    + now rewrite env_or_global_global.
    + exact Hlt.
  - intros a b tn A Na Htn. unfold compare_binary.
    rewrite (bind_Ok _ _ _ _ _ (not_two_arguments_two _ _ _ _ A)).
    destruct A as (t & u & C1 & C2 & U).
    rewrite (bind_Ok _ _ _ _ _ (pair_car_cell _ _ _ _ C1)).
    apply bind_Throw. unfold require_number. rewrite Na. cbn [negb].
    rewrite orb_true_r. now rewrite (bind_Ok _ _ _ _ _ Htn).
Qed.

(** [error] and [exit] never return to their caller: [error] ends in an
    exception, whose message is "error" when it is given no argument and
    the text of its argument when that is a string; [exit] ends the
    process or, given something that is not a number, in an exception. *)
Theorem error_and_exit_never_return (h : Host) (fuel : nat) (args : Value)
    (s : State) :
  (forall v, fst (do_builtin_error h fuel args s) <> Ok v)
  /\ (forall v, fst (do_builtin_exit fuel args s) <> Ok v)
  /\ (truthy args = false ->
        do_builtin_error h fuel args s = (Throw (RuntimeError "error"), s))
  /\ (forall x t msg k,
        cell s args x t -> get_type x = TSTRING ->
        strings s !! get_payload_raw x = Some msg -> fuel = S k ->
        do_builtin_error h fuel args s = (Throw (RuntimeError msg), s)).
Proof.
  split; [| split; [| split]].
  - intros v H.
    destruct (do_builtin_error h fuel args s) as [r s1] eqn:E.
    cbn in H. subst r. unfold do_builtin_error in E.
    apply bind_Ok_inv in E as (x & s2 & _ & E).
    apply bind_Ok_inv in E as (msg & s3 & _ & E). discriminate.
  - intros v H.
    destruct (do_builtin_exit fuel args s) as [r s1] eqn:E.
    cbn in H. subst r. unfold do_builtin_exit in E.
    apply bind_Ok_inv in E as (x & s2 & _ & E).
    apply bind_Ok_inv in E as (code & s3 & _ & E).
    apply bind_Ok_inv in E as (u & s4 & _ & E). discriminate.
  - intros Ta. unfold do_builtin_error, pair_car. rewrite Ta. cbn [negb].
    rewrite bind_ret. now rewrite truthy_nil.
  - intros x t msg k C Tx Hs ->. unfold do_builtin_error.
    rewrite (bind_Ok _ _ _ _ _ (pair_car_cell _ _ _ _ C)).
    rewrite (type_truthy x TSTRING Tx) by discriminate.
    unfold to_string. rewrite (type_truthy x TSTRING Tx) by discriminate.
    cbn [negb to_repr]. rewrite Tx.
    assert (Hg : get_string x s = (Ok msg, s)).
    { unfold get_string. rewrite bind_gets. now apply from_option_Some. }
    now rewrite (bind_Ok _ _ _ _ _ Hg).
Qed.

End BuiltinFacts.

(* ===================================================================== *)
(** ** Files that [require] cannot open ([src/require.hpp]) *)
(* ===================================================================== *)

Module RequireFacts.
Export BuiltinFacts.

(** The message of a failed [require]. *)
Definition could_not_open (name : string) (tried : list string) : Error :=
  RuntimeError ("could not open file: " ++ name ++ " (tried: "
                  ++ join_comma tried ++ ")").

(** When no candidate is in the cache and none opens, [require] fails
    with a message that lists the path tried for each candidate, in
    order, and leaves the state, the cache included, as it was: a later
    [require] tries the files again. *)
Theorem require_missing_file (h : Host) (ev : Value -> Z -> M Value)
    (fuel : nat) (name : string) (s : State) :
  forall (cands tried : list string),
    (forall c, In c cands ->
       loaded_modules s !! require_key h c = None
       /\ require_open h c (require_key h c) = None) ->
    require_each h ev fuel name cands tried s
    = (Throw (could_not_open name (tried ++ List.map (require_key h) cands)), s).
Proof.
  induction cands as [| c rest IH]; intros tried Hall; cbn [require_each List.map].
  - now rewrite app_nil_r.
  - destruct (Hall c (or_introl eq_refl)) as [Hn Ho].
    rewrite bind_gets, Hn, Ho.
    rewrite IH by (intros c' Hc'; apply Hall; now right).
    now rewrite <- app_assoc.
Qed.

Lemma require_missing_file_witness :
  require_each bare_host (eval bare_host 5) 5 "m.lisp"
    ["lib/m.lisp"; "m.lisp"]%string [] initial_state
  = (Throw (RuntimeError
              "could not open file: m.lisp (tried: lib/m.lisp, m.lisp)"),
     initial_state).
Proof.
  refine (require_missing_file bare_host _ 5 "m.lisp" initial_state
            ["lib/m.lisp"; "m.lisp"]%string [] _).
  intros c [<- | [<- | []]]; split; vm_compute; reflexivity.
Defined.

(** [require] given anything but a string throws
    "require requires a string". *)
Lemma require_wants_string h ev fuel args x t s :
  cell s args x t -> is_type x TSTRING = false ->
  do_builtin_require h ev fuel args s
  = (Throw (RuntimeError "require requires a string"), s).
Proof.
  intros C Tx. unfold do_builtin_require.
  rewrite (proj1 (is_pair_true _ (proj1 C))).
  rewrite (bind_Ok _ _ _ _ _ (pair_car_cell _ _ _ _ C)).
  rewrite Tx. cbn [negb]. now rewrite orb_true_r.
Qed.

End RequireFacts.

(* ===================================================================== *)
(** ** The compiler and the helpers of compiled code ([src/jit]) *)
(* ===================================================================== *)

Module JitFacts.
Export RequireFacts.

(** A computation that keeps every property of the state leaves the
    state as it is. *)
Definition reads_only {A} (m : M A) : Prop :=
  forall s r s', m s = (r, s') -> (forall c, r <> Exit c) -> s' = s.

Lemma keeps_all_reads_only {A} (m : M A) :
  (forall P, keeps P m) -> reads_only m.
Proof.
  intros H s r s' E Hr. symmetry. now apply (H (fun x => s = x) s r s' E Hr).
Qed.

(** Lowering a function body, collecting the functions it calls, the
    argument scan of a call, printing, comparing and looking up a name
    only read the state: whatever they end with, the state is the one
    they were started in. *)
Theorem readers_change_nothing :
  (forall fuel fd, reads_only (build_func_ir fuel fd))
  /\ (forall fuel closure expr, reads_only (collect_called_funcs fuel closure expr))
  /\ (forall fuel args, reads_only (scan_numeric fuel args []))
  /\ (forall h fuel v, reads_only (to_string h fuel v))
  /\ (forall v, reads_only (type_name v))
  /\ (forall fuel a b, reads_only (value_equal fuel a b))
  /\ (forall fuel e key, reads_only (find_binding fuel e key))
  /\ (forall fuel env_ptr name, reads_only (jit_lookup_number fuel env_ptr name)).
Proof.
  repeat split; intros; apply keeps_all_reads_only; intros P; auto with keeps.
Qed.

(** *** [VDLISP__call_from_jit] and [VDLISP__jit_lookup_number] *)

Lemma catch_all_no_throw {A} (m : M A) (a : A) s e :
  fst (catch_all m (fun _ => ret a) s) <> Throw e.
Proof.
  unfold catch_all. destruct (m s) as [[x | e0 | | | c] s1]; cbn; discriminate.
Qed.

(** The double that compiled code reads for a value. *)
Definition number_or_NaN (v : Value) : double :=
  if negb (truthy v) || negb (is_type v TNUMBER) then quiet_NaN
  else get_number v.

(** The environment [jit_lookup_number] starts from. *)
Definition lookup_start (s : State) (env_ptr : Z) : Z :=
  if env_ptr =? 0 then (if jit_active_state s then global s else 0)
  else env_ptr.

(** The bridge from compiled code into the interpreter never lets an
    exception out, and answers NaN without calling anything when no
    state is active or the function pointer is null.  The lookup of a
    free variable gives the number bound to the name by the nearest
    binding, and NaN when the name is unbound or bound to something that
    is not a number. *)
Theorem jit_bridge_signals_by_NaN (call : Value -> Value -> M Value)
    (fd : Z) (args : list double) (s : State) :
  (forall e, fst (call_from_jit call fd args s) <> Throw e)
  /\ (jit_active_state s = false ->
        call_from_jit call fd args s = (Ok quiet_NaN, s))
  /\ (fd = 0 -> call_from_jit call fd args s = (Ok quiet_NaN, s))
  /\ (forall fuel env_ptr name r n,
        binding s name (lookup_start s env_ptr) r n -> (n < fuel)%nat ->
        jit_lookup_number fuel env_ptr name s
        = (Ok (match r with
               | Some (_, v) => number_or_NaN v
               | None => quiet_NaN
               end), s)).
Proof.
  split; [| split; [| split]].
  - intros e. apply catch_all_no_throw.
  - intros Hact. unfold call_from_jit, catch_all.
    rewrite bind_gets, Hact. reflexivity.
  - intros ->. unfold call_from_jit, catch_all, bind, gets.
    destruct (jit_active_state s); reflexivity.
  - intros fuel env_ptr name r n Hb Hlt. unfold jit_lookup_number.
    rewrite !bind_gets. fold (lookup_start s env_ptr).
    destruct (lookup_start s env_ptr =? 0) eqn:E0.
    + apply Z.eqb_eq in E0. rewrite E0 in Hb.
      inversion Hb; subst; [reflexivity | congruence | congruence].
    + rewrite (bind_Ok _ _ _ _ _ (find_binding_walk _ _ _ _ _ Hb fuel Hlt)).
      destruct r as [[e0 v] |]; [| reflexivity].
      unfold number_or_NaN.
      destruct (negb (truthy v) || negb (is_type v TNUMBER)); reflexivity.
Qed.

(** *** [JITCompiler::compileFuncData] *)

Lemma set_compiled_code_Ok_state fd c s u s' :
  set_compiled_code fd c s = (Ok u, s') ->
  module_for_fn s' = module_for_fn s
  /\ exists d, funcs s' !! fd = Some d /\ compiled_code d = c.
Proof.
  unfold set_compiled_code. intros H.
  apply bind_Ok_inv in H as (d & s1 & Hr & Hw).
  apply read_func_Ok_inv in Hr as [_ ->].
  unfold write_func, modify in Hw. injection Hw as _ <-.
  split; [reflexivity |].
  eexists. cbn. rewrite lookup_insert_eq. split; reflexivity.
Qed.

Lemma build_func_ir_owner fuel fd s fn s1 :
  build_func_ir fuel fd s = (Ok (Some fn), s1) -> IR.fn_owner fn = fd.
Proof.
  unfold build_func_ir. destruct (fd =? 0); [discriminate |]. intros H.
  apply bind_Ok_inv in H as (func & s2 & _ & H).
  apply bind_Ok_inv in H as (pidx & s3 & _ & H).
  apply bind_Ok_inv in H as (r & s4 & _ & H).
  destruct r as [[vs l] |]; [| discriminate].
  now injection H as <- _.
Qed.

Lemma compileFunctionFromBuilder_Ok_inv b s ptr s' :
  compileFunctionFromBuilder b s = (Ok ptr, s') -> ptr <> 0 ->
  exists fn s1, b s = (Ok (Some fn), s1)
                /\ module_for_fn s' !! ptr = Some fn.
Proof.
  unfold compileFunctionFromBuilder. intros H Hne.
  apply bind_Ok_inv in H as (f & s1 & Hb & H).
  destruct f as [fn |]; [| injection H as <- _; congruence].
  apply bind_Ok_inv in H as (p & s2 & Ha & H).
  unfold alloc in Ha. injection Ha as <- <-.
  rewrite bind_modify in H. injection H as <- <-.
  exists fn, s1. split; [exact Hb |]. cbn. apply lookup_insert_eq.
Qed.

(** What [compileFuncData] returns agrees with what it leaves behind: a
    non-null entry is the [compiled_code] of the function's record and is
    registered as code built from that function; a null result for a
    function leaves its record marked [jit_failed].  For the null
    function it returns null and does nothing. *)
Theorem compileFuncData_result (fuel : nat) (func : Z) (s s' : State) (c : Z) :
  compileFuncData fuel func s = (Ok c, s') ->
  (func = 0 -> c = 0 /\ s' = s)
  /\ (func <> 0 ->
        exists d, funcs s' !! func = Some d
          /\ (c <> 0 ->
                compiled_code d = c
                /\ exists fn, module_for_fn s' !! c = Some fn
                              /\ IR.fn_owner fn = func)
          /\ (c = 0 -> jit_failed d = true)).
Proof.
  destruct fuel as [| n]; [discriminate |]. cbn [compileFuncData].
  destruct (func =? 0) eqn:E0.
  - intros [= <- <-]. split; [auto | intros Hne; lia].
  - intros H. split; [intros ->; discriminate |]. intros _.
    apply bind_Ok_inv in H as (fdata & s1 & _ & H).
    apply bind_Ok_inv in H as (to_compile & s2 & _ & H).
    apply bind_Ok_inv in H as (u & s3 & _ & H).
    assert (Hfail : forall sa z sb,
               (set_jit_failed func true ;;; ret 0) sa = (Ok z, sb) ->
               z = 0 /\ exists d, funcs sb !! func = Some d /\ jit_failed d = true).
    { intros sa z sb Hf. apply bind_Ok_inv in Hf as (u1 & sc & Hj & Hr).
      injection Hr as <- <-. split; [reflexivity |].
      now apply set_jit_failed_Ok_inv in Hj. }
    unfold catch_all in H.
    match type of H with
    | (match ?m s3 with _ => _ end) = _ =>
        destruct (m s3) as [[x | e | | | x] s4] eqn:E
    end; try discriminate.
    + injection H as -> ->.
      apply bind_Ok_inv in E as (ptr & s5 & Hb & E).
      destruct (ptr =? 0) eqn:Ep.
      * apply Hfail in E as [-> (d & Hd & Hj)].
        exists d. split; [exact Hd |]. split; [congruence | auto].
      * apply Z.eqb_neq in Ep.
        apply bind_Ok_inv in E as (u1 & s6 & Hc & Hr). injection Hr as <- <-.
        apply set_compiled_code_Ok_state in Hc as (Hm & d & Hd & Hcc).
        exists d. split; [exact Hd |]. split; [| congruence].
        intros _. split; [exact Hcc |].
        destruct (compileFunctionFromBuilder_Ok_inv _ _ _ _ Hb Ep)
          as (fn & s7 & Hbuild & Hreg).
        exists fn. split; [now rewrite Hm |].
        now apply build_func_ir_owner in Hbuild.
    + apply Hfail in H as [-> (d & Hd & Hj)].
      exists d. split; [exact Hd |]. split; [congruence | auto].
Qed.

Lemma compileFuncData_result_witness :
  let r := compileFuncData 30 warm_fd warm_state in
  exists c d, fst r = Ok c /\ c <> 0
              /\ funcs (snd r) !! warm_fd = Some d /\ compiled_code d = c.
Proof.
  intros r.
  assert (Hr : r = (Ok (brk warm_state), snd r)) by (vm_compute; reflexivity).
  destruct (proj2 (compileFuncData_result 30 warm_fd warm_state (snd r)
                     (brk warm_state) Hr) ltac:(vm_compute; congruence))
    as (d & Hd & Hc & _).
  exists (brk warm_state), d. rewrite Hr at 1.
  assert (Hne : brk warm_state <> 0) by (vm_compute; congruence).
  split; [reflexivity |]. split; [exact Hne |]. split; [exact Hd |].
  apply (Hc Hne).
Defined.

(** Compiling a function, and the functions it calls, changes no
    function's numeric-call counter. *)
Theorem compile_keeps_counters (fuel : nat) (g fd n : Z) (s s' : State)
    (r : Res Z) :
  counted fd n s ->
  compileFuncData fuel g s = (r, s') -> (forall c, r <> Exit c) ->
  counted fd n s'.
Proof.
  intros Hc H Hr.
  exact (keeps_compileFuncData _ (counted_Stable fd n) fuel g s r s' H Hr Hc).
Qed.

Lemma compile_keeps_counters_witness :
  counted warm_fd 3 (snd (compileFuncData 30 warm_fd warm_state)).
Proof.
  refine (compile_keeps_counters 30 warm_fd warm_fd 3 warm_state _ _ _
            (surjective_pairing _) _).
  - exists warm_record. split; vm_compute; reflexivity.
  - intros c. vm_compute. discriminate.
Defined.

End JitFacts.

(* ===================================================================== *)
(** ** Evaluation of atoms and of the forms [quote] and [fn] *)
(* ===================================================================== *)

Module EvalFacts.
Export JitFacts.

(** Numbers, strings, functions, macros, primitives and builtins evaluate
    to themselves and leave the state, [current_expr] included, as it
    was; nil evaluates to nil and is left in [current_expr]. *)
Theorem atoms_evaluate_to_themselves (h : Host) (fuel : nat) (expr : Value)
    (env : Z) (s : State) :
  (get_type expr <> TNIL -> get_type expr <> TSYMBOL ->
   get_type expr <> TPAIR ->
   eval h (S fuel) expr env s = (Ok expr, s))
  /\ (get_type expr = TNIL ->
      eval h (S fuel) expr env s
      = (Ok nil, with_current_expr (fun _ => expr) s)).
Proof.
  split.
  - intros Hn Hs Hp. cbn [eval]. unfold eval_step.
    rewrite bind_gets, bind_modify.
    rewrite (type_truthy expr _ eq_refl Hn). cbn [negb]. rewrite bind_gets.
    destruct (get_type expr) eqn:Ty; try congruence;
      rewrite bind_modify; unfold ret; now rewrite restore_current_expr.
  - intros Ty. cbn [eval]. unfold eval_step.
    rewrite bind_gets, bind_modify. unfold truthy. now rewrite Ty.
Qed.

Lemma atoms_evaluate_to_themselves_witness :
  eval bare_host 1 (make_number d1) 0 initial_state
  = (Ok (make_number d1), initial_state).
Proof.
  refine (proj1 (atoms_evaluate_to_themselves bare_host 0 (make_number d1) 0
                   initial_state) _ _ _);
    vm_compute; discriminate.
Defined.

Lemma env_or_global_twice s env :
  env_or_global s (env_or_global s env) = env_or_global s env.
Proof.
  unfold env_or_global. destruct (env =? 0) eqn:E; [| now rewrite E].
  now destruct (global s =? 0).
Qed.

(** The value of a bound symbol. *)
Lemma eval_symbol_value h s expr env key e0 v n fuel :
  get_type expr = TSYMBOL ->
  strings s !! get_payload_raw expr = Some key ->
  binding s key (env_or_global s env) (Some (e0, v)) n -> (n < fuel)%nat ->
  eval h (S fuel) expr env s = (Ok v, s).
Proof.
  intros Ty Str B Hlt. cbn [eval]. unfold eval_step.
  rewrite bind_gets, bind_modify.
  rewrite (type_truthy expr TSYMBOL Ty) by discriminate. cbn [negb].
  rewrite bind_gets. rewrite Ty.
  set (s1 := with_current_expr (fun _ => expr) s).
  assert (Str1 : strings s1 !! get_payload_raw expr = Some key) by exact Str.
  rewrite (bind_Ok _ _ _ _ _ (get_symbol_Some _ _ _ Str1)).
  assert (B1 : binding s1 key (if env =? 0 then global s1 else env)
                 (Some (e0, v)) n).
  { apply (binding_same_envs s); [reflexivity | exact B]. }
  rewrite (bind_Ok _ _ _ _ _ (find_binding_walk _ _ _ _ _ B1 fuel Hlt)).
  rewrite bind_modify. unfold ret, s1. now rewrite restore_current_expr.
Qed.

(** A form whose head is a symbol bound to the primitive [p]: the
    primitive is given the rest of the form, unevaluated, and the
    environment of the evaluation. *)
Lemma eval_prim_form h s expr env head args key p e0 n fuel :
  cell s expr head args ->
  get_type head = TSYMBOL ->
  strings s !! get_payload_raw head = Some key ->
  binding s key (env_or_global s env) (Some (e0, make_prim p)) n ->
  (n < fuel)%nat ->
  eval h (S (S fuel)) expr env s
  = (let! res := call_prim (eval h (S fuel)) (call h (S fuel)) (S fuel) p
                   args (env_or_global s env) in
     modify (with_current_expr (fun _ => current_expr s)) ;;; ret res)
      (with_current_expr (fun _ => expr) s).
Proof.
  intros Ce Ty Str B Hlt.
  cbn [eval]. unfold eval_step at 1.
  rewrite bind_gets, bind_modify.
  rewrite (proj1 (is_pair_true _ (proj1 Ce))). cbn [negb].
  rewrite bind_gets. rewrite (is_pair_type _ (proj1 Ce)).
  set (s1 := with_current_expr (fun _ => expr) s).
  assert (Ce1 : cell s1 expr head args) by exact Ce.
  rewrite (bind_Ok _ _ _ _ _ (get_pair_cell _ _ _ _ Ce1)). cbn [car cdr].
  change (global s1) with (global s). fold (env_or_global s env).
  assert (B1 : binding s1 key (env_or_global s1 (env_or_global s env))
                 (Some (e0, make_prim p)) n).
  { apply (binding_same_envs s); [reflexivity |].
    change (env_or_global s1) with (env_or_global s).
    now rewrite env_or_global_twice. }
  pose proof (eval_symbol_value h s1 head _ key e0 _ n fuel Ty Str B1 Hlt) as Ev.
  cbn [eval] in Ev. rewrite (bind_Ok _ _ _ _ _ Ev).
  assert (Tp : truthy (make_prim p) = true) by now destruct p.
  assert (Pp : is_type (make_prim p) TPRIM = true) by now destruct p.
  rewrite Tp, Pp. cbn [negb].
  rewrite (bind_Ok _ _ _ _ _ (get_prim_make_prim p s1)).
  reflexivity.
Qed.

(** [(quote x)] evaluates to [x] itself, which is not evaluated, and
    leaves the state as it was. *)
Theorem quote_returns_operand (h : Host) (s : State) (expr : Value) (env : Z)
    (head args x rest : Value) (e0 : Z) (n fuel : nat) :
  cell s expr head args ->
  get_type head = TSYMBOL ->
  strings s !! get_payload_raw head = Some "quote"%string ->
  binding s "quote" (env_or_global s env) (Some (e0, make_prim prim_quote)) n ->
  (n < fuel)%nat ->
  cell s args x rest ->
  eval h (S (S fuel)) expr env s = (Ok x, s).
Proof.
  intros Ce Ty Str B Hlt Ca.
  rewrite (eval_prim_form h s expr env head args "quote" prim_quote e0 n fuel)
    by assumption.
  cbn [call_prim].
  assert (Ca1 : cell (with_current_expr (fun _ => expr) s) args x rest)
    by exact Ca.
  rewrite (bind_Ok _ _ _ _ _ (pair_car_cell _ _ _ _ Ca1)).
  rewrite bind_modify. unfold ret. now rewrite restore_current_expr.
Qed.

(** [(quote y)] and [(fn (x) x)] read into the initial state. *)
Definition quote_demo_read : Res Value * State :=
  intern_sexp "demo" (app "quote" [SSym "y"]) initial_state.
Definition quote_demo_expr : Value :=
  match fst quote_demo_read with Ok v => v | _ => nil end.
Definition quote_demo_state : State := snd quote_demo_read.
Definition quote_demo_y : Value :=
  default nil (symbol_intern quote_demo_state !! "y"%string).

Lemma global_prim_binding s name p :
  global s <> 0 ->
  (envs s !! global s ≫= fun d => env_map d !! name) = Some (make_prim p) ->
  binding s name (env_or_global s 0) (Some (global s, make_prim p)) 0.
Proof.
  intros Hne H. change (env_or_global s 0) with (global s).
  destruct (envs s !! global s) as [d |] eqn:Hd; [| discriminate].
  now apply (binding_here s name (global s) d).
Qed.

Lemma quote_returns_operand_witness :
  eval bare_host 3 quote_demo_expr 0 quote_demo_state
  = (Ok quote_demo_y, quote_demo_state).
Proof.
  eapply (quote_returns_operand bare_host quote_demo_state quote_demo_expr 0
            _ _ _ _ (global quote_demo_state) 0 1).
  - split; vm_compute; reflexivity.
  - vm_compute; reflexivity.
  - vm_compute; reflexivity.
  - apply global_prim_binding; vm_compute; congruence.
  - lia.
  - split; vm_compute; reflexivity.
Defined.

(** [(fn params body...)] makes a function of the parameter list and the
    body as they stand, closed over the environment of the evaluation:
    its record is new, with both call counters zero, no compiled code and
    [jit_failed] unset. *)
Theorem fn_makes_closure (h : Host) (s : State) (expr : Value) (env : Z)
    (head args ps bd : Value) (e0 : Z) (n fuel : nat) :
  cell s expr head args ->
  get_type head = TSYMBOL ->
  strings s !! get_payload_raw head = Some "fn"%string ->
  binding s "fn" (env_or_global s env) (Some (e0, make_prim prim_fn)) n ->
  (n < fuel)%nat ->
  cell s args ps bd ->
  let record := mkFunc ps bd (env_or_global s env) 0 0 0 false in
  let s' := with_funcs (insert (brk s) record) (with_brk (fun b => b + 64) s) in
  eval h (S (S fuel)) expr env s = (Ok (set_payload_raw kTagFunc (brk s)), s')
  /\ funcs s' !! brk s = Some record
  /\ get_type (set_payload_raw kTagFunc (brk s)) = TFUNC.
Proof.
  intros Ce Ty Str B Hlt Ca record s'.
  split; [| split].
  - rewrite (eval_prim_form h s expr env head args "fn" prim_fn e0 n fuel)
      by assumption.
    cbn [call_prim].
    assert (Ca1 : cell (with_current_expr (fun _ => expr) s) args ps bd)
      by exact Ca.
    mstep (pair_car_cell _ _ _ _ Ca1).
    mstep (pair_cdr_cell _ _ _ _ Ca1).
    unfold make_function, alloc_func, alloc, bind, modify, ret. reflexivity.
  - subst s'. cbn. apply lookup_insert_eq.
  - apply (get_type_tagged kTagFunc TFUNC). cbn. auto.
Qed.

Definition fn_demo_read : Res Value * State :=
  intern_sexp "demo" (app "fn" [slist [SSym "x"]; SSym "x"]) initial_state.
Definition fn_demo_expr : Value :=
  match fst fn_demo_read with Ok v => v | _ => nil end.
Definition fn_demo_state : State := snd fn_demo_read.

Lemma fn_makes_closure_witness :
  exists ps bd,
    funcs (snd (eval bare_host 3 fn_demo_expr 0 fn_demo_state))
      !! brk fn_demo_state
    = Some (mkFunc ps bd (global fn_demo_state) 0 0 0 false).
Proof.
  eexists _, _.
  pose proof (fn_makes_closure bare_host fn_demo_state fn_demo_expr 0
                _ _ _ _ (global fn_demo_state) 0 1
                ltac:(split; vm_compute; reflexivity)
                ltac:(vm_compute; reflexivity)
                ltac:(vm_compute; reflexivity)
                ltac:(apply global_prim_binding; vm_compute; congruence)
                ltac:(lia)
                ltac:(split; vm_compute; reflexivity)) as (He & Hr & _).
  rewrite He. exact Hr.
Defined.

End EvalFacts.

(* ===================================================================== *)
(** ** The list of strings built for [argv] ([State::make_string_list]) *)
(* ===================================================================== *)

Module ListFacts.
Export EvalFacts.

Lemma payload_of_tagged tag t p :
  In (tag, t) pointer_tags -> 0 <= p < 2 ^ 48 ->
  get_payload_raw (set_payload_raw tag p) = p.
Proof.
  intros Hin Hp. rewrite (get_payload_tagged tag t p Hin).
  now apply fits_payload_land, fits_payload_range.
Qed.

Lemma is_type_tagged tag t p :
  In (tag, t) pointer_tags -> is_type (set_payload_raw tag p) t = true.
Proof.
  intros Hin. unfold is_type. rewrite (get_type_tagged tag t p Hin).
  now destruct t.
Qed.

(** What the slot [last] holds: the local [head], or the [cdr] member of
    the cell it points into. *)
Definition slot_value (s : State) (head : Value) (last : Slot) : Value :=
  match last with
  | SlotHead => head
  | SlotCdr p => default nil (cdr <$> pairs s !! p)
  end.

(** The slot is empty and, when it lies in a cell, the cell is below the
    allocator's next address. *)
Definition slot_ready (s : State) (head : Value) (last : Slot) : Prop :=
  match last with
  | SlotHead => head = nil
  | SlotCdr p => p < brk s /\ exists c, pairs s !! p = Some (mkPair c nil)
  end.

Definition slot_excludes (last : Slot) (q : Z) : Prop :=
  match last with SlotHead => True | SlotCdr p => q <> p end.

Lemma read_string_list_cons fuel s v pd b rest :
  is_pair v = true ->
  pairs s !! get_payload_raw v = Some pd ->
  is_type (car pd) TSTRING = true ->
  strings s !! get_payload_raw (car pd) = Some b ->
  read_string_list fuel s (cdr pd) = Some rest ->
  read_string_list (S fuel) s v = Some (b :: rest).
Proof.
  intros Pv Hv Ts Hs Hr. cbn [read_string_list].
  rewrite (proj1 (is_pair_true _ Pv)), Pv. cbn [negb].
  rewrite Hv. cbn. rewrite Ts, Hs. cbn. now rewrite Hr.
Qed.

(** The loop of [make_string_list] from any point of its run: the
    strings are read back from the slot it started at, and below the
    allocator's old next address only the cell of that slot changed, in
    its [cdr]. *)
Lemma make_string_list_from_spec :
  forall (l : list string) (s : State) (head : Value) (last : Slot),
    0 <= brk s -> brk s + 128 * Z.of_nat (length l) <= 2 ^ 48 ->
    slot_ready s head last ->
    exists head' s',
      make_string_list_from l head last s = (Ok head', s')
      /\ read_string_list (S (length l)) s' (slot_value s' head' last) = Some l
      /\ (forall q, q < brk s -> slot_excludes last q ->
            pairs s' !! q = pairs s !! q)
      /\ (forall q, q < brk s -> strings s' !! q = strings s !! q)
      /\ (forall p, last = SlotCdr p ->
            car <$> pairs s' !! p = car <$> pairs s !! p).
Proof.
  induction l as [| b l IH]; intros s head last Hb0 Hb1 Hready.
  - exists head, s. cbn [make_string_list_from length].
    split; [reflexivity |]. split; [| auto].
    destruct last as [| p]; cbn in Hready |- *.
    + now subst head.
    + destruct Hready as (_ & c & Hc). now rewrite Hc.
  - cbn [length] in Hb1. rewrite Nat2Z.inj_succ in Hb1.
    set (ps := brk s). set (pc := brk s + 64).
    set (sv := set_payload_raw kTagString ps).
    set (cl := set_payload_raw kTagPair pc).
    assert (Hps : get_payload_raw sv = ps)
      by (apply (payload_of_tagged kTagString TSTRING); [cbn; auto | subst ps; lia]).
    assert (Hpc : get_payload_raw cl = pc)
      by (apply (payload_of_tagged kTagPair TPAIR); [cbn; auto 10 | subst pc; lia]).
    assert (Tsv : is_type sv TSTRING = true)
      by (apply is_type_tagged; cbn; auto).
    assert (Pcl : is_pair cl = true) by apply is_pair_tagged.
    (* the state after the string and its cell were allocated *)
    set (s0 := with_pairs (insert pc (mkPair sv nil))
                 (with_brk (fun x => x + 64)
                    (with_strings (insert ps b)
                       (with_brk (fun x => x + 64) s)))).
    set (s1 := match last with
               | SlotHead => s0
               | SlotCdr p =>
                   with_pairs
                     (insert p (mkPair (default nil (car <$> pairs s !! p)) cl))
                     s0
               end).
    set (head1 := match last with SlotHead => cl | SlotCdr _ => head end).
    assert (Hstep : make_string_list_from (b :: l) head last s
                    = make_string_list_from l head1 (SlotCdr pc) s1).
    { cbn [make_string_list_from].
      unfold make_string, alloc_string, push_back, make_pair, alloc_pair, alloc.
      unfold bind, modify, ret, gets. cbn.
      change (set_payload_raw kTagPair (brk s + 64)) with cl.
      change (set_payload_raw kTagString (brk s)) with sv.
      destruct last as [| p]; cbn.
      - now rewrite Hpc.
      - destruct Hready as (Hp & c & Hc).
        assert (Hne : pc <> p) by (subst pc; lia).
        change (brk s + 64) with pc.
        rewrite lookup_insert_ne by exact Hne. rewrite Hc. cbn.
        subst s1 s0 head1. now rewrite Hc, Hpc. }
    assert (Hbrk1 : brk s1 = brk s + 128).
    { subst s1 s0. destruct last; cbn; lia. }
    assert (Hpc1 : pairs s1 !! pc = Some (mkPair sv nil)).
    { subst s1 s0. destruct last as [| p]; cbn.
      - apply lookup_insert_eq.
      - destruct Hready as (Hp & _).
        rewrite lookup_insert_ne by (subst pc; lia). apply lookup_insert_eq. }
    destruct (IH s1 head1 (SlotCdr pc)) as (head' & s' & Hrun & Hread & Hfp & Hfs & Hcar).
    { lia. } { lia. }
    { cbn. split; [subst pc; lia | eauto]. }
    exists head', s'. rewrite Hstep. split; [exact Hrun |].
    (* the cell of the first string in the final state *)
    assert (Hcell : exists cd, pairs s' !! pc = Some (mkPair sv cd)
                               /\ read_string_list (S (length l)) s' cd = Some l).
    { specialize (Hcar pc eq_refl). rewrite Hpc1 in Hcar.
      cbn [slot_value] in Hread.
      destruct (pairs s' !! pc) as [[c0 cd] |]; cbn in Hcar; [| discriminate].
      injection Hcar as ->. exists cd. split; [reflexivity | exact Hread]. }
    destruct Hcell as (cd & Hcd & Hrest).
    assert (Hstr : strings s' !! ps = Some b).
    { rewrite Hfs by (subst ps; lia).
      subst s1 s0. destruct last; cbn; apply lookup_insert_eq. }
    assert (Hcl : read_string_list (S (S (length l))) s' cl = Some (b :: l)).
    { apply (read_string_list_cons _ _ _ (mkPair sv cd)); cbn [car cdr];
        try assumption.
      - now rewrite Hpc.
      - now rewrite Hps. }
    split; [| split; [| split]].
    + destruct last as [| p]; cbn [slot_value length].
      * (* the head is the new cell *)
        assert (Hh : head' = cl).
        { clear - Hrun. revert Hrun. generalize s1.
          subst head1. cbn.
          assert (G : forall l0 hd p0 st hd' st',
                     make_string_list_from l0 hd (SlotCdr p0) st = (Ok hd', st') ->
                     hd' = hd).
          { induction l0 as [| b0 l0 IH0]; intros hd p0 st hd' st' H.
            - now injection H as <- _.
            - cbn [make_string_list_from] in H.
              apply bind_Ok_inv in H as (sv0 & st1 & _ & H).
              apply bind_Ok_inv in H as ([h1 l1] & st2 & Hp & H).
              unfold push_back in Hp.
              apply bind_Ok_inv in Hp as (c0 & st3 & _ & Hp).
              apply bind_Ok_inv in Hp as (hp & st4 & _ & Hp).
              apply bind_Ok_inv in Hp as (pd0 & st5 & _ & Hp).
              rewrite bind_modify in Hp. injection Hp as <- <- _.
              now apply IH0 in H. }
          intros st H. now apply G in H. }
        now rewrite Hh.
      * destruct Hready as (Hp & c & Hc).
        assert (Hp1 : pairs s' !! p = Some (mkPair c cl)).
        { rewrite Hfp by (cbn; subst pc; lia).
          subst s1 s0. cbn. rewrite Hc. cbn. apply lookup_insert_eq. }
        rewrite Hp1. exact Hcl.
    + intros q Hq Hex. rewrite Hfp by (cbn; subst pc; lia).
      subst s1 s0. destruct last as [| p]; cbn.
      * now rewrite lookup_insert_ne by (subst pc; lia).
      * cbn in Hex. rewrite lookup_insert_ne by congruence.
        now rewrite lookup_insert_ne by (subst pc; lia).
    + intros q Hq. rewrite Hfs by lia.
      subst s1 s0. destruct last; cbn;
        now rewrite lookup_insert_ne by (subst ps; lia).
    + intros p ->. destruct Hready as (Hp & c & Hc).
      rewrite Hfp by (cbn; subst pc; lia).
      subst s1 s0. cbn. rewrite Hc. cbn. now rewrite lookup_insert_eq.
Qed.

(** The list built by [make_string_list(argc, argv, start)] holds the
    strings [argv[start]] ... [argv[argc - 1]], in order: read back from
    the heap it is that range of [argv].  The strings and cells it
    allocates must fit the payload field of a word, as [main] checks for
    the first allocation. *)
Theorem make_string_list_reads_back (argv : list string) (start : nat)
    (s : State) :
  (start <= length argv)%nat ->
  0 <= brk s -> brk s + 128 * Z.of_nat (length argv) <= 2 ^ 48 ->
  exists v s',
    make_string_list argv start s = (Ok v, s')
    /\ read_string_list (S (length (skipn start argv))) s' v
       = Some (skipn start argv)
    /\ (forall q, q < brk s ->
          pairs s' !! q = pairs s !! q /\ strings s' !! q = strings s !! q).
Proof.
  intros Hst Hb0 Hb1. unfold make_string_list.
  assert (E : (length argv <? start)%nat = false) by (apply Nat.ltb_ge; lia).
  rewrite E.
  destruct (make_string_list_from_spec (skipn start argv) s nil SlotHead)
    as (v & s' & Hrun & Hread & Hfp & Hfs & _).
  - exact Hb0.
  - rewrite length_skipn. lia.
  - reflexivity.
  - exists v, s'. split; [exact Hrun |]. split; [exact Hread |].
    intros q Hq. split; [now apply Hfp | now apply Hfs].
Qed.

Lemma make_string_list_reads_back_witness :
  exists v s',
    make_string_list ["vdlisp"; "script.lisp"; "a"]%string 1 initial_state
    = (Ok v, s')
    /\ read_string_list 3 s' v = Some ["script.lisp"; "a"]%string.
Proof.
  destruct (make_string_list_reads_back
              ["vdlisp"; "script.lisp"; "a"]%string 1 initial_state
              ltac:(cbn; lia) ltac:(vm_compute; congruence)
              ltac:(vm_compute; congruence))
    as (v & s' & H1 & H2 & _).
  exists v, s'. split; [exact H1 | exact H2].
Defined.

End ListFacts.

(* ===================================================================== *)
(** ** Argument passing to compiled code, and errors at the top level *)
(* ===================================================================== *)

Module CallerFacts.
Export ListFacts.

(** The argument scan of [State::call] collects the doubles of the
    actuals in order: all of them when every actual is a number, and
    those before the first actual that is not a number otherwise. *)
Fixpoint numeric_prefix (vs : list Value) : list double :=
  match vs with
  | [] => []
  | v :: vs' => if number_arg v then get_number v :: numeric_prefix vs' else []
  end.

Theorem scan_numeric_collects (s : State) :
  forall (vs : list Value) (args : Value) (fuel : nat) (darr : list double),
    actuals s args vs -> (length vs < fuel)%nat ->
    scan_numeric fuel args darr s
    = (Ok (forallb number_arg vs, darr ++ numeric_prefix vs), s).
Proof.
  induction vs as [| a vs IH]; intros args fuel darr Ha Hlt;
    (destruct fuel as [| n]; [cbn in Hlt; lia |]);
    inversion Ha as [? Hn | ? ? d0 ? Hc Hrest]; subst; cbn [scan_numeric].
  - rewrite Hn. cbn. now rewrite app_nil_r.
  - rewrite (proj1 (is_pair_true _ (proj1 Hc))). cbn [negb].
    rewrite (bind_Ok _ _ _ _ _ (get_pair_cell _ _ _ _ Hc)).
    cbn [car cdr forallb numeric_prefix].
    rewrite <- negb_andb. fold (number_arg a).
    destruct (number_arg a); cbn [negb andb].
    + rewrite (IH d0 n (darr ++ [get_number a])); [| assumption | cbn in Hlt; lia].
      now rewrite <- app_assoc.
    + now rewrite app_nil_r.
Qed.

Lemma scan_numeric_collects_witness :
  scan_numeric 5 two_demo_args [] two_demo_state
  = (Ok (true, [double_to_bits 1; double_to_bits 2]), two_demo_state).
Proof.
  destruct two_demo_two_args as (t & u & C1 & C2 & U).
  refine (scan_numeric_collects two_demo_state
            [make_number (double_to_bits 1); make_number (double_to_bits 2)]
            two_demo_args 5 [] _ _).
  - eapply actuals_cons; [exact C1 |].
    eapply actuals_cons; [exact C2 |]. now apply actuals_nil.
  - cbn. lia.
Defined.

(** The table the emitter builds from a proper list of parameter
    symbols gives each name its position, counted from the given index;
    a name that occurs twice keeps the later position. *)
Fixpoint index_all (acc : gmap string Z) (names : list string) (idx : Z)
  : gmap string Z :=
  match names with
  | [] => acc
  | name :: names' => index_all (<[name := idx]> acc) names' (idx + 1)
  end.

Theorem param_index_positions (s : State) :
  forall (names : list string) (p : Value) (fuel : nat) (idx : Z)
         (acc : gmap string Z),
    param_list s p names -> (length names < fuel)%nat ->
    param_index_of fuel p idx acc s = (Ok (index_all acc names idx), s).
Proof.
  induction names as [| name names IH]; intros p fuel idx acc Hp Hlt;
    (destruct fuel as [| n]; [cbn in Hlt; lia |]);
    inversion Hp as [? Pn | ? sym rest ? ? C Ty Str Hrest]; subst;
    cbn [param_index_of index_all].
  - now rewrite Pn.
  - rewrite (proj1 (is_pair_true _ (proj1 C))). cbn [negb].
    rewrite (is_pair_not_symbol _ (proj1 C)).
    rewrite (bind_Ok _ _ _ _ _ (get_pair_cell _ _ _ _ C)). cbn [car cdr].
    rewrite (is_type_truthy _ _ Ty) by discriminate. rewrite Ty. cbn [andb].
    rewrite (bind_Ok _ _ _ _ _ (get_symbol_Some _ _ _ Str)).
    apply IH; [assumption | cbn in Hlt; lia].
Qed.

Lemma param_index_positions_witness :
  param_index_of 5 params_demo_p 0 ∅ (snd params_demo_read)
  = (Ok (<["y"%string := 1]> (<["x"%string := 0]> ∅)), snd params_demo_read).
Proof.
  refine (param_index_positions (snd params_demo_read) ["x"; "y"]%string
            params_demo_p 5 0 ∅ _ _).
  - eapply param_list_cons;
      [split; vm_compute; reflexivity | vm_compute; reflexivity
      | vm_compute; reflexivity |].
    eapply param_list_cons;
      [split; vm_compute; reflexivity | vm_compute; reflexivity
      | vm_compute; reflexivity |].
    apply param_list_nil. vm_compute. reflexivity.
  - cbn. lia.
Defined.

(** A call whose function position holds a symbol bound to nil throws
    "attempt to call nil" before any argument is evaluated, and
    [current_expr] is left at the call, so that the error can be located. *)
Theorem call_of_nil_reports_expr (h : Host) (s : State) (expr : Value)
    (env : Z) (head args : Value) (key : string) (e0 : Z) (v : Value)
    (n fuel : nat) :
  cell s expr head args ->
  get_type head = TSYMBOL ->
  strings s !! get_payload_raw head = Some key ->
  binding s key (env_or_global s env) (Some (e0, v)) n ->
  (n < fuel)%nat ->
  truthy v = false ->
  eval h (S (S fuel)) expr env s
  = (Throw (RuntimeError "attempt to call nil"),
     with_current_expr (fun _ => expr) s).
Proof.
  intros Ce Ty Str B Hlt Tv.
  cbn [eval]. unfold eval_step at 1.
  rewrite bind_gets, bind_modify.
  rewrite (proj1 (is_pair_true _ (proj1 Ce))). cbn [negb].
  rewrite bind_gets. rewrite (is_pair_type _ (proj1 Ce)).
  set (s1 := with_current_expr (fun _ => expr) s).
  assert (Ce1 : cell s1 expr head args) by exact Ce.
  rewrite (bind_Ok _ _ _ _ _ (get_pair_cell _ _ _ _ Ce1)). cbn [car cdr].
  change (global s1) with (global s). fold (env_or_global s env).
  assert (B1 : binding s1 key (env_or_global s1 (env_or_global s env))
                 (Some (e0, v)) n).
  { apply (binding_same_envs s); [reflexivity |].
    change (env_or_global s1) with (env_or_global s).
    now rewrite env_or_global_twice. }
  pose proof (eval_symbol_value h s1 head _ key e0 _ n fuel Ty Str B1 Hlt) as Ev.
  cbn [eval] in Ev. rewrite (bind_Ok _ _ _ _ _ Ev).
  now rewrite Tv.
Qed.

(** [(x)] read into the state in which [x] is bound to nil. *)
Definition nil_call_read : Res Value * State :=
  intern_sexp "demo" (app "x" []) demo_state.
Definition nil_call_expr : Value :=
  match fst nil_call_read with Ok v => v | _ => nil end.
Definition nil_call_state : State := snd nil_call_read.

Lemma call_of_nil_reports_expr_witness :
  eval bare_host 3 nil_call_expr 0 nil_call_state
  = (Throw (RuntimeError "attempt to call nil"),
     with_current_expr (fun _ => nil_call_expr) nil_call_state).
Proof.
  eapply (call_of_nil_reports_expr bare_host nil_call_state nil_call_expr 0
            _ _ "x" (global nil_call_state) nil 0 1).
  - split; vm_compute; reflexivity.
  - vm_compute; reflexivity.
  - vm_compute; reflexivity.
  - change (env_or_global nil_call_state 0) with (global nil_call_state).
    eapply (binding_here nil_call_state "x" (global nil_call_state)
              (default (mkEnv ∅ 0)
                 (envs nil_call_state !! global nil_call_state)));
      vm_compute; congruence.
  - lia.
  - reflexivity.
Defined.

(** *** [main] *)








(** A host whose file [s.lisp] reads as the expressions [xs]; it has no
    other file. *)
Definition script_host (xs : list Sexp) : Host :=
  mkHost (fun _ => inr SNil) (fun _ => inr xs) (fun _ => false)
    (fun _ => None) (fun p => p)
    (fun p => if String.eqb p "s.lisp" then Some "text"%string else None)
    (fun _ => "#"%string) [].

(** The runs of [vdlisp s.lisp] and of [vdlisp t.lisp] on that host. *)
Definition script_run (xs : list Sexp) : Res Z * State :=
  main (script_host xs) 30 ["vdlisp"; "s.lisp"]%string empty_state.
Definition missing_run : Res Z * State :=
  main (script_host []) 30 ["vdlisp"; "t.lisp"]%string empty_state.


(** The status of four runs: a script that raises an error, a script
    that runs through, a script that calls [(exit 7)], and a file that
    does not exist. *)
Example script_status_demo :
  fst (script_run [app "car" [num 1]]) = Ok 1
  /\ fst (script_run [app "car" [SNil]]) = Ok 0
  /\ fst (script_run [app "exit" [num 7]; app "car" [num 1]]) = Exit 7
  /\ fst missing_run = Ok 1.
Proof. repeat split; vm_compute; reflexivity. Qed.

End CallerFacts.
